(** * payloadcli: configuration patching and collection scaffolding

    A shallow embedding of the text-patching and scaffolding core of the
    PayloadCMS Directory CLI, and the properties its specification states
    about it.

    Text is modelled as [string], a sequence of 8-bit code units.  The
    program's strings are sequences of UTF-16 code units; the two agree on
    ASCII text, which is what configuration files and identifiers consist
    of.  Code units above 127 are treated as opaque: they are neither white
    space, nor word characters, nor changed by case conversion.

    The program drives its text processing with regular expressions.  They
    are embedded through a small backtracking matcher that follows the
    ECMAScript matching order (leftmost match, alternatives left to right,
    greedy and lazy quantifiers), so that each pattern of the source is
    written down as a pattern here. *)

From Stdlib Require Import Ascii String List Bool Arith Lia.
From stdpp Require Import base option gmap strings.

Local Open Scope string_scope.
Local Open Scope nat_scope.
Local Open Scope list_scope.

(* ===================================================================== *)
(** * Part I: definitions                                                 *)
(* ===================================================================== *)

(** ** Characters and strings of the host language *)

Module JS.

Definition code (c : ascii) : nat := nat_of_ascii c.

Definition in_range (lo hi : nat) (c : ascii) : bool :=
  (lo <=? code c) && (code c <=? hi).

(** [A-Z], [a-z], [0-9] *)
Definition is_upper (c : ascii) : bool := in_range 65 90 c.
Definition is_lower (c : ascii) : bool := in_range 97 122 c.
Definition is_digit (c : ascii) : bool := in_range 48 57 c.

(** [\s]: tab, line feed, vertical tab, form feed, carriage return, space *)
Definition is_space (c : ascii) : bool :=
  in_range 9 13 c || (code c =? 32).

(** [\w]: [A-Za-z0-9_] *)
Definition is_word (c : ascii) : bool :=
  is_upper c || is_lower c || is_digit c || (code c =? 95).

(** [.]: any character but a line terminator *)
Definition is_dot (c : ascii) : bool :=
  negb ((code c =? 10) || (code c =? 13)).

(** [[\s\S]]: any character at all *)
Definition is_any (c : ascii) : bool := true.

Definition is_char (x : ascii) (c : ascii) : bool := Ascii.eqb x c.

Definition toUpperChar (c : ascii) : ascii :=
  if is_lower c then ascii_of_nat (code c - 32) else c.

Definition toLowerChar (c : ascii) : ascii :=
  if is_upper c then ascii_of_nat (code c + 32) else c.

Fixpoint map_string (f : ascii -> ascii) (s : string) : string :=
  match s with
  | EmptyString => EmptyString
  | String c t => String (f c) (map_string f t)
  end.

Definition toUpperCase : string -> string := map_string toUpperChar.
Definition toLowerCase : string -> string := map_string toLowerChar.

Fixpoint all_chars (p : ascii -> bool) (s : string) : bool :=
  match s with
  | EmptyString => true
  | String c t => p c && all_chars p t
  end.

Fixpoint filter_chars (p : ascii -> bool) (s : string) : string :=
  match s with
  | EmptyString => EmptyString
  | String c t => if p c then String c (filter_chars p t) else filter_chars p t
  end.

Definition is_empty (s : string) : bool :=
  match s with EmptyString => true | _ => false end.

(** The line feed and the double quote, as one-character strings. *)
Definition nl : string := String "010" "".
Definition dq : string := String "034" "".

(** [s.slice(n)] *)
Fixpoint drop (n : nat) (s : string) : string :=
  match n, s with
  | O, _ => s
  | S n', String _ t => drop n' t
  | S _, EmptyString => EmptyString
  end.

(** [s.slice(0, n)] *)
Fixpoint take (n : nat) (s : string) : string :=
  match n, s with
  | O, _ => EmptyString
  | S n', String c t => String c (take n' t)
  | S _, EmptyString => EmptyString
  end.

(** [s.startsWith(p)] *)
Fixpoint startsWith (p s : string) : bool :=
  match p, s with
  | EmptyString, _ => true
  | String a p', String b s' => Ascii.eqb a b && startsWith p' s'
  | String _ _, EmptyString => false
  end.

(** [s.includes(p)] *)
Fixpoint includes (p s : string) : bool :=
  startsWith p s ||
  match s with
  | EmptyString => false
  | String _ t => includes p t
  end.

(** [s.indexOf(p)] *)
Fixpoint indexOf (p s : string) : option nat :=
  if startsWith p s then Some 0
  else match s with
       | EmptyString => None
       | String _ t => option_map S (indexOf p t)
       end.

(** [s.endsWith(p)] *)
Definition endsWith (p s : string) : bool :=
  (String.length p <=? String.length s) &&
  String.eqb (drop (String.length s - String.length p) s) p.

Fixpoint trimStart (s : string) : string :=
  match s with
  | EmptyString => EmptyString
  | String c t => if is_space c then trimStart t else s
  end.

Fixpoint trimEnd (s : string) : string :=
  match s with
  | EmptyString => EmptyString
  | String c t =>
      let t' := trimEnd t in
      if is_space c && is_empty t' then EmptyString else String c t'
  end.

(** [s.trim()] *)
Definition trim (s : string) : string := trimEnd (trimStart s).

(** The text after the last occurrence of [sep]: [s.split(sep).pop()]. *)
Fixpoint last_segment_go (sep : ascii) (acc s : string) : string :=
  match s with
  | EmptyString => acc
  | String c t =>
      if Ascii.eqb c sep then last_segment_go sep t t
      else last_segment_go sep acc t
  end.

Definition last_segment (sep : ascii) (s : string) : string :=
  last_segment_go sep s s.

End JS.

(** ** Regular expressions *)

Module RegExp.
Import JS.

(** The fragment of the pattern language that the program uses.
    Quantifiers apply to character classes only, which is all the
    source's patterns need (apart from the optional group [(.)?]). *)
Inductive regex : Type :=
| Lit (s : string)                (* literal text *)
| Cls (p : ascii -> bool)         (* one character of a class *)
| Seq (r1 r2 : regex)             (* r1 r2 *)
| Alt (r1 r2 : regex)             (* r1|r2 *)
| Star (p : ascii -> bool)        (* p*  (greedy) *)
| StarLazy (p : ascii -> bool)    (* p*? (lazy) *)
| Opt (r : regex)                 (* r?  (greedy) *)
| Group (n : nat) (r : regex)     (* the n-th capturing group *)
| Bol                             (* ^ *)
| Eol                             (* $ *)
| WordB.                          (* \b *)

(** [p+] is [p p*]. *)
Definition Plus (p : ascii -> bool) : regex := Seq (Cls p) (Star p).

Fixpoint seqs (rs : list regex) : regex :=
  match rs with
  | [] => Lit ""
  | [r] => r
  | r :: rs' => Seq r (seqs rs')
  end.

(** Number of capturing groups of a pattern. *)
Fixpoint ngroups (r : regex) : nat :=
  match r with
  | Seq a b | Alt a b => ngroups a + ngroups b
  | Opt a => ngroups a
  | Group _ a => S (ngroups a)
  | _ => 0
  end.

(** The matcher's state: the index of the current position in the
    subject, the character just before it, the text from it onwards,
    and the captures recorded so far (most recent first). *)
Record mstate : Type := MState {
  pos : nat;
  prev : option ascii;
  rest : string;
  caps : list (nat * string)
}.

Definition cont := mstate -> option mstate.

Fixpoint eat (s : string) (st : mstate) : option mstate :=
  match s with
  | EmptyString => Some st
  | String a s' =>
      match rest st with
      | String b t =>
          if Ascii.eqb a b
          then eat s' (MState (S (pos st)) (Some b) t (caps st))
          else None
      | EmptyString => None
      end
  end.

Fixpoint star_greedy (p : ascii -> bool) (k : cont)
    (i : nat) (pv : option ascii) (cs : list (nat * string)) (s : string)
    : option mstate :=
  match s with
  | String c t =>
      if p c then
        match star_greedy p k (S i) (Some c) cs t with
        | Some r => Some r
        | None => k (MState i pv s cs)
        end
      else k (MState i pv s cs)
  | EmptyString => k (MState i pv s cs)
  end.

Fixpoint star_lazy (p : ascii -> bool) (k : cont)
    (i : nat) (pv : option ascii) (cs : list (nat * string)) (s : string)
    : option mstate :=
  match k (MState i pv s cs) with
  | Some r => Some r
  | None =>
      match s with
      | String c t => if p c then star_lazy p k (S i) (Some c) cs t else None
      | EmptyString => None
      end
  end.

Definition word_before (st : mstate) : bool :=
  match prev st with Some c => is_word c | None => false end.

Definition word_after (st : mstate) : bool :=
  match rest st with String c _ => is_word c | EmptyString => false end.

(** Backtracking matcher in continuation-passing style: [mt r st k] tries
    the ways [r] can match at [st], in the priority order of the host
    language, and returns the first one that the continuation accepts. *)
Fixpoint mt (r : regex) (st : mstate) (k : cont) : option mstate :=
  match r with
  | Lit s => match eat s st with Some st' => k st' | None => None end
  | Cls p =>
      match rest st with
      | String c t =>
          if p c then k (MState (S (pos st)) (Some c) t (caps st)) else None
      | EmptyString => None
      end
  | Seq a b => mt a st (fun st' => mt b st' k)
  | Alt a b =>
      match mt a st k with
      | Some x => Some x
      | None => mt b st k
      end
  | Star p => star_greedy p k (pos st) (prev st) (caps st) (rest st)
  | StarLazy p => star_lazy p k (pos st) (prev st) (caps st) (rest st)
  | Opt a =>
      match mt a st k with
      | Some x => Some x
      | None => k st
      end
  | Group n a =>
      mt a st (fun st' =>
        k (MState (pos st') (prev st') (rest st')
             ((n, take (pos st' - pos st) (rest st)) :: caps st')))
  | Bol => if pos st =? 0 then k st else None
  | Eol => if is_empty (rest st) then k st else None
  | WordB => if xorb (word_before st) (word_after st) then k st else None
  end.

(** One match: where it starts, what it covers, what lies around it,
    and the captured groups. *)
Record rmatch : Type := RMatch {
  m_index : nat;
  m_before : string;
  m_text : string;
  m_after : string;
  m_caps : list (nat * string)
}.

Definition capture (n : nat) (m : rmatch) : option string :=
  snd <$> List.find (fun e => fst e =? n) (m_caps m).

(** A match attempt at one position of the subject. *)
Definition match_here (r : regex) (i : nat) (pv : option ascii)
    (s : string) : option mstate :=
  mt r (MState i pv s []) Some.

(** [search] walks the subject from left to right and returns the first
    position at which the pattern matches; [bef] is the text already
    passed, in reverse. *)
Fixpoint search (r : regex) (i : nat) (pv : option ascii)
    (bef : string) (s : string) : option rmatch :=
  match match_here r i pv s with
  | Some st' =>
      Some (RMatch i (String.rev bef) (take (pos st' - i) s)
              (rest st') (caps st'))
  | None =>
      match s with
      | String c t => search r (S i) (Some c) (String c bef) t
      | EmptyString => None
      end
  end.

(** [re.exec(s)] and [s.match(re)] for a pattern without the [g] flag,
    and for a freshly built one with it. *)
Definition exec (r : regex) (s : string) : option rmatch :=
  search r 0 None "" s.

(** [re.test(s)] *)
Definition test (r : regex) (s : string) : bool :=
  match exec r s with Some _ => true | None => false end.

(** *** Replacement text

    A replacement given as a string is a template: [$$] stands for a
    dollar sign, [$&] for the matched text, [$`] and [$'] for the text
    before and after the match, and [$n] or [$nn] for a capture when the
    pattern has that many groups.  Any other [$] is literal. *)

Definition digit_val (c : ascii) : option nat :=
  if is_digit c then Some (code c - 48) else None.

Definition cap_text (n : nat) (m : rmatch) : string :=
  match capture n m with Some t => t | None => "" end.

Fixpoint expand (ng : nat) (m : rmatch) (t : string) : string :=
  match t with
  | EmptyString => EmptyString
  | String c t1 =>
      if negb (Ascii.eqb c "$") then String c (expand ng m t1)
      else
        match t1 with
        | EmptyString => String c EmptyString
        | String d t2 =>
            if Ascii.eqb d "$" then String "$" (expand ng m t2)
            else if Ascii.eqb d "&" then m_text m +:+ expand ng m t2
            else if Ascii.eqb d "`" then m_before m +:+ expand ng m t2
            else if Ascii.eqb d "'" then m_after m +:+ expand ng m t2
            else
              match digit_val d with
              | None => String c (expand ng m t1)
              | Some n1 =>
                  let one :=
                    if (1 <=? n1) && (n1 <=? ng)
                    then cap_text n1 m +:+ expand ng m t2
                    else String c (expand ng m t1) in
                  match t2 with
                  | String e t3 =>
                      match digit_val e with
                      | Some n2 =>
                          let nn := 10 * n1 + n2 in
                          if (1 <=? nn) && (nn <=? ng)
                          then cap_text nn m +:+ expand ng m t3
                          else one
                      | None => one
                      end
                  | EmptyString => one
                  end
              end
        end
  end.

(** [s.replace(re, f)] for a pattern without the [g] flag: only the first
    match is replaced. *)
Definition replace_first_with (r : regex) (f : rmatch -> string)
    (s : string) : string :=
  match exec r s with
  | Some m => m_before m +:+ f m +:+ m_after m
  | None => s
  end.

(** [s.replace(re, f)] for a pattern with the [g] flag.  The walk keeps
    the whole subject for [$`]; [skip] counts the characters of the
    current match still to be passed over.  After an empty match the
    search moves on by one character, as the host language does. *)
Fixpoint replace_all_go (r : regex) (f : rmatch -> string)
    (skip : nat) (i : nat) (pv : option ascii) (bef : string)
    (s : string) : string :=
  match skip with
  | S skip' =>
      match s with
      | String c t => replace_all_go r f skip' (S i) (Some c) (String c bef) t
      | EmptyString => EmptyString
      end
  | O =>
      match match_here r i pv s with
      | Some st' =>
          let n := pos st' - i in
          let m := RMatch i (String.rev bef) (take n s) (rest st') (caps st') in
          match s with
          | String c t =>
              match n with
              | O => f m +:+ String c (replace_all_go r f 0 (S i) (Some c) (String c bef) t)
              | S n' => f m +:+ replace_all_go r f n' (S i) (Some c) (String c bef) t
              end
          | EmptyString => f m
          end
      | None =>
          match s with
          | String c t => String c (replace_all_go r f 0 (S i) (Some c) (String c bef) t)
          | EmptyString => EmptyString
          end
      end
  end.

Definition replace_all_with (r : regex) (f : rmatch -> string)
    (s : string) : string :=
  replace_all_go r f 0 0 None "" s.

(** [s.replace(re, "text")], without and with the [g] flag. *)
Definition replace_first (r : regex) (t : string) (s : string) : string :=
  replace_first_with r (fun m => expand (ngroups r) m t) s.

Definition replace_all (r : regex) (t : string) (s : string) : string :=
  replace_all_with r (fun m => expand (ngroups r) m t) s.

(** [s.replace(p, "text")] for a pattern given as a string: the first
    occurrence of [p] is replaced, and the replacement is still a
    template. *)
Definition replace_string (p t s : string) : string :=
  match indexOf p s with
  | Some i =>
      let m := RMatch i (take i s) p (drop (i + String.length p) s) [] in
      m_before m +:+ expand 0 m t +:+ m_after m
  | None => s
  end.

(** [new RegExp(p)] for a pattern text [p] free of the characters that
    the pattern syntax gives a meaning to: such a pattern matches [p]
    itself.  The names the program builds patterns from are package and
    identifier names; [plain_pattern] states the side condition where a
    result depends on it. *)
Definition is_meta (c : ascii) : bool :=
  existsb (Ascii.eqb c)
    (list_ascii_of_string "\^$.|?*+()[]{}").

Definition plain_pattern (p : string) : bool :=
  all_chars (fun c => negb (is_meta c)) p.

Definition RegExp (p : string) : regex := Lit p.

End RegExp.

(** ** The plugin installer: patching the Payload configuration text *)

Module Installer.
Import JS RegExp.

(** What a concrete installer supplies to the [BasePluginInstaller]
    class: its package name, the identifier it imports, and the text of
    the entry it adds to the plugins list. *)
Record PluginInstaller : Type := {
  getPackageName : string;
  getPluginImportName : string;
  getPluginConfig : string
}.

(** The default [getPluginImportName]:
    [getPackageName().split("/").pop()?.replace(/-/g, "") || ""]. *)
Definition defaultPluginImportName (packageName : string) : string :=
  replace_all (Lit "-") "" (last_segment "/" packageName).

(** [import\s+.*?${pluginName}.*?from\s+['"]${packageName}['"]] *)
Definition is_quote (c : ascii) : bool :=
  Ascii.eqb c "'" || Ascii.eqb c "034".

Definition importRegex (pluginName packageName : string) : regex :=
  seqs [Lit "import"; Plus is_space; StarLazy is_dot; RegExp pluginName;
        StarLazy is_dot; Lit "from"; Plus is_space; Cls is_quote;
        RegExp packageName; Cls is_quote].

(** [plugins\s*:\s*\[([\s\S]*?)\]] *)
Definition pluginsRegex : regex :=
  seqs [Lit "plugins"; Star is_space; Lit ":"; Star is_space; Lit "[";
        Group 1 (StarLazy is_any); Lit "]"].

(** [(${pluginName}|shadcnPlugin)\s*\(\s*\{[\s\S]*?\}\s*\)] *)
Definition pluginRegex (pluginName : string) : regex :=
  seqs [Group 1 (Alt (RegExp pluginName) (Lit "shadcnPlugin"));
        Star is_space; Lit "("; Star is_space; Lit "{";
        StarLazy is_any; Lit "}"; Star is_space; Lit ")"].

(** [buildConfig\s*\(\s*\{([\s\S]*?)\}\s*\)] *)
Definition buildConfigRegex : regex :=
  seqs [Lit "buildConfig"; Star is_space; Lit "("; Star is_space; Lit "{";
        Group 1 (StarLazy is_any); Lit "}"; Star is_space; Lit ")"].

(** [,\s*,], [\[\s*,], [,\s*\]] and [,\s*$] *)
Definition doubleComma : regex := seqs [Lit ","; Star is_space; Lit ","].
Definition commaAfterOpen : regex := seqs [Lit "["; Star is_space; Lit ","].
Definition commaBeforeClose : regex := seqs [Lit ","; Star is_space; Lit "]"].
Definition trailingComma : regex := seqs [Lit ","; Star is_space; Eol].

Section Patch.
Variable this : PluginInstaller.

Definition importLine : string :=
  "import { " +:+ getPluginImportName this +:+ " } from '"
    +:+ getPackageName this +:+ "';" +:+ nl.

(** Lines 118-126: add the import statement unless one is found. *)
Definition addImport (configContent : string) : string :=
  if negb (test (importRegex (getPluginImportName this) (getPackageName this))
             configContent)
  then importLine +:+ configContent
  else configContent.

Definition hasPlugin (currentPlugins : string) : bool :=
  test (pluginRegex (getPluginImportName this)) currentPlugins.

(** Lines 145-148 *)
Definition cleanPlugins (currentPlugins : string) : string :=
  trim (replace_first trailingComma ""
          (replace_all doubleComma "," currentPlugins)).

(** Lines 150-151 *)
Definition newPluginsSection (currentPlugins : string) : string :=
  let cleanedPlugins := cleanPlugins currentPlugins in
  let separator := if is_empty cleanedPlugins then "" else "," in
  "plugins: [" +:+ cleanedPlugins +:+ separator
    +:+ getPluginConfig this +:+ "]".

(** Lines 128-170: extend the plugins list, or else add one to the
    argument of [buildConfig]; left alone when neither is found. *)
Definition addPlugin (configContent : string) : string :=
  match exec pluginsRegex configContent with
  | Some pluginsMatch =>
      let currentPlugins := cap_text 1 pluginsMatch in
      if negb (hasPlugin currentPlugins)
      then replace_first pluginsRegex (newPluginsSection currentPlugins)
             configContent
      else configContent
  | None =>
      match exec buildConfigRegex configContent with
      | Some buildConfigMatch =>
          let configBody := cap_text 1 buildConfigMatch in
          let newConfigBody :=
            configBody +:+ nl +:+ "  plugins: ["
              +:+ getPluginConfig this +:+ "]," in
          replace_string configBody newConfigBody configContent
      | None => configContent
      end
  end.

(** Lines 172-176 *)
Definition cleanup (configContent : string) : string :=
  replace_first commaBeforeClose "]"
    (replace_first commaAfterOpen "["
       (replace_all doubleComma "," configContent)).

Definition updatePayloadConfig (configContent : string) : string :=
  cleanup (addPlugin (addImport configContent)).

End Patch.

(** The one installer the program ships, [ShadcnPluginInstaller]; its
    entry text depends on the style sheet path the user entered. *)
Definition shadcnPluginConfig (cssPath : string) : string :=
  nl +:+ "    shadcnPlugin({" +:+ nl
  +:+ "      enableAll: true," +:+ nl
  +:+ "      customScssPath: " +:+ dq
  +:+ (if is_empty cssPath then "src/app/(payload)/custom.scss" else cssPath)
  +:+ dq +:+ "," +:+ nl
  +:+ "      injectStyles: false," +:+ nl
  +:+ "      customCSS: `" +:+ nl
  +:+ "        /* Add any additional custom CSS here */" +:+ nl
  +:+ "        :root {" +:+ nl
  +:+ "          --custom-color: #ff0000;" +:+ nl
  +:+ "        }" +:+ nl
  +:+ "      `," +:+ nl
  +:+ "    })".

Definition ShadcnPluginInstaller (cssPath : string) : PluginInstaller := {|
  getPackageName := "@payloadcms/plugin-shadcn";
  getPluginImportName := defaultPluginImportName "@payloadcms/plugin-shadcn";
  getPluginConfig := shadcnPluginConfig cssPath
|}.

End Installer.

(** ** The file system and the effects of a command *)

Module FS.
Import JS.

Inductive fsop : Type := OpRead | OpWrite | OpCopy | OpMkdir | OpReaddir.

(** What a command can throw: a failed file operation, a missing file,
    or an [Error] with a message. *)
Inductive error : Type :=
| IOFailure (op : fsop) (path : string)
| NoEntry (op : fsop) (path : string)
| Thrown (message : string).

(** The observable effects of a command, in the order they happen. *)
Inductive event : Type :=
| EvWrite (path content : string)
| EvCopy (src dst : string)
| EvEnsureDir (path : string)
| EvLog (message : string).

(** The world a command runs in: the regular files with their bytes,
    the directories, the working directory, the effects so far, and the
    outcome the environment has in store for each coming file operation
    ([true]: it fails, whatever the cause: permissions, a full disk, a
    missing parent directory).  Once [faults] is used up, operations
    succeed.  Paths are normalised strings with [/] as separator. *)
Record world : Type := World {
  files : gmap string string;
  dirs : gset string;
  cwd : string;
  faults : list bool;
  trace : list event
}.

Inductive result (A : Type) : Type :=
| Ok (a : A)
| Err (e : error).
Arguments Ok {A} a.
Arguments Err {A} e.

(** A command: a state transformer that returns a value or throws. *)
Definition M (A : Type) : Type := world -> result A * world.

Definition ret {A} (a : A) : M A := fun w => (Ok a, w).

Definition throw {A} (e : error) : M A := fun w => (Err e, w).

Definition bind {A B} (m : M A) (f : A -> M B) : M B :=
  fun w =>
    match m w with
    | (Ok a, w') => f a w'
    | (Err e, w') => (Err e, w')
    end.

(** [try { body } catch (error) { handler }] *)
Definition try_catch {A} (body : M A) (handler : error -> M A) : M A :=
  fun w =>
    match body w with
    | (Ok a, w') => (Ok a, w')
    | (Err e, w') => handler e w'
    end.

Notation "x <- m ;; k" := (bind m (fun x => k))
  (at level 100, m at next level, right associativity).
Notation "m ;;; k" := (bind m (fun _ => k))
  (at level 100, right associativity).

Definition emit (e : event) : M unit :=
  fun w => (Ok tt, World (files w) (dirs w) (cwd w) (faults w) (trace w ++ [e])).

(** [logger.info], [logger.debug] and the like *)
Definition log (message : string) : M unit := emit (EvLog message).

(** The outcome the environment has in store for the next operation. *)
Definition next_fault : M bool :=
  fun w =>
    match faults w with
    | b :: fs => (Ok b, World (files w) (dirs w) (cwd w) fs (trace w))
    | [] => (Ok false, w)
    end.

Definition set_files (f : gmap string string -> gmap string string) : M unit :=
  fun w => (Ok tt, World (f (files w)) (dirs w) (cwd w) (faults w) (trace w)).

Definition set_dirs (f : gset string -> gset string) : M unit :=
  fun w => (Ok tt, World (files w) (f (dirs w)) (cwd w) (faults w) (trace w)).

Definition get_world : M world := fun w => (Ok w, w).

(** [path.isAbsolute(p)], [path.join(a, b)] and [path.basename(p)] for
    normalised paths. *)
Definition isAbsolute (p : string) : bool := startsWith "/" p.

Definition join (a b : string) : string := a +:+ "/" +:+ b.

Definition basename (p : string) : string := last_segment "/" p.

(** The file that a path given to a file operation denotes. *)
Definition resolve (w : world) (p : string) : string :=
  if isAbsolute p then p else join (cwd w) p.

Definition under (dir p : string) : bool := startsWith (dir +:+ "/") p.

Definition is_dir (w : world) (p : string) : bool :=
  bool_decide (p ∈ dirs w).

(** [fs.pathExists(p)]: never throws. *)
Definition pathExists (p : string) : M bool :=
  fun w =>
    let q := resolve w p in
    (Ok (bool_decide (is_Some (files w !! q)) || is_dir w q), w).

(** [fs.readFile(p, "utf8")] *)
Definition readFile (p : string) : M string :=
  w <- get_world ;;
  let q := resolve w p in
  failed <- next_fault ;;
  if failed : bool then throw (IOFailure OpRead q)
  else match files w !! q with
       | Some content => ret content
       | None => throw (NoEntry OpRead q)
       end.

(** [fs.writeFile(p, content)] *)
Definition writeFile (p content : string) : M unit :=
  w <- get_world ;;
  let q := resolve w p in
  failed <- next_fault ;;
  if failed : bool then throw (IOFailure OpWrite q)
  else set_files (insert q content) ;;; emit (EvWrite q content).

(** The files of the tree at [src] that pass the filter, re-rooted at
    [dst]. *)
Definition tree_copies (keep : string -> bool) (src dst : string)
    (fs : gmap string string) : list (string * string) :=
  omap (fun e : string * string =>
          if under src (fst e) && keep (fst e)
          then Some (dst +:+ drop (String.length src) (fst e), snd e)
          else None)
       (map_to_list fs).

Definition dir_copies (keep : string -> bool) (src dst : string)
    (ds : gset string) : gset string :=
  list_to_set
    (omap (fun p : string =>
             if under src p && keep p
             then Some (dst +:+ drop (String.length src) p)
             else None)
          (elements ds)).

Definition insert_all (l : list (string * string)) (fs : gmap string string)
    : gmap string string :=
  foldr (fun e acc => <[fst e := snd e]> acc) fs l.

(** [fs.copy(src, dst, { filter })]: a file is copied over [dst]; a
    directory is copied with the files below it that pass the filter,
    over what [dst] holds already. *)
Definition copyWith (keep : string -> bool) (src dst : string) : M unit :=
  w <- get_world ;;
  let s := resolve w src in
  let d := resolve w dst in
  failed <- next_fault ;;
  if failed : bool then throw (IOFailure OpCopy d)
  else match files w !! s with
       | Some content =>
           if keep s
           then set_files (insert d content) ;;; emit (EvCopy s d)
           else ret tt
       | None =>
           if is_dir w s
           then set_files (insert_all (tree_copies keep s d (files w))) ;;;
                set_dirs (union ({[d]} ∪ dir_copies keep s d (dirs w))) ;;;
                emit (EvCopy s d)
           else throw (NoEntry OpCopy s)
       end.

(** [fs.copy(src, dst)] *)
Definition copy : string -> string -> M unit := copyWith (fun _ => true).

(** [fs.ensureDir(p)] *)
Definition ensureDir (p : string) : M unit :=
  w <- get_world ;;
  let q := resolve w p in
  failed <- next_fault ;;
  if failed : bool then throw (IOFailure OpMkdir q)
  else set_dirs (union {[q]}) ;;; emit (EvEnsureDir q).

(** The name of the entry of [dir] that [p] lies in or is. *)
Fixpoint first_segment (s : string) : string :=
  match s with
  | EmptyString => EmptyString
  | String c t => if Ascii.eqb c "/" then EmptyString else String c (first_segment t)
  end.

Definition entry_name (dir p : string) : option string :=
  if under dir p
  then Some (first_segment (drop (S (String.length dir)) p))
  else None.

Fixpoint dedup (l : list string) : list string :=
  match l with
  | [] => []
  | x :: l' => if existsb (String.eqb x) l' then dedup l' else x :: dedup l'
  end.

Definition entries (w : world) (dir : string) : list string :=
  dedup (omap (entry_name dir)
              (map fst (map_to_list (files w)) ++ elements (dirs w))).

(** [fs.readdir(p)]: the names of the entries of a directory. *)
Definition readdir (p : string) : M (list string) :=
  w <- get_world ;;
  let q := resolve w p in
  failed <- next_fault ;;
  if failed : bool then throw (IOFailure OpReaddir q)
  else if is_dir w q then ret (entries w q)
       else throw (NoEntry OpReaddir q).

(** [for (const x of xs) { body }] *)
Fixpoint for_each {A} (xs : list A) (body : A -> M unit) : M unit :=
  match xs with
  | [] => ret tt
  | x :: xs' => body x ;;; for_each xs' body
  end.

End FS.

(** ** Utilities of the plugin commands *)

Module Plugins.
Import JS FS.

(** [findConfigFile]: the first of the candidate paths that exists. *)
Fixpoint findConfigFile (possiblePaths : list string) : M (option string) :=
  match possiblePaths with
  | [] => ret None
  | filePath :: others =>
      w <- get_world ;;
      let fullPath :=
        if isAbsolute filePath then filePath else join (cwd w) filePath in
      found <- pathExists fullPath ;;
      if found : bool then ret (Some fullPath) else findConfigFile others
  end.

(** [backupFile]: a copy at the path plus [.bak]; [null] when there is
    nothing to copy or when the copy failed. *)
Definition backupFile (filePath : string) : M (option string) :=
  try_catch
    (let backupPath := filePath +:+ ".bak" in
     found <- pathExists filePath ;;
     if found : bool
     then copy filePath backupPath ;;; ret (Some backupPath)
     else ret None)
    (fun error =>
       log ("Error creating backup of " +:+ filePath) ;;;
       ret None).

End Plugins.

Module InstallerFile.
Import JS FS Plugins Installer.

Definition payloadConfigPaths : list string :=
  ["src/payload.config.ts"; "payload.config.ts";
   "src/payload.config.js"; "payload.config.js"].

(** [BasePluginInstaller.updatePayloadConfigFile] *)
Definition updatePayloadConfigFile (this : PluginInstaller) : M unit :=
  found <- findConfigFile payloadConfigPaths ;;
  match found with
  | None => throw (Thrown "Could not find payload config file")
  | Some configPath =>
      try_catch
        (backupFile configPath ;;;
         configContent <- readFile configPath ;;
         let configContent := updatePayloadConfig this configContent in
         writeFile configPath configContent ;;;
         log ("Updated " +:+ configPath) ;;;
         log ("Backup created at " +:+ configPath +:+ ".bak"))
        (fun error =>
           restorable <- pathExists (configPath +:+ ".bak") ;;
           (if restorable : bool
            then copy (configPath +:+ ".bak") configPath ;;;
                 log "Restored config from backup"
            else ret tt) ;;;
           throw error)
  end.

End InstallerFile.

(** ** Configuration templates and their handler *)

Module Config.
Import JS FS.

Inductive module_format : Type := esm | commonjs.

Record ConfigValidation : Type := {
  isValid : bool;
  format : option module_format;
  hasRequiredContent : bool
}.

Record ConfigTemplate : Type := {
  name : string;
  content : string;
  validate : string -> ConfigValidation
}.

Record ConfigFile : Type := {
  path : string;
  template : ConfigTemplate;
  backupPath : option string
}.

(** The validator shared by the module-style templates: the module
    format is read off the export marker, and the content is valid when
    it has a format and holds the marker text. *)
Definition validate_module (marker : string) (content : string)
    : ConfigValidation :=
  let isESM := includes "export default" content in
  let isCommonJS := includes "module.exports" content in
  let hasRequiredContent := includes marker content in
  {| isValid := (isESM || isCommonJS) && hasRequiredContent;
     format := if isESM then Some esm
               else if isCommonJS then Some commonjs else None;
     hasRequiredContent := hasRequiredContent |}.

Definition postcss : ConfigTemplate := {|
  name := "PostCSS";
  content :=
    "export default {" +:+ nl
    +:+ "  plugins: {" +:+ nl
    +:+ "    " +:+ dq +:+ "@tailwindcss/postcss" +:+ dq +:+ ": {}," +:+ nl
    +:+ "  }," +:+ nl
    +:+ "};";
  validate := validate_module "@tailwindcss/postcss"
|}.

Definition tailwind : ConfigTemplate := {|
  name := "Tailwind";
  content :=
    "import { type Config } from " +:+ dq +:+ "tailwindcss" +:+ dq +:+ ";" +:+ nl
    +:+ "import { getShadcnContent } from " +:+ dq
    +:+ "@payloadcmsdirectory/shadcn-ui" +:+ dq +:+ ";" +:+ nl
    +:+ nl
    +:+ "export default {" +:+ nl
    +:+ "  content: [" +:+ nl
    +:+ "    ...getShadcnContent()," +:+ nl
    +:+ "    " +:+ dq +:+ "./src/**/*.{js,ts,jsx,tsx}" +:+ dq +:+ "," +:+ nl
    +:+ "  ]," +:+ nl
    +:+ "  theme: {" +:+ nl
    +:+ "    extend: {}," +:+ nl
    +:+ "  }," +:+ nl
    +:+ "  plugins: []," +:+ nl
    +:+ "} satisfies Config;";
  validate := validate_module "getShadcnContent()"
|}.

Definition css : ConfigTemplate := {|
  name := "CSS";
  content :=
    "@import " +:+ dq +:+ "@payloadcmsdirectory/shadcn-ui/globals.css"
    +:+ dq +:+ ";" +:+ nl
    +:+ nl
    +:+ "@tailwind base;" +:+ nl
    +:+ "@tailwind components;" +:+ nl
    +:+ "@tailwind utilities;";
  validate := fun content =>
    let hasRequiredContent :=
      includes "@payloadcmsdirectory/shadcn-ui/globals.css" content in
    {| isValid := hasRequiredContent;
       format := None;
       hasRequiredContent := hasRequiredContent |}
|}.

(** [CONFIG_TEMPLATES], by key. *)
Inductive template_key : Type := Kpostcss | Ktailwind | Kcss.

Definition CONFIG_TEMPLATES (k : template_key) : ConfigTemplate :=
  match k with
  | Kpostcss => postcss
  | Ktailwind => tailwind
  | Kcss => css
  end.

(** The text each built-in validator looks for. *)
Definition requiredMarker (k : template_key) : string :=
  match k with
  | Kpostcss => "@tailwindcss/postcss"
  | Ktailwind => "getShadcnContent()"
  | Kcss => "@payloadcmsdirectory/shadcn-ui/globals.css"
  end.

(** [ConfigHandler.addConfig] *)
Definition addConfig (configs : list ConfigFile) (filePath : string)
    (t : ConfigTemplate) : list ConfigFile :=
  configs ++ [{| path := filePath; template := t; backupPath := None |}].

Record ValidationResult : Type := {
  r_name : string;
  r_path : string;
  needsUpdate : bool;
  r_exists : bool;
  r_validation : option ConfigValidation
}.

(** [ConfigHandler.validateConfigs] *)
Fixpoint validateConfigs (configs : list ConfigFile) : M (list ValidationResult) :=
  match configs with
  | [] => ret []
  | config :: others =>
      found <- pathExists (path config) ;;
      if found : bool then
        content <- readFile (path config) ;;
        let validation := validate (template config) content in
        results <- validateConfigs others ;;
        ret ({| r_name := name (template config);
                r_path := path config;
                needsUpdate := negb (isValid validation);
                r_exists := true;
                r_validation := Some validation |} :: results)
      else
        results <- validateConfigs others ;;
        ret ({| r_name := name (template config);
                r_path := path config;
                needsUpdate := true;
                r_exists := false;
                r_validation := None |} :: results)
  end.

(** [ConfigHandler.validateSingleConfig] *)
Definition validateSingleConfig (config : ConfigFile)
    : M (option ConfigValidation) :=
  found <- pathExists (path config) ;;
  if found : bool then
    content <- readFile (path config) ;;
    ret (Some (validate (template config) content))
  else ret None.

(** [ConfigHandler.updateConfigs] *)
Fixpoint updateConfigs (configs : list ConfigFile) : M (list string) :=
  match configs with
  | [] => ret []
  | config :: others =>
      validation <- validateSingleConfig config ;;
      match validation with
      | Some v =>
          if isValid v then updateConfigs others
          else
            writeFile (path config) (content (template config)) ;;;
            updated <- updateConfigs others ;;
            ret (path config :: updated)
      | None =>
          writeFile (path config) (content (template config)) ;;;
          updated <- updateConfigs others ;;
          ret (path config :: updated)
      end
  end.

(** [ConfigHandler.createBackups]; the handler with the backup paths
    recorded comes back beside the list of backups. *)
Fixpoint createBackups (configs : list ConfigFile)
    : M (list ConfigFile * list (string * string)) :=
  match configs with
  | [] => ret ([], [])
  | config :: others =>
      found <- pathExists (path config) ;;
      if found : bool then
        let bak := path config +:+ ".bak" in
        copy (path config) bak ;;;
        more <- createBackups others ;;
        ret ({| path := path config; template := template config;
                backupPath := Some bak |} :: fst more,
             (path config, bak) :: snd more)
      else
        more <- createBackups others ;;
        ret (config :: fst more, snd more)
  end.

(** [createShadcnConfigHandler] *)
Definition createShadcnConfigHandler (postcssPath tailwindPath cssPath : string)
    : list ConfigFile :=
  addConfig (addConfig (addConfig [] postcssPath postcss) tailwindPath tailwind)
    cssPath css.

End Config.

(** ** Generating and cloning collections *)

Module GenerateCollection.
Import JS RegExp FS.

(** [/(?:^\w|[A-Z]|\b\w)/g] *)
Definition wordStart : regex :=
  Alt (Seq Bol (Cls is_word)) (Alt (Cls is_upper) (Seq WordB (Cls is_word))).

Definition whitespaceRun : regex := Plus is_space.       (* /\s+/g *)
Definition is_dash (c : ascii) : bool := Ascii.eqb c "-" || Ascii.eqb c "_".
Definition dashes : regex := Cls is_dash.                 (* /[-_]/g *)

(** [camelCase] *)
Definition camelCase (str : string) : string :=
  replace_all dashes ""
    (replace_all whitespaceRun ""
       (replace_all_with wordStart
          (fun m => if m_index m =? 0 then toLowerCase (m_text m)
                    else toUpperCase (m_text m))
          str)).

(** [toPascalCase] *)
Definition toPascalCase (str : string) : string :=
  replace_all dashes ""
    (replace_all whitespaceRun ""
       (replace_all_with wordStart (fun m => toUpperCase (m_text m)) str)).

(** The conversion the command applies to the name it is given:
    [.replace(/[-_\s]+(.)?/g, (_, c) => (c ? c.toUpperCase() : ""))]
    [.replace(/^(.)/, (c) => c.toUpperCase())]. *)
Definition is_separator (c : ascii) : bool := is_dash c || is_space c.

Definition separatorRun : regex :=
  Seq (Plus is_separator) (Opt (Group 1 (Cls is_dot))).

Definition firstChar : regex := Seq Bol (Group 1 (Cls is_dot)).

Definition pascalCaseOf (input : string) : string :=
  replace_first_with firstChar (fun m => toUpperCase (m_text m))
    (replace_all_with separatorRun (fun m => toUpperCase (cap_text 1 m)) input).

(** [/^[A-Z][a-zA-Z0-9]*$/] *)
Definition is_alnum (c : ascii) : bool := is_lower c || is_upper c || is_digit c.

Definition identifierRegex : regex :=
  seqs [Bol; Cls is_upper; Star is_alnum; Eol].

(** The [validate] function of the name prompt: [None] accepts the
    input, [Some message] refuses it. *)
Definition validateName (input : string) : option string :=
  if is_empty (trim input) then Some "Collection name is required"
  else if negb (test identifierRegex (pascalCaseOf (trim input)))
  then Some "Collection name must be a valid PascalCase identifier"
  else None.

(** [cloneCollection]: copy the source directory under the new name and
    rewrite the copied source files. *)
Definition is_source_file (file : string) : bool :=
  endsWith ".ts" file || endsWith ".js" file.

Definition rewriteClone (sourcePath newCollectionName content : string)
    : string :=
  let sourceCollectionName := basename sourcePath in
  let sourcePascalCase := toPascalCase sourceCollectionName in
  replace_all (RegExp sourcePascalCase) newCollectionName content.

Definition cloneCollection (sourcePath newCollectionName collectionsDir : string)
    : M unit :=
  let targetDir := join collectionsDir (camelCase newCollectionName) in
  ensureDir targetDir ;;;
  copy sourcePath targetDir ;;;
  files <- readdir targetDir ;;
  for_each files (fun file =>
    if is_source_file file then
      let filePath := join targetDir file in
      content <- readFile filePath ;;
      writeFile filePath (rewriteClone sourcePath newCollectionName content)
    else ret tt).

(** The settings of the tool, as loaded from its configuration module. *)
Record cli_config : Type := {
  collections_path : option string;
  templates_path : option string;
  templates_useLocal : option bool
}.

Definition or_default (o : option string) (d : string) : string :=
  match o with
  | Some s => if is_empty s then d else s
  | None => d
  end.

Definition defaultConfig : cli_config :=
  {| collections_path := Some "src/collections";
     templates_path := None;
     templates_useLocal := None |}.

(** What the user answers at the prompts of the command. *)
Record user : Type := {
  setupConfig : bool;
  shouldCopy : bool;
  typedNames : list string;
  generationType : string;
  templateChoice : nat;
  sourceChoice : nat
}.

Definition COLLECTION_TEMPLATES : list (string * string) :=
  [("posts", "Posts"); ("pages", "Pages");
   ("courses", "Courses"); ("products", "Products")].

Section Command.
(** Collaborators outside the scaffolding core: the loader of the
    tool's configuration module, the [init:config] command, the code
    template of a collection, the metadata written beside a local
    template, and the reader of such metadata. *)
Variable loadModule : string -> M cli_config.
Variable initConfigCommand : M unit.
Variable generateCollectionCode : string -> string -> string.
Variable templateJson : string -> string.
Variable readTemplateName : string -> M string.
Variable who : user.

Definition swallow (body : M unit) : M unit :=
  try_catch body (fun error => log "debug").

(** [loadConfig] *)
Definition loadConfig : M cli_config :=
  try_catch
    (a <- pathExists "payload-cli-config.cjs" ;;
     b <- pathExists "payloadcli.config.cjs" ;;
     let tryCjs : M (option cli_config) :=
       if a || b then
         let cjsPath :=
           if a then "payload-cli-config.cjs" else "payloadcli.config.cjs" in
         try_catch (c <- loadModule cjsPath ;; ret (Some c))
                   (fun error => log "Error loading CJS config" ;;; ret None)
       else ret None in
     r1 <- tryCjs ;;
     match r1 with
     | Some c => ret c
     | None =>
         alt <- pathExists "payload-cli-config.js" ;;
         r2 <- (if alt : bool then
                  try_catch (c <- loadModule "payload-cli-config.js" ;; ret (Some c))
                            (fun error =>
                               log "Error loading alternative config" ;;; ret None)
                else ret None) ;;
         match r2 with
         | Some c => ret c
         | None =>
             js <- pathExists "payloadcli.config.js" ;;
             if js : bool then
               try_catch (loadModule "payloadcli.config.js")
                 (fun importError =>
                    try_catch (loadModule "payloadcli.config.js")
                      (fun requireError =>
                         log "Error loading config" ;;; throw requireError))
             else
               pathExists "src/payload.config.ts" ;;;
               ret defaultConfig
         end
     end)
    (fun error => log "Error loading config" ;;; ret defaultConfig).

(** [shouldCopyTemplates] *)
Definition shouldCopyTemplates (config : cli_config) : M bool :=
  match templates_useLocal config with
  | Some true => ret false
  | _ =>
      let templatesDir := or_default (templates_path config) ".payload/templates" in
      populated <-
        try_catch
          (found <- pathExists templatesDir ;;
           if found : bool then
             templates <- readdir templatesDir ;;
             ret (0 <? List.length templates)
           else ret false)
          (fun error => ret false) ;;
      if populated : bool then ret false else ret (shouldCopy who)
  end.

(** [updateConfigToUseLocalTemplates] *)
Definition moduleExportsOpen : regex :=
  seqs [Lit "module.exports"; Star is_space; Lit "="; Star is_space; Lit "{"].

Definition useLocalFalse : regex :=
  seqs [Lit "useLocal:"; Star is_space; Lit "false"].

Definition updateConfigToUseLocalTemplates : M unit :=
  found <- pathExists "payloadcli.config.js" ;;
  if found : bool then
    swallow
      (configContent <- readFile "payloadcli.config.js" ;;
       let configContent :=
         if negb (includes "templates:" configContent) then
           replace_first moduleExportsOpen
             ("module.exports = {" +:+ nl +:+ "  templates: {" +:+ nl
              +:+ "    path: " +:+ dq +:+ ".payload/templates" +:+ dq +:+ "," +:+ nl
              +:+ "    useLocal: true," +:+ nl +:+ "  },")
             configContent
         else replace_first useLocalFalse "useLocal: true" configContent in
       writeFile "payloadcli.config.js" configContent)
  else ret tt.

(** [copyTemplatesToLocal] *)
Definition copyTemplatesToLocal (config : cli_config) : M unit :=
  let templatesDir := or_default (templates_path config) ".payload/templates" in
  try_catch
    (ensureDir templatesDir ;;;
     for_each COLLECTION_TEMPLATES (fun entry =>
       let key := fst entry in
       let templateDir := join templatesDir key in
       ensureDir templateDir ;;;
       writeFile (join templateDir "index.ts")
         (generateCollectionCode (toPascalCase key) key) ;;;
       writeFile (join templateDir "template.json") (templateJson key)) ;;;
     updateConfigToUseLocalTemplates ;;;
     log "Collection templates copied to local project")
    (fun error => log "Failed to copy templates").

(** [generateCollectionFiles] *)
Definition generateCollectionFiles
    (collectionName templateKey collectionDir : string) : M unit :=
  writeFile (join collectionDir "index.ts")
    (generateCollectionCode collectionName templateKey).

(** [generateFromLocalTemplate]; the copy leaves [template.json] out. *)
Definition not_template_json (src : string) : bool :=
  negb (endsWith "template.json" src).

Definition slugRegex (key : string) : regex :=
  RegExp ("slug: " +:+ dq +:+ camelCase key +:+ dq).

Definition generateFromLocalTemplate
    (collectionName templateKey templatePath collectionDir : string) : M unit :=
  copyWith not_template_json templatePath collectionDir ;;;
  files <- readdir collectionDir ;;
  for_each files (fun file =>
    if is_source_file file then
      let filePath := join collectionDir file in
      content <- readFile filePath ;;
      let templateName := toPascalCase templateKey in
      let content := replace_all (RegExp templateName) collectionName content in
      let content :=
        replace_all (slugRegex templateKey)
          ("slug: " +:+ dq +:+ camelCase collectionName +:+ dq) content in
      writeFile filePath content
    else ret tt).

(** The local templates: the directories of the templates directory
    that hold a readable [template.json]. *)
Fixpoint localTemplatesOf (templatesDir : string) (names : list string)
    : M (list (string * string)) :=
  match names with
  | [] => ret []
  | dirName :: others =>
      w <- get_world ;;
      let here := join templatesDir dirName in
      found <- (if is_dir w (resolve w here)
                then pathExists (join here "template.json") else ret false) ;;
      this <- (if found : bool then
                 try_catch
                   (readTemplateName (join here "template.json") ;;;
                    ret [(dirName, here)])
                   (fun error => ret [])
               else ret []) ;;
      more <- localTemplatesOf templatesDir others ;;
      ret (this ++ more)
  end.

(** [generateFromTemplate] *)
Definition generateFromTemplate (collectionName : string) : M unit :=
  config <- loadConfig ;;
  let collectionsDir := or_default (collections_path config) "src/collections" in
  let templatesDir := or_default (templates_path config) ".payload/templates" in
  let useLocalTemplates :=
    match templates_useLocal config with Some b => b | None => false end in
  localTemplates <-
    (if useLocalTemplates : bool then
       try_catch
         (found <- pathExists templatesDir ;;
          if found : bool then
            names <- readdir templatesDir ;;
            localTemplatesOf templatesDir names
          else ret [])
         (fun error => log "Error reading local templates" ;;; ret [])
     else ret []) ;;
  let localTemplatesAvailable := 0 <? List.length localTemplates in
  let templateChoices : list (string * option string) :=
    if localTemplatesAvailable
    then map (fun e => (fst e, Some (snd e))) localTemplates
    else map (fun e => (fst e, None)) COLLECTION_TEMPLATES in
  match nth_error templateChoices (templateChoice who) with
  | None => throw (Thrown "prompt closed")
  | Some template =>
      ensureDir collectionsDir ;;;
      let collectionDir := join collectionsDir (camelCase collectionName) in
      ensureDir collectionDir ;;;
      try_catch
        (match snd template with
         | Some templatePath =>
             generateFromLocalTemplate collectionName (fst template)
               templatePath collectionDir
         | None =>
             generateCollectionFiles collectionName (fst template) collectionDir
         end ;;;
         log "collection generated successfully")
        (fun error => log "Failed to generate collection")
  end.

(** [findExistingCollections] *)
Definition findExistingCollections (collectionsDir : string)
    : M (list (string * string)) :=
  try_catch
    (found <- pathExists collectionsDir ;;
     if found : bool then
       w <- get_world ;;
       names <- readdir collectionsDir ;;
       ret (omap (fun entry =>
                    if is_dir w (resolve w (join collectionsDir entry))
                    then Some (entry, join collectionsDir entry) else None)
                 names)
     else ret [])
    (fun error => log "Error finding existing collections" ;;; ret []).

(** [cloneExistingCollection] *)
Definition cloneExistingCollection (collectionName : string) : M unit :=
  config <- loadConfig ;;
  let collectionsDir := or_default (collections_path config) "src/collections" in
  collections <- findExistingCollections collectionsDir ;;
  match collections with
  | [] => log "No existing collections found to clone."
  | _ =>
      match nth_error collections (sourceChoice who) with
      | None => throw (Thrown "prompt closed")
      | Some sourceCollection =>
          try_catch
            (cloneCollection (snd sourceCollection) collectionName collectionsDir ;;;
             log "collection cloned successfully")
            (fun error => log "Failed to clone collection")
      end
  end.

(** The name prompt asks again until its [validate] accepts. *)
Fixpoint promptName (typed : list string) : M string :=
  match typed with
  | [] => throw (Thrown "prompt closed")
  | input :: later =>
      match validateName input with
      | None => ret input
      | Some message => promptName later
      end
  end.

(** [generateCollectionCommand] *)
Definition generateCollectionCommand (collectionName : option string) : M unit :=
  a <- pathExists "payloadcli.config.cjs" ;;
  b <- pathExists "payload-cli-config.cjs" ;;
  c <- pathExists "payloadcli.config.js" ;;
  let configExists := a || b || c in
  config <-
    (if negb configExists then
       log "No configuration file found." ;;;
       if setupConfig who then initConfigCommand ;;; loadConfig
       else ret {| collections_path := Some "src/collections";
                   templates_path := Some ".payload/templates";
                   templates_useLocal := Some false |}
     else loadConfig) ;;
  wanted <- shouldCopyTemplates config ;;
  (if wanted : bool then copyTemplatesToLocal config else ret tt) ;;;
  let prompted : M string :=
    input <- promptName (typedNames who) ;; ret (trim input) in
  collectionName <-
    match collectionName with
    | Some given => if is_empty given then prompted else ret given
    | None => prompted
    end ;;
  if is_empty collectionName then log "Collection name is required"
  else
    let pascalCaseName := pascalCaseOf collectionName in
    if String.eqb (generationType who) "template"
    then generateFromTemplate pascalCaseName
    else if String.eqb (generationType who) "clone"
    then cloneExistingCollection pascalCaseName
    else if String.eqb (generationType who) "fresh"
    then log "Starting fresh is not yet implemented."
    else log "Invalid generation type selected.".

End Command.

End GenerateCollection.

(** ** The logger: wrapping a message to the terminal width *)

Module Logger.
Import JS.

(** [s.split(sep)] for a separator of one character. *)
Fixpoint split (sep : ascii) (s : string) : list string :=
  match s with
  | EmptyString => [EmptyString]
  | String c t =>
      if Ascii.eqb c sep then EmptyString :: split sep t
      else match split sep t with
           | word :: words => String c word :: words
           | [] => [String c EmptyString]
           end
  end.






End Logger.

(** ** The registry of plugins *)

Module Registry.
Import JS RegExp.

Inductive category : Type := ui | utilities | integrations | other.

Definition category_eqb (a b : category) : bool :=
  match a, b with
  | ui, ui | utilities, utilities | integrations, integrations | other, other => true
  | _, _ => false
  end.

(** The candidate locations of the configuration files of a plugin. *)
Record ConfigFiles : Type := {
  cf_tailwind : list string;
  cf_postcss : list string;
  cf_css : list string
}.

(** [PluginInfo], without the functions a plugin may run after its
    installation. *)
Record PluginInfo : Type := {
  name : string;
  packageName : string;
  description : string;
  version : option string;
  pluginCategory : category;
  homepage : option string;
  repository : option string;
  dependencies : list string;
  devDependencies : list string;
  configFiles : option ConfigFiles;
  configOption : option string;
  configImport : option string;
  nextSteps : option string
}.

(** [availablePlugins] *)
Definition shadcnUi : PluginInfo := {|
  name := "ShadCN UI";
  packageName := "@payloadcmsdirectory/shadcn-ui";
  description :=
    "Beautifully designed components built with Radix UI and Tailwind CSS";
  version := None;
  pluginCategory := ui;
  homepage := None;
  repository := Some "https://github.com/payloadcmsdirectory/shadcn-ui";
  dependencies := ["@payloadcmsdirectory/shadcn-ui"];
  devDependencies :=
    ["tailwindcss@latest"; "postcss"; "autoprefixer"; "tailwindcss-animate"];
  configFiles :=
    Some {| cf_tailwind :=
              ["tailwind.config.js"; "tailwind.config.mjs"; "tailwind.config.ts"];
            cf_postcss :=
              ["postcss.config.js"; "postcss.config.cjs"; "postcss.config.mjs"];
            cf_css :=
              ["src/styles/globals.css"; "styles/globals.css";
               "src/app/globals.css"; "app/globals.css"] |};
  configOption := Some "shadcnPlugin";
  configImport :=
    Some "import { shadcnPlugin } from '@payloadcmsdirectory/shadcn-ui';";
  nextSteps := None
|}.

Definition availablePlugins : list PluginInfo := [shadcnUi].






(** [getPluginsByCategory] *)
Definition getPluginsByCategory (c : category) : list PluginInfo :=
  List.filter (fun plugin => category_eqb (pluginCategory plugin) c) availablePlugins.

End Registry.

(** ** The add command: recording a plugin in the directory configuration *)

Module AddCommand.
Import JS RegExp FS Installer.

(** The text [installPlugin] gives [payloadcmsdirectory.config.js] when
    the file exists: the package name joins the plugins list unless the
    text holds it already. *)
Definition withPlugin (packageName configContent : string) : string :=
  if negb (includes packageName configContent) then
    replace_first_with pluginsRegex
      (fun m =>
         let pluginsContent := cap_text 1 m in
         if is_empty (trim pluginsContent)
         then "plugins: ['" +:+ packageName +:+ "']"
         else "plugins: [" +:+ pluginsContent
              +:+ (if is_empty (trim pluginsContent) then "" else ",")
              +:+ " '" +:+ packageName +:+ "']")
      configContent
  else configContent.

(** The file [installPlugin] creates when there is none. *)
Definition newDirectoryConfig (packageName : string) : string :=
  nl +:+ "/**" +:+ nl
  +:+ " * PayloadCMS Directory Configuration" +:+ nl
  +:+ " */" +:+ nl
  +:+ "module.exports = {" +:+ nl
  +:+ "  plugins: ['" +:+ packageName +:+ "']," +:+ nl
  +:+ "  // Add your customizations here" +:+ nl
  +:+ "};" +:+ nl.

(** The part of [installPlugin] that updates the configuration file,
    run once the package is installed. *)
Definition recordPlugin (packageName : string) : M unit :=
  w <- get_world ;;
  let configPath := join (cwd w) "payloadcmsdirectory.config.js" in
  found <- pathExists configPath ;;
  if found : bool then
    configContent <- readFile configPath ;;
    if negb (includes packageName configContent)
    then writeFile configPath (withPlugin packageName configContent)
    else ret tt
  else writeFile configPath (newDirectoryConfig packageName).

End AddCommand.

(** ** The init:config command: converting an ESM configuration *)

Module InitConfig.
Import JS RegExp FS Installer.






End InitConfig.

(** ** Detecting the package manager *)

Module PackageManagers.
Import JS FS.

Inductive PackageManager : Type := npm | yarn | pnpm.

Section Detect.
(** The [packageManager] field of the text of a [package.json]:
    nothing when the text is not JSON or the field is not a string,
    which makes the program throw; [Some None] when the field is absent
    or empty. *)
Variable packageManagerField : string -> option (option string).

(** [fs.readJSONSync(p).packageManager] *)
Definition readPackageManager (p : string) : M (option string) :=
  text <- readFile p ;;
  match packageManagerField text with
  | Some field => ret field
  | None => throw (Thrown "package.json cannot be used")
  end.

(** [detectPackageManager] *)
Definition detectPackageManager : M PackageManager :=
  w <- get_world ;;
  let cwd := cwd w in
  hasPnpmLock <- pathExists (join cwd "pnpm-lock.yaml") ;;
  if hasPnpmLock : bool then log "Detected pnpm lockfile" ;;; ret pnpm
  else
    hasYarnLock <- pathExists (join cwd "yarn.lock") ;;
    if hasYarnLock : bool then log "Detected yarn lockfile" ;;; ret yarn
    else
      hasNpmLock <- pathExists (join cwd "package-lock.json") ;;
      if hasNpmLock : bool then log "Detected npm lockfile" ;;; ret npm
      else
        fromField <-
          try_catch
            (let packageJsonPath := join cwd "package.json" in
             found <- pathExists packageJsonPath ;;
             if found : bool then
               field <- readPackageManager packageJsonPath ;;
               match field with
               | Some packageManager =>
                   if startsWith "pnpm" packageManager
                   then log "Detected pnpm in packageManager field" ;;;
                        ret (Some pnpm)
                   else if startsWith "yarn" packageManager
                   then log "Detected yarn in packageManager field" ;;;
                        ret (Some yarn)
                   else if startsWith "npm" packageManager
                   then log "Detected npm in packageManager field" ;;;
                        ret (Some npm)
                   else ret None
               | None => ret None
               end
             else ret None)
            (fun error => log "Error reading package.json" ;;; ret None) ;;
        match fromField with
        | Some detected => ret detected
        | None =>
            log "No package manager detected, defaulting to npm" ;;; ret npm
        end.

(** [getInstallCommand] and [getDevInstallCommand] *)
Definition installCommandOf (packageManager : PackageManager) : string :=
  match packageManager with
  | yarn => "yarn add"
  | pnpm => "pnpm add"
  | npm => "npm install"
  end.

Definition devInstallCommandOf (packageManager : PackageManager) : string :=
  match packageManager with
  | yarn => "yarn add -D"
  | pnpm => "pnpm add -D"
  | npm => "npm install --save-dev"
  end.

Definition getInstallCommand : M string :=
  packageManager <- detectPackageManager ;; ret (installCommandOf packageManager).

Definition getDevInstallCommand : M string :=
  packageManager <- detectPackageManager ;; ret (devInstallCommandOf packageManager).

End Detect.
End PackageManagers.

(** ** The plugin installers' own search for a configuration file *)

Module PluginsIndex.
Import JS FS.

(** [findConfigFile] of the plugins index: the first candidate that can
    be accessed, as it was given. *)
Fixpoint findConfigFile (possiblePaths : list string) : M (option string) :=
  match possiblePaths with
  | [] => ret None
  | path :: others =>
      accessible <- pathExists path ;;
      if accessible : bool then ret (Some path) else findConfigFile others
  end.

End PluginsIndex.

(** ** The remove command: taking a plugin out of the directory configuration *)

Module RemoveCommand.
Import JS RegExp Installer.

(** The quoted name with the comma and the white space after it; the
    pattern is built from the name, with a quote of either kind on both
    sides, an optional comma and [\s*]. *)
Definition quotedName (pluginName : string) : regex :=
  seqs [Cls is_quote; RegExp pluginName; Cls is_quote; Opt (Lit ","); Star is_space].

(** The text [removeCommand] gives [payloadcmsdirectory.config.js]:
    every quoted occurrence of the name is deleted, then the first comma
    before a closing bracket. *)
Definition withoutPlugin (pluginName configContent : string) : string :=
  replace_first commaBeforeClose "]"
    (replace_all (quotedName pluginName) "" configContent).

End RemoveCommand.

(** ** Sample projects *)

Module Samples.
Import JS RegExp FS Installer Config GenerateCollection.

(** The installer with the style sheet path the prompt offers. *)
Definition shadcn : PluginInstaller := ShadcnPluginInstaller "".

Definition configPath : string := "/app/src/payload.config.ts".
Definition backupPath : string := "/app/src/payload.config.ts.bak".

(** A project whose Payload configuration holds [content]; [outcomes] is
    what the environment has in store for the file operations. *)
Definition project (content : string) (outcomes : list bool) : world :=
  World {[ configPath := content ]} {[ "/app"; "/app/src" ]} "/app" outcomes [].

(** A configuration formatted with trailing commas. *)
Definition trailingCommaConfig : string :=
  "export default buildConfig({ collections: [Users,], globals: [Nav,], plugins: [] })".

(** A configuration with neither a plugins list nor a builder call. *)
Definition bareConfig : string := "export const port = 3000;".



(** A project with one collection, [posts], that has a source file and
    a component file. *)
Definition blog : world :=
  World {[ "/app/src/collections/posts/index.ts" :=
             "const Posts = {}; export default Posts;";
           "/app/src/collections/posts/Cell.tsx" :=
             "export const PostsCell = () => null;" ]}
        {[ "/app"; "/app/src"; "/app/src/collections";
           "/app/src/collections/posts" ]}
        "/app" [] [].

(** An empty project directory. *)
Definition emptyProject : world := World ∅ {[ "/app" ]} "/app" [] [].

(** A user who declines the set-up offers and picks the first built-in
    template. *)
Definition hastyUser : user :=
  {| setupConfig := false; shouldCopy := false; typedNames := [];
     generationType := "template"; templateChoice := 0; sourceChoice := 0 |}.

(** A handler in which one path is registered under two templates. *)
Definition sharedPathHandler : list ConfigFile :=
  addConfig (addConfig [] "styles.config.js" postcss) "styles.config.js" css.

End Samples.

(* ===================================================================== *)
(** * Part II: properties                                                 *)
(* ===================================================================== *)

Import JS RegExp FS Plugins Installer InstallerFile Config GenerateCollection.
Import Samples.

Lemma string_neq_by_eqb (a b : string) : String.eqb a b = false -> a <> b.
Proof. intros H. now apply String.eqb_neq. Qed.

(** ** Patching twice *)

(** C1. The claim is idempotence of the patcher.  On a configuration
    formatted with trailing commas the installer's patcher is not
    idempotent: the first run removes the comma before the first closing
    bracket only, and the second run, finding import and entry in place,
    still removes the next one. *)
Theorem C1_second_patch_differs :
  let once := updatePayloadConfig shadcn trailingCommaConfig in
  let twice := updatePayloadConfig shadcn once in
  includes "collections: [Users], globals: [Nav,]" once = true /\
  includes "collections: [Users], globals: [Nav]" twice = true /\
  twice <> once.
Proof.
  cbv zeta. repeat split; try (vm_compute; reflexivity).
  apply string_neq_by_eqb. vm_compute. reflexivity.
Qed.

(** ** No anchor in the content *)


(** ** The form of the import line *)


(** ** Backup and restore *)


(** ** Extending the plugins list *)


(** ** Validating configuration files *)

(** C6, as stated, fails: a PostCSS configuration that holds the marker
    but neither export form is reported as needing an update. *)
Lemma C6_counterexample :
  let w := World {[ "/app/postcss.config.js" := "// uses @tailwindcss/postcss" ]}
                 {[ "/app" ]} "/app" [] [] in
  includes (requiredMarker Kpostcss) "// uses @tailwindcss/postcss" = true /\
  (map needsUpdate <$>
     match fst (validateConfigs (addConfig [] "postcss.config.js" postcss) w) with
     | Ok results => Some results
     | Err _ => None
     end) = Some [true].
Proof. split; vm_compute; reflexivity. Qed.

(** ** Identifier case conversion *)

(** The claim's "first character lowercased". *)
Definition lowerFirst (s : string) : string :=
  match s with
  | EmptyString => EmptyString
  | String c t => String (toLowerChar c) t
  end.

(** C7, as stated, fails: a name that starts with a digit keeps it, and
    after a leading separator the camel-case name starts with a capital. *)
Lemma C7_counterexample :
  toPascalCase "123abc" = "123abc" /\
  test identifierRegex (toPascalCase "123abc") = false /\
  camelCase "-ab" = "Ab" /\
  lowerFirst (toPascalCase "-ab") = "ab".
Proof. repeat split; vm_compute; reflexivity. Qed.

(** ** Generating a collection from a name given on the command line *)

Section CommandArgument.
Variable loadModule : string -> M cli_config.
Variable initConfigCommand : M unit.
Variable generateCollectionCode : string -> string -> string.
Variable templateJson : string -> string.
Variable readTemplateName : string -> M string.

(** C8. The name prompt refuses [123abc], but the same name given as a
    command argument is not validated: the command succeeds, creates the
    collection directory and writes the collection file. *)
Theorem C8_argument_not_validated :
  validateName "123abc"
    = Some "Collection name must be a valid PascalCase identifier" /\
  test identifierRegex (pascalCaseOf "123abc") = false /\
  exists w',
    generateCollectionCommand loadModule initConfigCommand
      generateCollectionCode templateJson readTemplateName hastyUser
      (Some "123abc") emptyProject = (Ok tt, w') /\
    trace w' =
      [EvLog "No configuration file found.";
       EvEnsureDir "/app/src/collections";
       EvEnsureDir "/app/src/collections/123abc";
       EvWrite "/app/src/collections/123abc/index.ts"
         (generateCollectionCode "123abc" "posts");
       EvLog "collection generated successfully"] /\
    "/app/src/collections/123abc" ∈ dirs w'.
Proof.
  split; [vm_compute; reflexivity|].
  split; [vm_compute; reflexivity|].
  eexists. split; [vm_compute; reflexivity|].
  split; [reflexivity|].
  vm_compute. set_solver.
Qed.
End CommandArgument.

(** ** Cloning a collection *)


(** ** Updating configuration files *)


(** ** Running commands: auxiliary facts *)

Lemma append_cons (x : ascii) (a b : string) :
  String x a +:+ b = String x (a +:+ b).
Proof. reflexivity. Qed.

Lemma append_nil (b : string) : "" +:+ b = b.
Proof. reflexivity. Qed.

Lemma length_append (a b : string) :
  String.length (a +:+ b) = String.length a + String.length b.
Proof.
  induction a as [|x a IH]; [reflexivity|].
  rewrite append_cons. simpl. now rewrite IH.
Qed.

Lemma append_assoc (a b c : string) : (a +:+ b) +:+ c = a +:+ (b +:+ c).
Proof.
  induction a as [|x a IH]; [reflexivity|].
  rewrite !append_cons. now rewrite IH.
Qed.

Lemma append_empty_r (a : string) : a +:+ "" = a.
Proof.
  induction a as [|x a IH]; [reflexivity|].
  rewrite append_cons. now rewrite IH.
Qed.

Lemma append_suffix_neq (p s : string) : s <> "" -> p +:+ s <> p.
Proof.
  intros Hs Heq. apply (f_equal String.length) in Heq.
  rewrite length_append in Heq. destruct s; [congruence | simpl in Heq; lia].
Qed.

Lemma startsWith_app (a b : string) : startsWith a (a +:+ b) = true.
Proof.
  induction a as [|x a IH]; [reflexivity|].
  rewrite append_cons. simpl. now rewrite Ascii.eqb_refl, IH.
Qed.

Lemma resolve_absolute (w : world) (p : string) :
  isAbsolute p = true -> resolve w p = p.
Proof. unfold resolve. now intros ->. Qed.

Lemma join_absolute (a b : string) : isAbsolute a = true -> isAbsolute (join a b) = true.
Proof.
  unfold isAbsolute, join. destruct a as [|x a]; [discriminate|].
  rewrite append_cons. simpl. now destruct (Ascii.eqb "/" x).
Qed.


Lemma pathExists_file (w : world) (p c : string) :
  isAbsolute p = true -> files w !! p = Some c -> pathExists p w = (Ok true, w).
Proof.
  intros Ha Hf. unfold pathExists. rewrite (resolve_absolute _ _ Ha), Hf.
  rewrite bool_decide_eq_true_2 by eauto. reflexivity.
Qed.

(** The import step and the form of the line it adds. *)



(** ** Running a command step by step *)


(** The file operations, one step at a time.  [spend w] is the world
    once the environment has dealt the outcome of one operation, and
    [fails w] is that outcome. *)
Definition spend (w : world) : world :=
  World (files w) (dirs w) (cwd w) (tl (faults w)) (trace w).

Definition fails (w : world) : bool := hd false (faults w).

Definition wrote (q content : string) (w : world) : world :=
  World (<[q := content]> (files w)) (dirs w) (cwd w) (tl (faults w))
        (trace w ++ [EvWrite q content]).

Definition copied (s d content : string) (w : world) : world :=
  World (<[d := content]> (files w)) (dirs w) (cwd w) (tl (faults w))
        (trace w ++ [EvCopy s d]).

Definition logged (message : string) (w : world) : world :=
  World (files w) (dirs w) (cwd w) (faults w) (trace w ++ [EvLog message]).

Lemma next_fault_run (w : world) : next_fault w = (Ok (fails w), spend w).
Proof. destruct w as [fl ds cw [|b ft] tr]; reflexivity. Qed.

Lemma readFile_run (p : string) (w : world) :
  readFile p w =
    if fails w then (Err (IOFailure OpRead (resolve w p)), spend w)
    else match files w !! resolve w p with
         | Some content => (Ok content, spend w)
         | None => (Err (NoEntry OpRead (resolve w p)), spend w)
         end.
Proof.
  unfold readFile, bind, get_world. rewrite next_fault_run.
  destruct (fails w); [reflexivity|]. now destruct (files w !! resolve w p).
Qed.

Lemma writeFile_run (p content : string) (w : world) :
  writeFile p content w =
    if fails w then (Err (IOFailure OpWrite (resolve w p)), spend w)
    else (Ok tt, wrote (resolve w p) content w).
Proof.
  unfold writeFile, bind, get_world. rewrite next_fault_run.
  destruct (fails w); reflexivity.
Qed.

Lemma copy_file_run (s d content : string) (w : world) :
  files w !! resolve w s = Some content ->
  copy s d w =
    if fails w then (Err (IOFailure OpCopy (resolve w d)), spend w)
    else (Ok tt, copied (resolve w s) (resolve w d) content w).
Proof.
  intros Hs. unfold copy, copyWith, bind, get_world. rewrite next_fault_run.
  destruct (fails w); [reflexivity|]. now rewrite Hs.
Qed.

Lemma pathExists_run (p : string) (w : world) :
  pathExists p w =
    (Ok (bool_decide (is_Some (files w !! resolve w p)) || is_dir w (resolve w p)), w).
Proof. reflexivity. Qed.

Lemma log_run (message : string) (w : world) : log message w = (Ok tt, logged message w).
Proof. reflexivity. Qed.

Lemma bind_run {A B} (m : M A) (f : A -> M B) (w : world) :
  bind m f w = match m w with
               | (Ok a, w') => f a w'
               | (Err e, w') => (Err e, w')
               end.
Proof. reflexivity. Qed.

Lemma try_catch_run {A} (body : M A) (handler : error -> M A) (w : world) :
  try_catch body handler w = match body w with
                             | (Ok a, w') => (Ok a, w')
                             | (Err e, w') => handler e w'
                             end.
Proof. reflexivity. Qed.

Lemma is_Some_true {A} (x : A) : bool_decide (is_Some (Some x)) = true.
Proof. apply bool_decide_eq_true_2. eauto. Qed.


Ltac run_fs :=
  repeat first
    [ rewrite bind_run | rewrite try_catch_run | rewrite readFile_run
    | rewrite writeFile_run | rewrite log_run | rewrite pathExists_run
    | progress cbn [fails spend wrote copied logged files dirs cwd faults
                    trace hd tl ret throw]
    | rewrite resolve_absolute by assumption
    | rewrite lookup_insert_eq
    | rewrite lookup_insert_ne by (first [apply append_suffix_neq; discriminate
                                         | apply not_eq_sym, append_suffix_neq; discriminate])
    | rewrite is_Some_true
    | progress cbv iota beta
    | progress cbn [orb] ].

(** ** The patch when no anchor is found *)






(** ** Validating and updating configuration files: proofs *)

Lemma spend_quiet (w : world) : faults w = [] -> spend w = w.
Proof. destruct w as [fl ds cw ft tr]. simpl. now intros ->. Qed.

Lemma fails_quiet (w : world) : faults w = [] -> fails w = false.
Proof. unfold fails. now intros ->. Qed.

Lemma resolve_cwd (w w' : world) (p : string) :
  cwd w' = cwd w -> resolve w' p = resolve w p.
Proof. unfold resolve. now intros ->. Qed.

(** A registered file as the handler finds it: a regular file, not a
    directory. *)
Definition regular (w : world) (cf : ConfigFile) : Prop :=
  is_dir w (resolve w (path cf)) = false.








(** C6, amended.  [validateConfigs] reports [needsUpdate: false] for a
    registered file that holds its template's marker and, for the
    module-style templates (PostCSS and Tailwind), one of the two export
    forms as well; the style sheet template needs the marker only. *)
Theorem C6_marker_and_export_form (configs : list ConfigFile) (w : world)
    (Hquiet : faults w = [])
    (Hregular : Forall (regular w) configs) :
  exists results,
    validateConfigs configs w = (Ok results, w) /\
    length results = length configs /\
    forall i cf k text,
      configs !! i = Some cf ->
      template cf = CONFIG_TEMPLATES k ->
      files w !! resolve w (path cf) = Some text ->
      includes (requiredMarker k) text = true ->
      (k = Kcss \/ includes "export default" text = true
               \/ includes "module.exports" text = true) ->
      exists r, results !! i = Some r /\ r_path r = path cf /\ needsUpdate r = false.
Proof.
  induction configs as [|cf0 configs IH].
  - exists []. split; [reflexivity|]. split; [reflexivity|].
    intros i cf k text Hi. discriminate.
  - inversion Hregular as [|? ? Hr Hregs]; subst.
    destruct (IH Hregs) as (results & Hrun & Hlen & Hres).
    cbn [validateConfigs]. rewrite bind_run, pathExists_run, Hr, orb_false_r.
    destruct (files w !! resolve w (path cf0)) as [text0|] eqn:E0.
    + rewrite is_Some_true, bind_run, readFile_run, (fails_quiet _ Hquiet), E0.
      rewrite (spend_quiet _ Hquiet), bind_run, Hrun.
      eexists. split; [reflexivity|]. split; [simpl; now rewrite Hlen|].
      intros [|i] cf k text Hi Hk Htext Hmark Hform.
      * injection Hi as <-. eexists. split; [reflexivity|]. split; [reflexivity|].
        cbn [needsUpdate]. rewrite E0 in Htext. injection Htext as <-.
        rewrite Hk. destruct k; cbn in Hmark |- *.
        -- unfold validate_module; cbn [isValid]. rewrite Hmark.
           destruct Hform as [|[->| ->]]; [discriminate| |]; now rewrite ?orb_true_r.
        -- unfold validate_module; cbn [isValid]. rewrite Hmark.
           destruct Hform as [|[->| ->]]; [discriminate| |]; now rewrite ?orb_true_r.
        -- now rewrite Hmark.
      * apply (Hres i cf k text); assumption.
    + rewrite bool_decide_eq_false_2 by (now intros [? ?]).
      rewrite bind_run, Hrun.
      eexists. split; [reflexivity|]. split; [simpl; now rewrite Hlen|].
      intros [|i] cf k text Hi Hk Htext Hmark Hform.
      * injection Hi as <-. congruence.
      * apply (Hres i cf k text); assumption.
Qed.

Lemma C6_marker_and_export_form_witness :
  let text := "module.exports = { plugins: ['@tailwindcss/postcss'] };" in
  let w := World {[ "/app/postcss.config.js" := text ]} {[ "/app" ]} "/app" [] [] in
  exists results,
    validateConfigs (addConfig [] "postcss.config.js" postcss) w = (Ok results, w) /\
    map needsUpdate results = [false].
Proof.
  cbv zeta.
  destruct (C6_marker_and_export_form (addConfig [] "postcss.config.js" postcss)
              (World {[ "/app/postcss.config.js" :=
                          "module.exports = { plugins: ['@tailwindcss/postcss'] };" ]}
                     {[ "/app" ]} "/app" [] []))
    as (results & Hrun & Hlen & Hres).
  - reflexivity.
  - repeat constructor; vm_compute; reflexivity.
  - exists results. split; [exact Hrun|].
    destruct (Hres 0 _ Kpostcss
                "module.exports = { plugins: ['@tailwindcss/postcss'] };"
                eq_refl eq_refl) as (r & Hr & _ & Hneeds);
      [vm_compute; reflexivity | vm_compute; reflexivity
      | right; right; vm_compute; reflexivity |].
    destruct results as [|r0 [|r1 results]]; try discriminate.
    injection Hr as ->. simpl. now rewrite Hneeds.
Defined.

(** ** The matcher on particular patterns *)

Lemma replace_all_go_hit (r : regex) (f : rmatch -> string) (i : nat)
    (pv : option ascii) (bef : string) (c : ascii) (t : string)
    (st' : mstate) (n' : nat) :
  match_here r i pv (String c t) = Some st' ->
  pos st' - i = S n' ->
  replace_all_go r f 0 i pv bef (String c t)
    = f (RMatch i (String.rev bef) (take (S n') (String c t)) (rest st') (caps st'))
        +:+ replace_all_go r f n' (S i) (Some c) (String c bef) t.
Proof. intros Hm Hn. cbn [replace_all_go]. now rewrite Hm, Hn. Qed.

Lemma replace_all_go_miss (r : regex) (f : rmatch -> string) (i : nat)
    (pv : option ascii) (bef : string) (c : ascii) (t : string) :
  match_here r i pv (String c t) = None ->
  replace_all_go r f 0 i pv bef (String c t)
    = String c (replace_all_go r f 0 (S i) (Some c) (String c bef) t).
Proof. intros Hm. cbn [replace_all_go]. now rewrite Hm. Qed.

Lemma replace_all_go_end (r : regex) (f : rmatch -> string) (i : nat)
    (pv : option ascii) (bef : string) :
  match_here r i pv "" = None -> replace_all_go r f 0 i pv bef "" = "".
Proof. intros Hm. cbn [replace_all_go]. now rewrite Hm. Qed.

Lemma replace_all_go_skip (r : regex) (f : rmatch -> string) (k i : nat)
    (pv : option ascii) (bef : string) (c : ascii) (t : string) :
  replace_all_go r f (S k) i pv bef (String c t)
    = replace_all_go r f k (S i) (Some c) (String c bef) t.
Proof. reflexivity. Qed.

(** The length of the longest prefix of [s] made of characters of [p]. *)
Fixpoint run_length (p : ascii -> bool) (s : string) : nat :=
  match s with
  | String c t => if p c then S (run_length p t) else 0
  | EmptyString => 0
  end.

Lemma star_greedy_accepting (p : ascii -> bool) (i : nat) (pv : option ascii)
    (cs : list (nat * string)) (s : string) :
  exists st, star_greedy p Some i pv cs s = Some st /\ pos st = i + run_length p s.
Proof.
  revert i pv. induction s as [|c t IH]; intros i pv; cbn [star_greedy run_length].
  - eexists. split; [reflexivity|]. simpl. lia.
  - destruct (p c).
    + destruct (IH (S i) (Some c)) as (st & -> & Hpos). exists st. split; [reflexivity|]. lia.
    + eexists. split; [reflexivity|]. simpl. lia.
Qed.

(** Deleting the characters of a class, one by one or run by run, is
    filtering them out. *)
Definition outside (p : ascii -> bool) (c : ascii) : bool := negb (p c).

Lemma delete_class (p : ascii -> bool) (f : rmatch -> string) (s : string) :
  (forall m, f m = "") ->
  replace_all_with (Cls p) f s = filter_chars (outside p) s.
Proof.
  intros Hf. unfold replace_all_with.
  generalize (@None ascii) "". generalize 0 at 2.
  induction s as [|c t IH]; intros i pv bef.
  - now apply replace_all_go_end.
  - cbn [filter_chars]. unfold outside at 1.
    destruct (p c) eqn:Hc; cbn [negb].
    + erewrite (replace_all_go_hit _ _ _ _ _ _ _ _ 0);
        [| unfold match_here; cbn [mt rest]; rewrite Hc; reflexivity
         | cbn [pos]; lia].
      rewrite Hf, append_nil. apply IH.
    + rewrite replace_all_go_miss
        by (unfold match_here; cbn [mt rest]; now rewrite Hc).
      now rewrite IH.
Qed.

Lemma delete_runs (p : ascii -> bool) (f : rmatch -> string) (s : string) :
  (forall m, f m = "") ->
  replace_all_with (Plus p) f s = filter_chars (outside p) s.
Proof.
  intros Hf. unfold replace_all_with.
  assert (H : forall s skip i pv bef, skip <= run_length p s ->
            replace_all_go (Plus p) f skip i pv bef s = filter_chars (outside p) s).
  { clear s. induction s as [|c t IH]; intros skip i pv bef Hskip.
    - cbn [run_length] in Hskip. assert (skip = 0) as -> by lia.
      now apply replace_all_go_end.
    - cbn [filter_chars run_length] in *. unfold outside at 1.
      destruct (p c) eqn:Hc; cbn [negb].
      + destruct skip as [|k].
        * destruct (star_greedy_accepting p (S i) (Some c) [] t) as (st & Hst & Hpos).
          erewrite (replace_all_go_hit _ _ _ _ _ _ _ st (run_length p t));
            [| unfold match_here, Plus; cbn [mt rest pos prev caps];
               rewrite Hc; exact Hst
             | lia].
          rewrite Hf, append_nil. now apply IH.
        * rewrite replace_all_go_skip. apply IH. lia.
      + assert (skip = 0) as -> by lia.
        rewrite replace_all_go_miss
          by (unfold match_here, Plus; cbn [mt rest]; now rewrite Hc).
        now rewrite IH by lia. }
  apply H. lia.
Qed.

(** ** Case conversion: proofs *)

(** Whether the pattern [(?:^\w|[A-Z]|\b\w)] matches the character [c]
    at index [i], after the character [pv]. *)
Definition starts_word (i : nat) (pv : option ascii) (c : ascii) : bool :=
  ((i =? 0) && is_word c)
  || is_upper c
  || (xorb (match pv with Some b => is_word b | None => false end) (is_word c)
      && is_word c).

Lemma wordStart_here (i : nat) (pv : option ascii) (c : ascii) (t : string) :
  match_here wordStart i pv (String c t)
    = if starts_word i pv c then Some (MState (S i) (Some c) t []) else None.
Proof.
  unfold match_here, wordStart, starts_word.
  cbn [mt pos prev rest caps]. unfold word_before, word_after. cbn [prev rest].
  destruct (i =? 0); destruct (is_word c); destruct (is_upper c);
    destruct pv as [b|]; try destruct (is_word b); reflexivity.
Qed.

Lemma wordStart_end (i : nat) (pv : option ascii) : match_here wordStart i pv "" = None.
Proof.
  unfold match_here, wordStart. cbn [mt pos prev rest caps].
  unfold word_before, word_after. cbn [prev rest].
  destruct (i =? 0); destruct pv as [b|]; try destruct (is_word b); reflexivity.
Qed.

(** What replacing every match of the pattern does: each character that
    starts a word is handed to the callback with its index. *)
Fixpoint mark (g : nat -> ascii -> string) (i : nat) (pv : option ascii)
    (s : string) : string :=
  match s with
  | EmptyString => EmptyString
  | String c t =>
      (if starts_word i pv c then g i c else String c "")
        +:+ mark g (S i) (Some c) t
  end.

Lemma replace_wordStart (g : nat -> ascii -> string) (f : rmatch -> string)
    (s : string) :
  (forall i bef c aft cs, f (RMatch i bef (String c "") aft cs) = g i c) ->
  replace_all_with wordStart f s = mark g 0 None s.
Proof.
  intros Hf. unfold replace_all_with.
  generalize (@None ascii) "". generalize 0 at 2 3.
  induction s as [|c t IH]; intros i pv bef.
  - apply replace_all_go_end, wordStart_end.
  - cbn [mark]. destruct (starts_word i pv c) eqn:Hc.
    + erewrite (replace_all_go_hit _ _ _ _ _ _ _ _ 0);
        [| rewrite wordStart_here, Hc; reflexivity | cbn [pos]; lia].
      cbn [take]. rewrite Hf. now rewrite IH.
    + rewrite replace_all_go_miss by (now rewrite wordStart_here, Hc).
      now rewrite IH.
Qed.

Definition upperAt (i : nat) (c : ascii) : string := String (toUpperChar c) "".

Definition camelAt (i : nat) (c : ascii) : string :=
  if i =? 0 then String (toLowerChar c) "" else String (toUpperChar c) "".

Lemma toPascalCase_eq (s : string) :
  toPascalCase s
    = filter_chars (outside is_dash)
        (filter_chars (outside is_space) (mark upperAt 0 None s)).
Proof.
  unfold toPascalCase, replace_all.
  rewrite (delete_class is_dash) by reflexivity.
  unfold whitespaceRun. rewrite (delete_runs is_space) by reflexivity.
  now rewrite (replace_wordStart upperAt).
Qed.

Lemma camelCase_eq (s : string) :
  camelCase s
    = filter_chars (outside is_dash)
        (filter_chars (outside is_space) (mark camelAt 0 None s)).
Proof.
  unfold camelCase, replace_all.
  rewrite (delete_class is_dash) by reflexivity.
  unfold whitespaceRun. rewrite (delete_runs is_space) by reflexivity.
  rewrite (replace_wordStart camelAt); [reflexivity|].
  intros i bef c aft cs. cbn [m_index m_text]. unfold camelAt.
  now destruct (i =? 0).
Qed.

Lemma mark_after_first (i : nat) (pv : option ascii) (s : string) :
  mark camelAt (S i) pv s = mark upperAt (S i) pv s.
Proof.
  revert i pv. induction s as [|c t IH]; intros i pv; [reflexivity|].
  cbn [mark]. now rewrite IH.
Qed.

(** The characters a collection name is made of: letters, digits,
    hyphens, underscores and white space. *)
Definition is_letter (c : ascii) : bool := is_lower c || is_upper c.
Definition name_char (c : ascii) : bool := is_alnum c || is_dash c || is_space c.

Ltac each_ascii c := destruct c as [[|] [|] [|] [|] [|] [|] [|] [|]].

Lemma letter_facts (c : ascii) :
  is_letter c = true ->
  is_word c = true /\ is_upper (toUpperChar c) = true /\
  is_space (toUpperChar c) = false /\ is_dash (toUpperChar c) = false /\
  is_space (toLowerChar c) = false /\ is_dash (toLowerChar c) = false /\
  toLowerChar (toUpperChar c) = toLowerChar c.
Proof. each_ascii c; vm_compute; intros H; try discriminate H; repeat split. Qed.

Lemma name_char_upper (c : ascii) :
  name_char c = true -> name_char (toUpperChar c) = true.
Proof. each_ascii c; vm_compute; intros H; try discriminate H; reflexivity. Qed.

Lemma name_char_kept (c : ascii) :
  name_char c = true -> outside is_space c = true -> outside is_dash c = true ->
  is_alnum c = true.
Proof.
  unfold name_char, outside. destruct (is_alnum c); [reflexivity|].
  destruct (is_dash c); destruct (is_space c); simpl; congruence.
Qed.

Lemma all_chars_app (p : ascii -> bool) (a b : string) :
  all_chars p (a +:+ b) = all_chars p a && all_chars p b.
Proof.
  induction a as [|x a IH]; [reflexivity|].
  rewrite append_cons. cbn [all_chars]. now rewrite IH, andb_assoc.
Qed.

Lemma mark_name_chars (i : nat) (pv : option ascii) (s : string) :
  all_chars name_char s = true -> all_chars name_char (mark upperAt i pv s) = true.
Proof.
  revert i pv. induction s as [|c t IH]; intros i pv Hs; [reflexivity|].
  cbn [all_chars mark] in *. apply andb_prop in Hs as [Hc Ht].
  rewrite all_chars_app, IH by assumption. rewrite andb_true_r.
  destruct (starts_word i pv c); unfold upperAt; cbn [all_chars];
    rewrite andb_true_r; [now apply name_char_upper | exact Hc].
Qed.

Lemma filter_all_chars (p keep : ascii -> bool) (s : string) :
  all_chars p s = true ->
  all_chars (fun c => p c && keep c) (filter_chars keep s) = true.
Proof.
  induction s as [|c t IH]; intros Hs; [reflexivity|].
  cbn [all_chars filter_chars] in *. apply andb_prop in Hs as [Hc Ht].
  destruct (keep c) eqn:Hk; [|now apply IH].
  cbn [all_chars]. now rewrite Hc, Hk, IH.
Qed.

Lemma filter_keep (keep : ascii -> bool) (c : ascii) (s : string) :
  keep c = true -> filter_chars keep (String c s) = String c (filter_chars keep s).
Proof. intros H. cbn [filter_chars]. now rewrite H. Qed.

Lemma all_chars_impl (p q : ascii -> bool) (s : string) :
  (forall c, p c = true -> q c = true) -> all_chars p s = true -> all_chars q s = true.
Proof.
  intros Hpq. induction s as [|c t IH]; intros Hs; [reflexivity|].
  cbn [all_chars] in *. apply andb_prop in Hs as [Hc Ht]. now rewrite Hpq, IH.
Qed.

(** The identifier pattern accepts a capital followed by letters and
    digits. *)
Lemma star_greedy_to_end (p : ascii -> bool) (i : nat) (pv : option ascii)
    (cs : list (nat * string)) (s : string) :
  all_chars p s = true ->
  exists st,
    star_greedy p (fun st' => if is_empty (rest st') then Some st' else None)
      i pv cs s = Some st.
Proof.
  revert i pv. induction s as [|c t IH]; intros i pv Hs.
  - eexists. reflexivity.
  - cbn [all_chars] in Hs. apply andb_prop in Hs as [Hc Ht].
    cbn [star_greedy]. rewrite Hc.
    destruct (IH (S i) (Some c) Ht) as (st & ->). now exists st.
Qed.

Lemma identifier_accepted (c : ascii) (t : string) :
  is_upper c = true -> all_chars is_alnum t = true ->
  test identifierRegex (String c t) = true.
Proof.
  intros Hc Ht. unfold test, exec. cbn [search].
  unfold match_here, identifierRegex. cbn [seqs mt pos prev rest caps Nat.eqb].
  rewrite Hc.
  destruct (star_greedy_to_end is_alnum 1 (Some c) [] t Ht) as (st & ->).
  reflexivity.
Qed.

(** C7, amended.  For a name that starts with a letter and is made of
    letters, digits, hyphens, underscores and white space, the
    Pascal-case name is a capital followed by letters and digits, and the
    camel-case name is the Pascal-case name with its first character
    lowercased. *)
Theorem C7_names_from_letters (c : ascii) (t : string)
    (Hfirst : is_letter c = true)
    (Hrest : all_chars name_char t = true) :
  test identifierRegex (toPascalCase (String c t)) = true /\
  camelCase (String c t) = lowerFirst (toPascalCase (String c t)).
Proof.
  destruct (letter_facts c Hfirst) as (Hw & Hup & Hus & Hud & Hls & Hld & Hlow).
  assert (Hs : starts_word 0 None c = true).
  { unfold starts_word. now rewrite Hw. }
  set (marked := mark upperAt 1 (Some c) t).
  assert (HP : mark upperAt 0 None (String c t) = String (toUpperChar c) marked).
  { cbn [mark]. now rewrite Hs. }
  assert (HC : mark camelAt 0 None (String c t) = String (toLowerChar c) marked).
  { cbn [mark]. rewrite Hs, mark_after_first. reflexivity. }
  rewrite toPascalCase_eq, camelCase_eq, HP, HC.
  rewrite !filter_keep by (unfold outside; now rewrite ?Hus, ?Hud, ?Hls, ?Hld).
  cbn [lowerFirst].
  split; [|now rewrite Hlow].
  apply identifier_accepted; [exact Hup|].
  assert (Hm : all_chars name_char marked = true) by now apply mark_name_chars.
  apply (filter_all_chars _ (outside is_space)) in Hm.
  apply (filter_all_chars _ (outside is_dash)) in Hm.
  revert Hm. apply all_chars_impl. intros x Hx.
  apply andb_prop in Hx as [Hx Hd]. apply andb_prop in Hx as [Hx Hsp].
  now apply name_char_kept.
Qed.

Lemma C7_names_from_letters_witness :
  test identifierRegex (toPascalCase "my cool-collection") = true /\
  camelCase "my cool-collection" = lowerFirst (toPascalCase "my cool-collection") /\
  toPascalCase "my cool-collection" = "MyCoolCollection".
Proof.
  destruct (C7_names_from_letters "m" "y cool-collection") as [Hmatch Hcamel];
    try (vm_compute; reflexivity).
  split; [exact Hmatch|]. split; [exact Hcamel|]. vm_compute. reflexivity.
Defined.

(** ** Extending the plugins list: proofs *)

(** The character before the position reached by passing over [s]. *)
Fixpoint prev_after (pv : option ascii) (s : string) : option ascii :=
  match s with
  | EmptyString => pv
  | String c t => prev_after (Some c) t
  end.

Lemma mt_Seq (a b : regex) (st : mstate) (k : cont) :
  mt (Seq a b) st k = mt a st (fun st' => mt b st' k).
Proof. reflexivity. Qed.

Lemma eat_spec (s : string) (st : mstate) :
  eat s st =
    if startsWith s (rest st)
    then Some (MState (pos st + String.length s) (prev_after (prev st) s)
                 (drop (String.length s) (rest st)) (caps st))
    else None.
Proof.
  revert st. induction s as [|a s IH]; intros [i pv r cs].
  - cbn. now rewrite Nat.add_0_r.
  - cbn [eat rest startsWith]. destruct r as [|b t]; [reflexivity|].
    destruct (Ascii.eqb a b) eqn:E; [|reflexivity].
    apply Ascii.eqb_eq in E as <-. rewrite IH.
    cbn [pos prev rest caps andb String.length drop prev_after].
    now replace (S i + String.length s) with (i + S (String.length s)) by lia.
Qed.

Lemma mt_Lit (s : string) (st : mstate) (k : cont) :
  mt (Lit s) st k =
    if startsWith s (rest st)
    then k (MState (pos st + String.length s) (prev_after (prev st) s)
              (drop (String.length s) (rest st)) (caps st))
    else None.
Proof. cbn [mt]. rewrite eat_spec. now destruct (startsWith s (rest st)). Qed.

(** A greedy run of white space before something that cannot start with
    white space takes the whole run. *)
Definition refuses_space (K : cont) : Prop :=
  forall i pv c t cs, is_space c = true -> K (MState i pv (String c t) cs) = None.

Lemma star_greedy_commit (K : cont) (s : string) (i : nat) (pv : option ascii)
    (cs : list (nat * string)) :
  refuses_space K ->
  star_greedy is_space K i pv cs s
    = K (MState (i + run_length is_space s)
           (prev_after pv (take (run_length is_space s) s)) (trimStart s) cs).
Proof.
  intros HK. revert i pv. induction s as [|c t IH]; intros i pv.
  - cbn. now rewrite Nat.add_0_r.
  - cbn [star_greedy run_length trimStart]. destruct (is_space c) eqn:Hc.
    + rewrite IH. cbn [take prev_after].
      replace (S i + run_length is_space t) with (i + S (run_length is_space t)) by lia.
      destruct (K _) eqn:E; [reflexivity|]. now apply HK.
    + cbn [take prev_after]. now rewrite Nat.add_0_r.
Qed.

Lemma mt_Star_space (st : mstate) (K : cont) :
  refuses_space K ->
  mt (Star is_space) st K
    = K (MState (pos st + run_length is_space (rest st))
           (prev_after (prev st) (take (run_length is_space (rest st)) (rest st)))
           (trimStart (rest st)) (caps st)).
Proof. intros HK. cbn [mt]. now apply star_greedy_commit. Qed.

(** A literal that does not start with white space refuses it. *)
Lemma refuses_space_Lit (x : ascii) (s : string) (k : cont) :
  is_space x = false -> refuses_space (fun st => mt (Lit (String x s)) st k).
Proof.
  intros Hx i pv c t cs Hc. cbv beta. rewrite mt_Lit. cbn [rest startsWith].
  destruct (Ascii.eqb x c) eqn:E; [|reflexivity].
  apply Ascii.eqb_eq in E as ->. congruence.
Qed.

Lemma refuses_space_Seq_Lit (x : ascii) (s : string) (r : regex) (k : cont) :
  is_space x = false -> refuses_space (fun st => mt (Seq (Lit (String x s)) r) st k).
Proof.
  intros Hx i pv c t cs Hc. cbv beta. rewrite mt_Seq.
  now apply (refuses_space_Lit x s _ Hx).
Qed.

Lemma refuses_space_Eol (k : cont) : refuses_space (fun st => mt Eol st k).
Proof. intros i pv c t cs Hc. reflexivity. Qed.

(** A lazy run of any characters before something that must start with
    the character [x] stops at the first [x], if what follows accepts. *)
Definition wants (x : ascii) (K : cont) : Prop :=
  forall i pv c t cs, Ascii.eqb c x = false -> K (MState i pv (String c t) cs) = None.

Definition is_not (x : ascii) (c : ascii) : bool := negb (Ascii.eqb c x).

Lemma star_lazy_first (x : ascii) (K : cont) (body post : string) (i : nat)
    (pv : option ascii) (cs : list (nat * string)) (r : mstate) :
  wants x K -> all_chars (is_not x) body = true ->
  (forall pv', K (MState (i + String.length body) pv' (String x post) cs) = Some r) ->
  star_lazy is_any K i pv cs (body +:+ String x post) = Some r.
Proof.
  intros HK. revert i pv. induction body as [|c t IH]; intros i pv Hb Hr.
  - rewrite append_nil. cbn [star_lazy String.length] in *.
    specialize (Hr pv). rewrite Nat.add_0_r in Hr. now rewrite Hr.
  - cbn [all_chars] in Hb. apply andb_prop in Hb as [Hc Ht].
    rewrite append_cons. cbn [star_lazy is_any String.length].
    rewrite HK by (unfold is_not in Hc; now apply negb_true_iff in Hc).
    apply IH; [exact Ht|]. intros pv'. rewrite <- (Hr pv'). do 2 f_equal.
    cbn [String.length]. lia.
Qed.

Lemma take_app (a b : string) : take (String.length a) (a +:+ b) = a.
Proof.
  induction a as [|x a IH]; [now destruct b|].
  rewrite append_cons. cbn [String.length take]. now rewrite IH.
Qed.

(** The plugins pattern, step by step: the head [plugins\s*:\s*\[], then
    the shortest text up to a closing bracket. *)
Definition plugins_tail (K : cont) (j : nat) (pv : option ascii) (s3 : string)
    : option mstate :=
  star_lazy is_any
    (fun st' =>
       mt (Lit "]")
          (MState (pos st') (prev st') (rest st')
             ((1, take (pos st' - j) s3) :: caps st')) K)
    j pv [] s3.

Lemma pluginsRegex_steps (s : string) (i : nat) (pv : option ascii) (K : cont) :
  exists pv',
    mt pluginsRegex (MState i pv s []) K =
      if startsWith "plugins" s then
        let i1 := i + 7 + run_length is_space (drop 7 s) in
        let s1 := trimStart (drop 7 s) in
        if startsWith ":" s1 then
          let i2 := i1 + 1 + run_length is_space (drop 1 s1) in
          let s2 := trimStart (drop 1 s1) in
          if startsWith "[" s2 then plugins_tail K (i2 + 1) pv' (drop 1 s2)
          else None
        else None
      else None.
Proof.
  eexists. unfold pluginsRegex, plugins_tail. cbn [seqs].
  rewrite mt_Seq, mt_Lit. cbn [rest pos prev caps String.length].
  destruct (startsWith "plugins" s); [|reflexivity].
  rewrite mt_Seq, mt_Star_space by (now apply refuses_space_Seq_Lit).
  cbn [rest pos prev caps]. rewrite mt_Seq, mt_Lit.
  cbn [rest pos prev caps String.length].
  destruct (startsWith ":" (trimStart (drop 7 s))); [|reflexivity].
  rewrite mt_Seq, mt_Star_space by (now apply refuses_space_Seq_Lit).
  cbn [rest pos prev caps]. rewrite mt_Seq, mt_Lit.
  cbn [rest pos prev caps String.length].
  match goal with |- context [startsWith "[" ?t] => destruct (startsWith "[" t) end;
    [|reflexivity].
  cbv zeta. rewrite mt_Seq. cbn [mt pos prev rest caps]. reflexivity.
Qed.

Lemma wants_close_bracket (j : nat) (s3 : string) :
  wants "]" (fun st' =>
    mt (Lit "]")
       (MState (pos st') (prev st') (rest st')
          ((1, take (pos st' - j) s3) :: caps st')) Some).
Proof.
  intros i pv c t cs Hc. cbv beta. rewrite mt_Lit. cbn [rest startsWith].
  rewrite Ascii.eqb_sym, Hc. reflexivity.
Qed.

(** Evaluation of the character tests on the characters of a literal. *)
Ltac ground_chars :=
  repeat match goal with
    | |- context [is_space (Ascii ?a ?b ?c ?d ?e ?f ?g ?h)] =>
        let v := eval vm_compute in (is_space (Ascii a b c d e f g h)) in
        change (is_space (Ascii a b c d e f g h)) with v
    end.

Lemma pluginsRegex_here (body post : string) (i : nat) (pv : option ascii) :
  all_chars (is_not "]") body = true ->
  exists st,
    match_here pluginsRegex i pv ("plugins: [" +:+ body +:+ "]" +:+ post) = Some st /\
    pos st = i + 11 + String.length body /\
    rest st = post /\ caps st = [(1, body)].
Proof.
  intros Hb. unfold match_here.
  destruct (pluginsRegex_steps ("plugins: [" +:+ body +:+ "]" +:+ post) i pv Some)
    as (pv' & ->).
  rewrite !append_cons, append_nil.
  cbn [startsWith drop trimStart run_length Ascii.eqb Bool.eqb andb].
  ground_chars. cbv iota zeta.
  cbn [startsWith drop trimStart run_length Ascii.eqb Bool.eqb andb].
  ground_chars. cbv iota zeta.
  cbn [startsWith drop trimStart run_length Ascii.eqb Bool.eqb andb].
  unfold plugins_tail.
  eexists. split.
  - apply (star_lazy_first "]"); [apply wants_close_bracket | exact Hb |].
    intros pv''. cbv beta. rewrite mt_Lit. cbn [rest startsWith pos prev caps].
    rewrite Ascii.eqb_refl. cbn [andb String.length drop prev_after].
    reflexivity.
  - cbn [pos rest caps]. split; [lia|]. split; [reflexivity|].
    replace (i + 7 + 0 + 1 + 1 + 1 + String.length body - (i + 7 + 0 + 1 + 1 + 1))
      with (String.length body) by lia.
    now rewrite take_app.
Qed.

(** Nothing before the list can be taken for its head when it holds no
    opening bracket. *)
Definition plugins_head (s : string) : bool :=
  startsWith "plugins" s
  && startsWith ":" (trimStart (drop 7 s))
  && startsWith "[" (trimStart (drop 1 (trimStart (drop 7 s)))).

Lemma pluginsRegex_needs_head (s : string) (i : nat) (pv : option ascii) :
  plugins_head s = false -> match_here pluginsRegex i pv s = None.
Proof.
  unfold plugins_head, match_here. intros H.
  destruct (pluginsRegex_steps s i pv Some) as (pv' & ->). cbv zeta.
  destruct (startsWith "plugins" s); [|reflexivity].
  destruct (startsWith ":" (trimStart (drop 7 s))); [|reflexivity].
  cbn [andb] in H. now rewrite H.
Qed.

Lemma all_chars_drop (p : ascii -> bool) (s : string) (k : nat) :
  all_chars p s = true -> all_chars p (drop k s) = true.
Proof.
  revert k. induction s as [|c t IH]; intros [|k] Hs; try exact Hs.
  cbn [all_chars drop] in *. apply andb_prop in Hs as [_ Ht]. now apply IH.
Qed.

Section BeforeTheList.
Variable R : string.
Let L : string := "plugins: [" +:+ R.

Ltac open_L := unfold L; rewrite !append_cons, ?append_nil.

Lemma no_bracket_after (u : string) :
  all_chars (is_not "[") u = true ->
  startsWith "[" (trimStart (u +:+ L)) = false.
Proof.
  induction u as [|c t IH]; intros Hu.
  - rewrite append_nil. open_L. cbn [trimStart]. ground_chars. reflexivity.
  - cbn [all_chars] in Hu. apply andb_prop in Hu as [Hc Ht].
    rewrite append_cons. cbn [trimStart]. destruct (is_space c); [now apply IH|].
    cbn [startsWith]. unfold is_not in Hc. apply negb_true_iff in Hc.
    now rewrite Ascii.eqb_sym, Hc.
Qed.

Lemma no_colon_bracket_after (u : string) :
  all_chars (is_not "[") u = true ->
  startsWith ":" (trimStart (u +:+ L))
  && startsWith "[" (trimStart (drop 1 (trimStart (u +:+ L)))) = false.
Proof.
  induction u as [|c t IH]; intros Hu.
  - rewrite append_nil. open_L. cbn [trimStart]. ground_chars. reflexivity.
  - cbn [all_chars] in Hu. apply andb_prop in Hu as [Hc Ht].
    rewrite append_cons. cbn [trimStart]. destruct (is_space c); [now apply IH|].
    cbn [startsWith drop]. destruct (Ascii.eqb ":" c); [|reflexivity].
    cbn [andb]. now apply no_bracket_after.
Qed.

Lemma literal_within (q : string) :
  q <> "" -> startsWith "plugins" (q +:+ L) = true ->
  drop 7 (q +:+ L) = drop 7 q +:+ L.
Proof.
  intros Hq E.
  destruct q as [|x1 [|x2 [|x3 [|x4 [|x5 [|x6 [|x7 u]]]]]]]; [congruence|..];
    try reflexivity;
    exfalso; revert E; open_L; cbn [startsWith Ascii.eqb Bool.eqb andb];
    rewrite ?andb_false_r; discriminate.
Qed.

Lemma no_head_before (q : string) :
  q <> "" -> all_chars (is_not "[") q = true -> plugins_head (q +:+ L) = false.
Proof.
  intros Hq Hb. unfold plugins_head.
  destruct (startsWith "plugins" (q +:+ L)) eqn:E; [|reflexivity].
  cbn [andb]. rewrite (literal_within q Hq E).
  apply no_colon_bracket_after. now apply all_chars_drop.
Qed.
End BeforeTheList.

Lemma drop_nonempty (s : string) (k : nat) : k < String.length s -> drop k s <> "".
Proof.
  revert k. induction s as [|c t IH]; intros k Hk; cbn [String.length] in Hk; [lia|].
  destruct k as [|k]; [discriminate|]. cbn [drop]. apply IH. lia.
Qed.

(** A search passes over a prefix at no position of which the pattern
    matches. *)
Lemma search_skip (r : regex) (P Q : string) (i : nat) (pv : option ascii)
    (bef : string) :
  (forall k i' pv', k < String.length P ->
     match_here r i' pv' (drop k P +:+ Q) = None) ->
  search r i pv bef (P +:+ Q)
    = search r (i + String.length P) (prev_after pv P) (String.rev_app P bef) Q.
Proof.
  revert i pv bef. induction P as [|c t IH]; intros i pv bef Hmiss.
  - rewrite append_nil. cbn. now rewrite Nat.add_0_r.
  - rewrite append_cons. cbn [search].
    pose proof (Hmiss 0 i pv) as H0. cbn [drop String.length] in H0.
    rewrite append_cons in H0. rewrite H0 by lia.
    rewrite IH.
    + cbn [String.length prev_after String.rev_app]. f_equal. lia.
    + intros k i' pv' Hk. apply (Hmiss (S k)). cbn [String.length]. lia.
Qed.

Lemma rev_app_rev_app (a b c : string) :
  String.rev_app (String.rev_app a b) c = String.rev_app b (a +:+ c).
Proof.
  revert b c. induction a as [|x a IH]; intros b c; [reflexivity|].
  cbn [String.rev_app]. rewrite IH. cbn [String.rev_app]. now rewrite append_cons.
Qed.

Lemma rev_rev_app (P : string) : String.rev (String.rev_app P "") = P.
Proof.
  unfold String.rev. rewrite rev_app_rev_app. cbn [String.rev_app].
  apply append_empty_r.
Qed.

Lemma search_hit (r : regex) (s : string) (i : nat) (pv : option ascii)
    (bef : string) (st' : mstate) :
  match_here r i pv s = Some st' ->
  search r i pv bef s
    = Some (RMatch i (String.rev bef) (take (pos st' - i) s) (rest st') (caps st')).
Proof. intros H. destruct s; cbn [search]; now rewrite H. Qed.

(** Where the plugins list is found: after a prefix without opening
    bracket, a list whose text holds no closing bracket. *)
Lemma exec_pluginsRegex (P body post : string) :
  all_chars (is_not "[") P = true ->
  all_chars (is_not "]") body = true ->
  exec pluginsRegex (P +:+ "plugins: [" +:+ body +:+ "]" +:+ post)
    = Some (RMatch (String.length P) P ("plugins: [" +:+ body +:+ "]") post
              [(1, body)]).
Proof.
  intros HP Hb. unfold exec. rewrite search_skip.
  - destruct (pluginsRegex_here body post (0 + String.length P)
                (prev_after None P) Hb) as (st & Hst & Hpos & Hrest & Hcaps).
    rewrite (search_hit _ _ _ _ _ _ Hst), Hrest, Hcaps, rev_rev_app.
    cbn [Nat.add]. do 2 f_equal.
    replace (pos st - String.length P) with
      (String.length ("plugins: [" +:+ body +:+ "]")).
    + rewrite <- (take_app ("plugins: [" +:+ body +:+ "]") post) at 2.
      now rewrite !append_assoc.
    + rewrite Hpos, !length_append. cbn [String.length]. lia.
  - intros k i' pv' Hk. apply pluginsRegex_needs_head.
    apply no_head_before; [now apply drop_nonempty | now apply all_chars_drop].
Qed.

(** A replacement text without dollar sign stands for itself. *)
Lemma expand_plain (ng : nat) (m : rmatch) (t : string) :
  all_chars (is_not "$") t = true -> expand ng m t = t.
Proof.
  induction t as [|c t IH]; intros Ht; [reflexivity|].
  cbn [all_chars] in Ht. apply andb_prop in Ht as [Hc Ht].
  cbn [expand]. unfold is_not in Hc. rewrite Hc. now rewrite IH.
Qed.

(** Patterns of the form [x\s*y] with [y] no white space: a comma before a
    comma or a closing bracket, an opening bracket before a comma. *)
Definition pair_regex (x y : ascii) : regex :=
  seqs [Lit (String x ""); Star is_space; Lit (String y "")].

Lemma pair_here (x y : ascii) (s : string) (i : nat) (pv : option ascii) :
  is_space y = false ->
  startsWith (String x "") s && startsWith (String y "") (trimStart (drop 1 s)) = false ->
  match_here (pair_regex x y) i pv s = None.
Proof.
  intros Hy H. unfold match_here, pair_regex. cbn [seqs].
  rewrite mt_Seq, mt_Lit. cbn [rest pos prev caps String.length].
  destruct (startsWith (String x "") s); [|reflexivity].
  rewrite mt_Seq, mt_Star_space by (now apply refuses_space_Lit).
  rewrite mt_Lit. cbn [rest pos prev caps]. cbn [andb] in H. now rewrite H.
Qed.

(** Whether the next character after white space exists and is not [y]. *)
Definition solid_not (y : ascii) (t : string) : bool :=
  match trimStart t with
  | String d _ => negb (Ascii.eqb d y)
  | EmptyString => false
  end.

(** No [x\s*y] starts in [u], whatever follows [u]. *)
Fixpoint pair_free (x y : ascii) (u : string) : bool :=
  match u with
  | EmptyString => true
  | String c t => (negb (Ascii.eqb c x) || solid_not y t) && pair_free x y t
  end.

Lemma trimStart_app (t v : string) :
  trimStart t <> "" -> trimStart (t +:+ v) = trimStart t +:+ v.
Proof.
  induction t as [|c t IH]; intros H; [now cbn in H|].
  rewrite append_cons. cbn [trimStart] in *.
  destruct (is_space c); [now apply IH | now rewrite append_cons].
Qed.

Lemma pair_free_here (x y : ascii) (u v : string) (k i : nat) (pv : option ascii) :
  is_space y = false -> pair_free x y u = true -> k < String.length u ->
  match_here (pair_regex x y) i pv (drop k u +:+ v) = None.
Proof.
  intros Hy. revert k. induction u as [|c t IH]; intros k Hu Hk;
    cbn [String.length] in Hk; [lia|].
  cbn [pair_free] in Hu. apply andb_prop in Hu as [Hc Ht].
  destruct k as [|k]; [|cbn [drop]; apply IH; [exact Ht | lia]].
  cbn [drop]. rewrite append_cons. apply pair_here; [exact Hy|].
  cbn [startsWith drop]. rewrite Ascii.eqb_sym.
  destruct (Ascii.eqb c x); [|reflexivity]. cbn [negb orb andb] in *.
  unfold solid_not in Hc. destruct (trimStart t) as [|d t'] eqn:E; [discriminate|].
  rewrite trimStart_app, E by (now rewrite E). rewrite append_cons.
  cbn [startsWith]. rewrite Ascii.eqb_sym. apply negb_true_iff in Hc. now rewrite Hc.
Qed.

Lemma pair_end (x y : ascii) (i : nat) (pv : option ascii) :
  match_here (pair_regex x y) i pv "" = None.
Proof. reflexivity. Qed.

(** A text in which the pattern matches nowhere is left alone. *)
Definition quiet (r : regex) (s : string) : Prop :=
  forall k i pv, match_here r i pv (drop k s) = None.

Lemma drop_app_le (u v : string) (k : nat) :
  k <= String.length u -> drop k (u +:+ v) = drop k u +:+ v.
Proof.
  revert k. induction u as [|c t IH]; intros k Hk; cbn [String.length] in Hk.
  - now replace k with 0 by lia.
  - destruct k as [|k]; [reflexivity|]. rewrite append_cons. cbn [drop].
    apply IH. lia.
Qed.

Lemma drop_app_ge (u v : string) (k : nat) :
  String.length u <= k -> drop k (u +:+ v) = drop (k - String.length u) v.
Proof.
  revert k. induction u as [|c t IH]; intros k Hk; cbn [String.length] in *.
  - now rewrite Nat.sub_0_r.
  - destruct k as [|k]; [lia|]. rewrite append_cons. cbn [drop Nat.sub].
    apply IH. lia.
Qed.

Lemma quiet_app (x y : ascii) (u v : string) :
  is_space y = false -> pair_free x y u = true ->
  quiet (pair_regex x y) v -> quiet (pair_regex x y) (u +:+ v).
Proof.
  intros Hy Hu Hv k i pv.
  destruct (Nat.lt_ge_cases k (String.length u)) as [Hk|Hk].
  - rewrite drop_app_le by lia. now apply pair_free_here.
  - rewrite drop_app_ge by lia. apply Hv.
Qed.

Lemma quiet_empty (x y : ascii) : quiet (pair_regex x y) "".
Proof. intros [|k] i pv; reflexivity. Qed.

Lemma quiet_search (r : regex) (s : string) (i : nat) (pv : option ascii)
    (bef : string) :
  quiet r s -> search r i pv bef s = None.
Proof.
  revert i pv bef. induction s as [|c t IH]; intros i pv bef Hq.
  - cbn [search]. pose proof (Hq 0 i pv) as H0. cbn [drop] in H0. now rewrite H0.
  - cbn [search]. pose proof (Hq 0 i pv) as H0. cbn [drop] in H0. rewrite H0.
    apply IH. intros k i' pv'. apply (Hq (S k)).
Qed.

Lemma quiet_replace_first (r : regex) (f : rmatch -> string) (s : string) :
  quiet r s -> replace_first_with r f s = s.
Proof. intros Hq. unfold replace_first_with, exec. now rewrite quiet_search. Qed.

Lemma quiet_replace_all (r : regex) (f : rmatch -> string) (s : string) :
  quiet r s -> replace_all_with r f s = s.
Proof.
  unfold replace_all_with. generalize (@None ascii) "". generalize 0 at 2.
  induction s as [|c t IH]; intros i pv bef Hq.
  - apply replace_all_go_end. apply (Hq 0).
  - rewrite replace_all_go_miss by apply (Hq 0 i pv).
    rewrite IH; [reflexivity|]. intros k i' pv'. apply (Hq (S k)).
Qed.

Lemma pair_free_quiet (x y : ascii) (u : string) :
  is_space y = false -> pair_free x y u = true -> quiet (pair_regex x y) u.
Proof.
  intros Hy Hu. rewrite <- (append_empty_r u).
  apply quiet_app; [exact Hy | exact Hu | apply quiet_empty].
Qed.

Lemma pair_free_plain (x y : ascii) (u : string) :
  all_chars (is_not x) u = true -> pair_free x y u = true.
Proof.
  induction u as [|c t IH]; intros Hu; [reflexivity|].
  cbn [all_chars pair_free] in *. apply andb_prop in Hu as [Hc Ht].
  unfold is_not in Hc. now rewrite Hc, IH.
Qed.

Lemma solid_not_app (y : ascii) (t v : string) :
  solid_not y t = true -> solid_not y (t +:+ v) = true.
Proof.
  unfold solid_not. intros H. destruct (trimStart t) as [|d t'] eqn:E; [discriminate|].
  rewrite trimStart_app, E by (now rewrite E). now rewrite append_cons.
Qed.

Lemma pair_free_app (x y : ascii) (u v : string) :
  pair_free x y u = true -> pair_free x y v = true -> pair_free x y (u +:+ v) = true.
Proof.
  intros Hu Hv. induction u as [|c t IH]; [exact Hv|].
  rewrite append_cons. cbn [pair_free] in *. apply andb_prop in Hu as [Hc Ht].
  rewrite IH by exact Ht. rewrite andb_true_r.
  destruct (negb (Ascii.eqb c x)); [reflexivity|]. cbn [orb] in *.
  now apply solid_not_app.
Qed.

(** The texts the statement is about: the characters around the list
    ([plain]: no comma, no bracket) and the entries of the list
    ([is_entry]: not empty, no comma, bracket or dollar sign, no white
    space at either end). *)
Definition plain (c : ascii) : bool :=
  is_not "," c && is_not "[" c && is_not "]" c.

Definition entry_char (c : ascii) : bool := plain c && is_not "$" c.

Definition is_entry (s : string) : bool :=
  all_chars entry_char s && negb (is_empty s)
  && String.eqb (trimStart s) s && String.eqb (trimEnd s) s.

Lemma is_entry_facts (s : string) :
  is_entry s = true ->
  all_chars entry_char s = true /\ s <> "" /\ trimStart s = s /\ trimEnd s = s.
Proof.
  unfold is_entry. intros H.
  apply andb_prop in H as [H H4]. apply andb_prop in H as [H H3].
  apply andb_prop in H as [H1 H2].
  apply String.eqb_eq in H3, H4. repeat split; try assumption.
  now destruct s.
Qed.

Lemma entry_char_facts (c : ascii) :
  entry_char c = true ->
  is_not "," c = true /\ is_not "[" c = true /\ is_not "]" c = true /\
  is_not "$" c = true.
Proof.
  unfold entry_char, plain. intros H.
  apply andb_prop in H as [H H4]. apply andb_prop in H as [H H3].
  apply andb_prop in H as [H1 H2]. now repeat split.
Qed.

Lemma entry_chars (x : ascii) (s : string) :
  (forall c, entry_char c = true -> is_not x c = true) ->
  all_chars entry_char s = true -> all_chars (is_not x) s = true.
Proof. intros H. now apply all_chars_impl. Qed.

Lemma plain_chars (x : ascii) (s : string) :
  (forall c, plain c = true -> is_not x c = true) ->
  all_chars plain s = true -> all_chars (is_not x) s = true.
Proof. intros H. now apply all_chars_impl. Qed.

Lemma plain_comma c : plain c = true -> is_not "," c = true.
Proof. unfold plain. intros H. now repeat (apply andb_prop in H as [H ?]). Qed.
Lemma plain_open c : plain c = true -> is_not "[" c = true.
Proof. unfold plain. intros H. apply andb_prop in H as [H ?]. now apply andb_prop in H as [? ?]. Qed.
Lemma plain_close c : plain c = true -> is_not "]" c = true.
Proof. unfold plain. intros H. now apply andb_prop in H as [? ?]. Qed.

Lemma length_trimStart (s : string) : String.length (trimStart s) <= String.length s.
Proof.
  induction s as [|c t IH]; [reflexivity|]. cbn [trimStart].
  destruct (is_space c); cbn [String.length]; lia.
Qed.

(** An entry starts with a character that is no white space. *)
Lemma entry_starts_solid (s : string) :
  s <> "" -> trimStart s = s ->
  exists d t, s = String d t /\ is_space d = false.
Proof.
  intros Hs Ht. destruct s as [|d t]; [congruence|]. exists d, t. split; [reflexivity|].
  cbn [trimStart] in Ht. destruct (is_space d); [|reflexivity].
  pose proof (length_trimStart t) as Hl. rewrite Ht in Hl. cbn [String.length] in Hl. lia.
Qed.

Lemma trimStart_blank (s : string) : all_chars is_space s = true -> trimStart s = "".
Proof.
  induction s as [|c t IH]; intros H; [reflexivity|].
  cbn [all_chars trimStart] in *. apply andb_prop in H as [Hc Ht]. now rewrite Hc, IH.
Qed.

Lemma trimEnd_blank (s : string) : all_chars is_space s = true -> trimEnd s = "".
Proof.
  induction s as [|c t IH]; intros H; [reflexivity|].
  cbn [all_chars trimEnd] in *. apply andb_prop in H as [Hc Ht].
  now rewrite IH, Hc.
Qed.

Lemma trimStart_empty_blank (s : string) : trimStart s = "" -> all_chars is_space s = true.
Proof.
  induction s as [|c t IH]; intros H; [reflexivity|].
  cbn [all_chars trimStart] in *. destruct (is_space c); [now apply IH | discriminate].
Qed.

(** An entry, ending in no white space, is not blank. *)
Lemma entry_not_blank (s : string) : s <> "" -> trimEnd s = s -> trimStart s <> "".
Proof.
  intros Hs He Hb. apply trimStart_empty_blank, trimEnd_blank in Hb. congruence.
Qed.

Lemma trimStart_chars (p : ascii -> bool) (s : string) :
  all_chars p s = true -> all_chars p (trimStart s) = true.
Proof.
  induction s as [|c t IH]; intros H; [reflexivity|].
  cbn [trimStart]. destruct (is_space c); [|exact H].
  cbn [all_chars] in H. apply andb_prop in H as [_ Ht]. now apply IH.
Qed.

Lemma solid_not_entry (y : ascii) (s : string) :
  s <> "" -> trimEnd s = s -> all_chars (is_not y) s = true -> solid_not y s = true.
Proof.
  intros Hs He Hy. unfold solid_not.
  pose proof (entry_not_blank s Hs He) as Hn.
  pose proof (trimStart_chars _ _ Hy) as Hc.
  destruct (trimStart s) as [|d t]; [congruence|].
  cbn [all_chars] in Hc. now apply andb_prop in Hc as [Hd _].
Qed.

Lemma trimStart_solid (a v : string) :
  a <> "" -> trimStart a = a -> trimStart (a +:+ v) = a +:+ v.
Proof.
  intros Ha Ht. destruct (entry_starts_solid a Ha Ht) as (d & t & -> & Hd).
  rewrite append_cons. cbn [trimStart]. now rewrite Hd.
Qed.

Lemma is_empty_app (u b : string) : b <> "" -> is_empty (u +:+ b) = false.
Proof. intros Hb. destruct u; [now destruct b | reflexivity]. Qed.

Lemma trimEnd_app (u b : string) :
  b <> "" -> trimEnd b = b -> trimEnd (u +:+ b) = u +:+ b.
Proof.
  intros Hb He. induction u as [|c t IH]; [exact He|].
  rewrite append_cons. cbn [trimEnd]. rewrite IH, is_empty_app by exact Hb.
  now rewrite andb_false_r.
Qed.

(** The pattern [,\s*$]: a comma with only white space after it. *)
Lemma trailingComma_here (s : string) (i : nat) (pv : option ascii) :
  startsWith "," s && is_empty (trimStart (drop 1 s)) = false ->
  match_here trailingComma i pv s = None.
Proof.
  intros H. unfold match_here, trailingComma. cbn [seqs].
  rewrite mt_Seq, mt_Lit. cbn [rest pos prev caps String.length].
  destruct (startsWith "," s); [|reflexivity].
  rewrite mt_Seq, mt_Star_space by apply refuses_space_Eol.
  cbn [mt rest pos prev caps]. cbn [andb] in H. now rewrite H.
Qed.

Fixpoint tail_free (u : string) : bool :=
  match u with
  | EmptyString => true
  | String c t =>
      (negb (Ascii.eqb c ",") || negb (is_empty (trimStart t))) && tail_free t
  end.

Lemma tail_free_quiet (u : string) : tail_free u = true -> quiet trailingComma u.
Proof.
  induction u as [|c t IH]; intros Hu k i pv.
  - destruct k; reflexivity.
  - cbn [tail_free] in Hu. apply andb_prop in Hu as [Hc Ht].
    destruct k as [|k]; [|cbn [drop]; now apply IH].
    cbn [drop]. apply trailingComma_here. cbn [startsWith drop].
    rewrite Ascii.eqb_sym. destruct (Ascii.eqb c ","); [|reflexivity].
    cbn [negb orb andb] in *. now apply negb_true_iff in Hc.
Qed.

Lemma tail_free_plain (u : string) : all_chars (is_not ",") u = true -> tail_free u = true.
Proof.
  induction u as [|c t IH]; intros Hu; [reflexivity|].
  cbn [all_chars tail_free] in *. apply andb_prop in Hu as [Hc Ht].
  unfold is_not in Hc. now rewrite Hc, IH.
Qed.

Lemma tail_free_app_plain (u v : string) :
  all_chars (is_not ",") u = true -> tail_free v = true -> tail_free (u +:+ v) = true.
Proof.
  intros Hu Hv. induction u as [|c t IH]; [exact Hv|].
  rewrite append_cons. cbn [all_chars tail_free] in *. apply andb_prop in Hu as [Hc Ht].
  unfold is_not in Hc. now rewrite Hc, IH.
Qed.

Lemma replace_all_quiet (r : regex) (t s : string) :
  quiet r s -> replace_all r t s = s.
Proof. apply quiet_replace_all. Qed.

Lemma replace_first_quiet (r : regex) (t s : string) :
  quiet r s -> replace_first r t s = s.
Proof. apply quiet_replace_first. Qed.

(** The list text, tidied: two entries stay as they are, a blank text
    becomes empty. *)
Lemma cleanPlugins_entries (a b : string) :
  is_entry a = true -> is_entry b = true ->
  cleanPlugins (a +:+ ", " +:+ b) = a +:+ ", " +:+ b.
Proof.
  intros Ha Hb.
  destruct (is_entry_facts a Ha) as (Hac & Han & Has & Hae).
  destruct (is_entry_facts b Hb) as (Hbc & Hbn & Hbs & Hbe).
  assert (Hacomma : all_chars (is_not ",") a = true).
  { eapply entry_chars; [|exact Hac]. intros c Hc. now apply entry_char_facts in Hc. }
  assert (Hbcomma : all_chars (is_not ",") b = true).
  { eapply entry_chars; [|exact Hbc]. intros c Hc. now apply entry_char_facts in Hc. }
  unfold cleanPlugins.
  rewrite replace_all_quiet.
  - rewrite replace_first_quiet.
    + unfold trim. rewrite trimStart_solid by assumption.
      rewrite <- append_assoc. apply trimEnd_app; assumption.
    + apply tail_free_quiet. apply tail_free_app_plain; [exact Hacomma|].
      rewrite !append_cons, append_nil. cbn [tail_free trimStart Ascii.eqb Bool.eqb].
      ground_chars. cbv iota. cbn [negb orb andb].
      rewrite (tail_free_plain b Hbcomma), andb_true_r.
      apply negb_true_iff. pose proof (entry_not_blank b Hbn Hbe) as Hn.
      now destruct (trimStart b).
  - apply (pair_free_quiet "," ","); [reflexivity|].
    apply pair_free_app; [now apply pair_free_plain|].
    rewrite !append_cons, append_nil.
    cbn [pair_free Ascii.eqb Bool.eqb negb orb andb].
    rewrite (pair_free_plain _ _ b Hbcomma), andb_true_r.
    unfold solid_not. cbn [trimStart]. ground_chars. cbv iota.
    now apply solid_not_entry.
Qed.

Lemma space_is_no_comma (c : ascii) : is_space c = true -> is_not "," c = true.
Proof. each_ascii c; vm_compute; intros H; try discriminate H; reflexivity. Qed.

Lemma cleanPlugins_blank (ws : string) :
  all_chars is_space ws = true -> cleanPlugins ws = "".
Proof.
  intros Hws.
  assert (Hc : all_chars (is_not ",") ws = true).
  { revert Hws. apply all_chars_impl, space_is_no_comma. }
  unfold cleanPlugins.
  rewrite replace_all_quiet
    by (apply (pair_free_quiet "," ","); [reflexivity | now apply pair_free_plain]).
  rewrite replace_first_quiet by now apply tail_free_quiet, tail_free_plain.
  unfold trim. now rewrite trimStart_blank.
Qed.

(** No invocation of the plugin is found in a blank text. *)
Lemma startsWith_blank (x : ascii) (p s : string) :
  is_space x = false -> all_chars is_space s = true -> startsWith (String x p) s = false.
Proof.
  intros Hx Hs. destruct s as [|c t]; [reflexivity|].
  cbn [all_chars startsWith] in *. apply andb_prop in Hs as [Hc _].
  destruct (Ascii.eqb x c) eqn:E; [|reflexivity].
  apply Ascii.eqb_eq in E as ->. congruence.
Qed.

Lemma hasPlugin_blank (ws : string) :
  all_chars is_space ws = true -> hasPlugin shadcn ws = false.
Proof.
  intros Hws. unfold hasPlugin, test, exec.
  rewrite quiet_search; [reflexivity|].
  intros k i pv. pose proof (all_chars_drop _ _ k Hws) as Hk.
  replace (getPluginImportName shadcn) with "pluginshadcn" by (vm_compute; reflexivity).
  unfold match_here, pluginRegex, RegExp.RegExp. cbn [seqs].
  rewrite mt_Seq. cbn [mt]. rewrite !eat_spec. cbn [rest].
  now rewrite !startsWith_blank.
Qed.

(** The list step on a located list. *)
Lemma addPlugin_list (P body post : string) :
  all_chars plain P = true ->
  all_chars (is_not "]") body = true ->
  hasPlugin shadcn body = false ->
  all_chars (is_not "$") (cleanPlugins body) = true ->
  addPlugin shadcn (P +:+ "plugins: [" +:+ body +:+ "]" +:+ post)
    = P +:+ newPluginsSection shadcn body +:+ post.
Proof.
  intros HP Hb Hhas Hd.
  assert (HPo : all_chars (is_not "[") P = true)
    by (revert HP; apply all_chars_impl, plain_open).
  unfold addPlugin. rewrite exec_pluginsRegex by assumption.
  change (cap_text 1 (RMatch (String.length P) P ("plugins: [" +:+ body +:+ "]") post
                        [(1, body)])) with body.
  rewrite Hhas. cbn [negb].
  unfold replace_first, replace_first_with. rewrite exec_pluginsRegex by assumption.
  cbn [m_before m_after]. rewrite expand_plain; [reflexivity|].
  unfold newPluginsSection. rewrite !all_chars_app, Hd.
  destruct (is_empty (cleanPlugins body)); vm_compute; reflexivity.
Qed.

(** The three patterns of the final pass. *)
Lemma cleanup_quiet (s : string) :
  quiet (pair_regex "," ",") s -> quiet (pair_regex "[" ",") s ->
  quiet (pair_regex "," "]") s -> cleanup s = s.
Proof.
  intros H1 H2 H3. unfold cleanup.
  change doubleComma with (pair_regex "," ",").
  change commaAfterOpen with (pair_regex "[" ",").
  change commaBeforeClose with (pair_regex "," "]").
  rewrite (replace_all_quiet _ _ _ H1), (replace_first_quiet _ _ _ H2).
  now apply replace_first_quiet.
Qed.

Lemma quiet_pieces (x y : ascii) (pieces : list string) :
  is_space y = false ->
  Forall (fun u => pair_free x y u = true) pieces ->
  quiet (pair_regex x y) (fold_right String.append "" pieces).
Proof.
  intros Hy Hall. induction Hall as [|u us Hu _ IH]; [apply quiet_empty|].
  cbn [fold_right]. now apply quiet_app.
Qed.

Lemma entry_solid_not (y : ascii) (s : string) :
  is_entry s = true -> (forall c, entry_char c = true -> is_not y c = true) ->
  solid_not y s = true.
Proof.
  intros Hs Hy. destruct (is_entry_facts s Hs) as (Hc & Hn & _ & He).
  apply solid_not_entry; try assumption. now apply (entry_chars y).
Qed.

Lemma entry_no_comma c : entry_char c = true -> is_not "," c = true.
Proof. intros H. now apply entry_char_facts in H. Qed.
Lemma entry_no_open c : entry_char c = true -> is_not "[" c = true.
Proof. intros H. now apply entry_char_facts in H. Qed.
Lemma entry_no_close c : entry_char c = true -> is_not "]" c = true.
Proof. intros H. now apply entry_char_facts in H. Qed.
Lemma entry_no_dollar c : entry_char c = true -> is_not "$" c = true.
Proof. intros H. now apply entry_char_facts in H. Qed.

(** The patched text with two entries, piece by piece, has nothing for
    the final pass to remove. *)
Lemma entries_result_quiet (x y : ascii) (P a b post : string) :
  (x, y) = ("," , ",")%char \/ (x, y) = ("[", ",")%char \/ (x, y) = (",", "]")%char ->
  all_chars plain P = true -> all_chars plain post = true ->
  is_entry a = true -> is_entry b = true ->
  quiet (pair_regex x y)
    (fold_right String.append ""
       [P; "plugins: [" +:+ a; ", " +:+ b; "," +:+ getPluginConfig shadcn;
        "]" +:+ post]).
Proof.
  intros Hxy HP Hpost Ha Hb.
  destruct (is_entry_facts a Ha) as (Hac & _). destruct (is_entry_facts b Hb) as (Hbc & _).
  assert (Hx : forall c, plain c = true -> is_not x c = true).
  { destruct Hxy as [E|[E|E]]; injection E as -> ->;
      auto using plain_comma, plain_open. }
  assert (Hxe : forall c, entry_char c = true -> is_not x c = true).
  { destruct Hxy as [E|[E|E]]; injection E as -> ->;
      auto using entry_no_comma, entry_no_open. }
  assert (Hye : forall c, entry_char c = true -> is_not y c = true).
  { destruct Hxy as [E|[E|E]]; injection E as -> ->;
      auto using entry_no_comma, entry_no_close. }
  assert (Hy : is_space y = false).
  { destruct Hxy as [E|[E|E]]; injection E as -> ->; reflexivity. }
  pose proof (entry_solid_not y a Ha Hye) as Hsa.
  pose proof (entry_solid_not y b Hb Hye) as Hsb.
  pose proof (pair_free_plain x y a (entry_chars x a Hxe Hac)) as Hfa.
  pose proof (pair_free_plain x y b (entry_chars x b Hxe Hbc)) as Hfb.
  pose proof (pair_free_plain x y P (plain_chars x P Hx HP)) as HfP.
  pose proof (pair_free_plain x y post (plain_chars x post Hx Hpost)) as Hfpost.
  assert (Hsb' : solid_not y (String " " b) = true).
  { unfold solid_not in *. cbn [trimStart]. ground_chars. exact Hsb. }
  apply quiet_pieces; [exact Hy|].
  clear Hx Hxe Hye Hy HP Hpost Ha Hb Hac Hbc.
  destruct Hxy as [E|[E|E]]; injection E as -> ->;
    repeat apply Forall_cons_2; try apply Forall_nil; try assumption;
    try (vm_compute; reflexivity);
    rewrite !append_cons, append_nil;
    cbn [pair_free Ascii.eqb Bool.eqb negb orb andb];
    rewrite ?Hfa, ?Hsa, ?Hfb, ?Hsb', ?Hfpost, ?orb_true_r; reflexivity.
Qed.

Lemma blank_result_quiet (x y : ascii) (P post : string) :
  (x, y) = ("," , ",")%char \/ (x, y) = ("[", ",")%char \/ (x, y) = (",", "]")%char ->
  all_chars plain P = true -> all_chars plain post = true ->
  quiet (pair_regex x y)
    (fold_right String.append ""
       [P; "plugins: [" +:+ getPluginConfig shadcn; "]" +:+ post]).
Proof.
  intros Hxy HP Hpost.
  assert (Hx : forall c, plain c = true -> is_not x c = true).
  { destruct Hxy as [E|[E|E]]; injection E as -> ->;
      auto using plain_comma, plain_open. }
  assert (Hy : is_space y = false).
  { destruct Hxy as [E|[E|E]]; injection E as -> ->; reflexivity. }
  pose proof (pair_free_plain x y P (plain_chars x P Hx HP)) as HfP.
  pose proof (pair_free_plain x y post (plain_chars x post Hx Hpost)) as Hfpost.
  apply quiet_pieces; [exact Hy|].
  clear Hx Hy HP Hpost.
  destruct Hxy as [E|[E|E]]; injection E as -> ->;
    repeat apply Forall_cons_2; try apply Forall_nil; try assumption;
    try (vm_compute; reflexivity);
    rewrite !append_cons, append_nil;
    cbn [pair_free Ascii.eqb Bool.eqb negb orb andb];
    rewrite ?Hfpost; reflexivity.
Qed.

(** The import line holds no comma and no bracket. *)
Lemma importLine_plain : all_chars plain (importLine shadcn) = true.
Proof. vm_compute. reflexivity. Qed.






(** ** Cloning a collection: proofs *)




(** Inserting a list of files: the first entry for a path wins. *)
Lemma insert_all_other (l : list (string * string)) (fs : gmap string string)
    (k : string) :
  (forall e, e ∈ l -> fst e <> k) -> insert_all l fs !! k = fs !! k.
Proof.
  induction l as [|e l IH]; intros H; [reflexivity|].
  cbn [insert_all foldr]. rewrite lookup_insert_ne by (apply H; left).
  apply IH. intros e' He'. apply H. now right.
Qed.



(** Paths below a directory. *)
Lemma under_app (dir rel : string) : under dir (dir +:+ "/" +:+ rel) = true.
Proof. unfold under. rewrite <- append_assoc. apply startsWith_app. Qed.

Lemma drop_length_app (a b : string) : drop (String.length a) (a +:+ b) = b.
Proof.
  induction a as [|x a IH]; [reflexivity|].
  rewrite append_cons. cbn [String.length drop]. exact IH.
Qed.

Lemma under_slash (dir p : string) :
  under dir p = true -> exists rel, p = dir +:+ "/" +:+ rel.
Proof.
  unfold under. intros H. exists (drop (String.length (dir +:+ "/")) p).
  rewrite <- append_assoc.
  revert p H. generalize (dir +:+ "/"). intros a.
  induction a as [|c t IH]; intros p H; [reflexivity|].
  destruct p as [|b p]; [discriminate|].
  cbn [startsWith] in H. apply andb_prop in H as [Hc Ht].
  apply Ascii.eqb_eq in Hc as <-. rewrite append_cons. cbn [String.length drop].
  f_equal. now apply IH.
Qed.



(** Every path the world knows: its files and its directories. *)
Definition all_paths (w : world) : list string :=
  map fst (map_to_list (files w)) ++ elements (dirs w).

Lemma in_all_paths (w : world) (p : string) :
  p ∈ all_paths w <-> is_Some (files w !! p) \/ p ∈ dirs w.
Proof.
  unfold all_paths. rewrite elem_of_app, elem_of_elements. split.
  - intros [H|H]; [left|now right].
    apply list_elem_of_fmap in H as ([k v] & -> & Hin).
    apply elem_of_map_to_list in Hin. cbn. eauto.
  - intros [[v H]|H]; [left|now right].
    apply list_elem_of_fmap. exists (p, v). split; [reflexivity|].
    now apply elem_of_map_to_list.
Qed.

Lemma existsb_elem (l : list string) (x : string) :
  existsb (String.eqb x) l = true <-> x ∈ l.
Proof.
  rewrite existsb_exists. split.
  - intros (y & Hin & E). apply String.eqb_eq in E as <-. now apply list_elem_of_In.
  - intros H. exists x. split; [now apply list_elem_of_In | apply String.eqb_refl].
Qed.

Lemma elem_of_dedup (l : list string) (x : string) : x ∈ dedup l <-> x ∈ l.
Proof.
  induction l as [|y l IH]; [reflexivity|]. cbn [dedup].
  destruct (existsb (String.eqb y) l) eqn:E.
  - rewrite IH, elem_of_cons. apply existsb_elem in E. split; [tauto|].
    intros [->|H]; assumption.
  - now rewrite !elem_of_cons, IH.
Qed.


Lemma elem_of_entries (w : world) (dir f : string) :
  f ∈ entries w dir <-> exists p, p ∈ all_paths w /\ entry_name dir p = Some f.
Proof. unfold entries. rewrite elem_of_dedup, list_elem_of_omap. reflexivity. Qed.

Lemma first_segment_app (rel : string) :
  first_segment rel = rel -> forall t, first_segment (rel +:+ "/" +:+ t) = rel.
Proof.
  induction rel as [|c r IH]; intros H t.
  - reflexivity.
  - rewrite append_cons. cbn [first_segment] in *.
    destruct (Ascii.eqb c "/"); [discriminate|]. f_equal. apply IH. congruence.
Qed.

Lemma entry_name_app (dir rel : string) :
  entry_name dir (dir +:+ "/" +:+ rel) = Some (first_segment rel).
Proof.
  unfold entry_name. rewrite under_app. f_equal. f_equal.
  replace (S (String.length dir)) with (String.length (dir +:+ "/"))
    by (rewrite length_append; cbn [String.length]; lia).
  rewrite <- append_assoc. apply drop_length_app.
Qed.



Lemma resolve_join (w : world) (t f : string) :
  t <> "" -> resolve w (join t f) = join (resolve w t) f.
Proof.
  intros Ht. unfold resolve, isAbsolute, join. destruct t as [|c t]; [congruence|].
  rewrite append_cons. cbn [startsWith].
  destruct (Ascii.eqb "/" c); cbn [andb]; [reflexivity|].
  now rewrite !append_assoc.
Qed.



(** ** Cloning a collection *)










(* ===================================================================== *)
(** * Part III: further properties of the code                            *)
(* ===================================================================== *)

(** ** Looking for a configuration file *)

(** Something, a file or a directory, exists at the path. *)
Definition exists_at (w : world) (p : string) : bool :=
  bool_decide (is_Some (files w !! resolve w p)) || is_dir w (resolve w p).

Lemma resolve_resolve (w : world) (p : string) :
  isAbsolute (cwd w) = true -> resolve w (resolve w p) = resolve w p.
Proof.
  intros Hcwd. apply resolve_absolute. unfold resolve.
  destruct (isAbsolute p) eqn:E; [exact E | now apply join_absolute].
Qed.

Lemma findConfigFile_run (possiblePaths : list string) (w : world) :
  isAbsolute (cwd w) = true ->
  findConfigFile possiblePaths w
    = (Ok (resolve w <$> List.find (exists_at w) possiblePaths), w).
Proof.
  intros Hcwd. induction possiblePaths as [|x l IH]; [reflexivity|].
  cbn [findConfigFile List.find]. rewrite bind_run. unfold get_world at 1.
  rewrite bind_run, pathExists_run.
  change (if isAbsolute x then x else join (cwd w) x) with (resolve w x).
  rewrite (resolve_resolve w x Hcwd). fold (exists_at w x).
  destruct (exists_at w x); [reflexivity | exact IH].
Qed.

Lemma find_none_forallb {A} (f : A -> bool) (l : list A) :
  forallb (fun x => negb (f x)) l = true -> List.find f l = None.
Proof.
  induction l as [|x l IH]; [reflexivity|]. cbn [forallb List.find].
  intros H. apply andb_prop in H as [Hx Hl]. apply negb_true_iff in Hx.
  rewrite Hx. now apply IH.
Qed.

(** X1.  [findConfigFile] neither fails nor changes anything.  It
    returns nothing exactly when no candidate exists; otherwise it
    returns, as a full path, the first candidate in the order given at
    which a file or directory exists: every candidate before the one
    picked does not exist. *)
Theorem findConfigFile_first_existing (possiblePaths : list string) (w : world)
    (Hcwd : isAbsolute (cwd w) = true) :
  exists picked,
    findConfigFile possiblePaths w = (Ok (resolve w <$> picked), w) /\
    (picked = None <-> Forall (fun p => exists_at w p = false) possiblePaths) /\
    (forall p, picked = Some p ->
       exists earlier later,
         possiblePaths = earlier ++ p :: later /\
         exists_at w p = true /\
         Forall (fun q => exists_at w q = false) earlier).
Proof.
  exists (List.find (exists_at w) possiblePaths).
  split; [now apply findConfigFile_run|].
  induction possiblePaths as [|x l [IHnone IHsome]]; cbn [List.find].
  - split; [split; [constructor | reflexivity] | discriminate].
  - destruct (exists_at w x) eqn:Hx.
    + split.
      * split; [discriminate | intros H; inversion H; congruence].
      * intros p [= <-]. exists [], l. split; [reflexivity|]. split; [exact Hx | constructor].
    + split.
      * rewrite IHnone. split; [now constructor | intros H; now inversion H].
      * intros p Hp. destruct (IHsome p Hp) as (earlier & later & -> & Hp' & Hearlier).
        exists (x :: earlier), later. split; [reflexivity|]. split; [exact Hp'|].
        now constructor.
Qed.

Lemma findConfigFile_first_existing_witness :
  findConfigFile payloadConfigPaths (project bareConfig [])
    = (Ok (Some "/app/src/payload.config.ts"), project bareConfig []).
Proof.
  destruct (findConfigFile_first_existing payloadConfigPaths (project bareConfig []))
    as (picked & Hrun & _); [reflexivity|].
  assert (E : fst (findConfigFile payloadConfigPaths (project bareConfig []))
              = Ok (Some "/app/src/payload.config.ts")) by (vm_compute; reflexivity).
  rewrite Hrun in E. cbn [fst] in E. now rewrite Hrun, E.
Defined.

(** ** Backing a file up *)



(** ** Patching the configuration file when there is none *)

(** X3.  When none of the four candidate paths of the Payload
    configuration exists, [updatePayloadConfigFile] throws
    [Could not find payload config file] and does nothing else: no
    backup, no write, no log line. *)
Theorem updatePayloadConfigFile_no_config (this : PluginInstaller) (w : world)
    (Hcwd : isAbsolute (cwd w) = true)
    (Hnone : forallb (fun p => negb (exists_at w p)) payloadConfigPaths = true) :
  updatePayloadConfigFile this w
    = (Err (Thrown "Could not find payload config file"), w).
Proof.
  unfold updatePayloadConfigFile.
  rewrite bind_run, (findConfigFile_run _ w Hcwd).
  now rewrite (find_none_forallb _ _ Hnone).
Qed.

Lemma updatePayloadConfigFile_no_config_witness :
  updatePayloadConfigFile shadcn emptyProject
    = (Err (Thrown "Could not find payload config file"), emptyProject).
Proof.
  apply (updatePayloadConfigFile_no_config shadcn emptyProject); vm_compute; reflexivity.
Defined.

(** ** The configuration handler: validation report, writes and backups *)

(** What validation reports for one registered file. *)
Definition report (w : world) (cf : ConfigFile) : ValidationResult :=
  match files w !! resolve w (path cf) with
  | Some text =>
      {| r_name := name (template cf); r_path := path cf;
         needsUpdate := negb (isValid (validate (template cf) text));
         r_exists := true;
         r_validation := Some (validate (template cf) text) |}
  | None =>
      {| r_name := name (template cf); r_path := path cf;
         needsUpdate := true; r_exists := false; r_validation := None |}
  end.

Lemma validateConfigs_run (configs : list ConfigFile) (w : world) :
  faults w = [] -> Forall (regular w) configs ->
  validateConfigs configs w = (Ok (map (report w) configs), w).
Proof.
  intros Hq Hreg. induction configs as [|cf configs IH]; [reflexivity|].
  inversion Hreg as [|? ? Hr Hregs]; subst.
  cbn [validateConfigs map]. rewrite bind_run, pathExists_run, Hr, orb_false_r.
  unfold report at 1.
  destruct (files w !! resolve w (path cf)) as [text|] eqn:E.
  - rewrite is_Some_true, bind_run, readFile_run, (fails_quiet _ Hq), E.
    rewrite (spend_quiet _ Hq), bind_run, (IH Hregs). reflexivity.
  - rewrite bool_decide_eq_false_2 by (now intros [? ?]).
    rewrite bind_run, (IH Hregs). reflexivity.
Qed.

(** X4.  [validateConfigs] changes nothing and answers with one report
    per registered file, in registration order.  A file that does not
    exist is reported with [exists: false] and [needsUpdate: true] and no
    validation; a file that exists is reported with its validation, and
    needs an update exactly when its content is not valid. *)
Theorem validateConfigs_reports (configs : list ConfigFile) (w : world)
    (Hquiet : faults w = [])
    (Hregular : Forall (regular w) configs) :
  exists results,
    validateConfigs configs w = (Ok results, w) /\
    map r_path results = map path configs /\
    map r_name results = map (fun cf => name (template cf)) configs /\
    forall i cf r,
      configs !! i = Some cf -> results !! i = Some r ->
      match files w !! resolve w (path cf) with
      | None => r_exists r = false /\ needsUpdate r = true /\ r_validation r = None
      | Some text =>
          r_exists r = true /\
          r_validation r = Some (validate (template cf) text) /\
          needsUpdate r = negb (isValid (validate (template cf) text))
      end.
Proof.
  exists (map (report w) configs).
  split; [now apply validateConfigs_run|].
  split; [|split].
  - rewrite map_map. apply map_ext. intros cf. unfold report.
    now destruct (files w !! resolve w (path cf)).
  - rewrite map_map. apply map_ext. intros cf. unfold report.
    now destruct (files w !! resolve w (path cf)).
  - intros i cf r Hi Hr. rewrite list_lookup_fmap, Hi in Hr. injection Hr as <-.
    unfold report. destruct (files w !! resolve w (path cf)); repeat split.
Qed.

Lemma validateConfigs_reports_witness :
  exists results,
    validateConfigs (createShadcnConfigHandler "postcss.config.js" "tailwind.config.ts"
                       "src/globals.css") emptyProject = (Ok results, emptyProject) /\
    map r_path results = ["postcss.config.js"; "tailwind.config.ts"; "src/globals.css"].
Proof.
  destruct (validateConfigs_reports
              (createShadcnConfigHandler "postcss.config.js" "tailwind.config.ts"
                 "src/globals.css") emptyProject)
    as (results & Hrun & Hpaths & _).
  - reflexivity.
  - repeat constructor; vm_compute; reflexivity.
  - exists results. split; [exact Hrun | exact Hpaths].
Defined.

(** The registered paths, as the files they denote. *)
Definition registered (w : world) (configs : list ConfigFile) : list string :=
  map (fun cf => resolve w (path cf)) configs.

Lemma validateSingleConfig_frame (cf : ConfigFile) (w w' : world)
    (r : result (option ConfigValidation)) :
  validateSingleConfig cf w = (r, w') ->
  files w' = files w /\ cwd w' = cwd w.
Proof.
  unfold validateSingleConfig. rewrite bind_run, pathExists_run.
  destruct (_ || _).
  - rewrite bind_run, readFile_run.
    destruct (fails w); [intros [= <- <-]; now split|].
    destruct (files w !! resolve w (path cf)); intros [= <- <-]; now split.
  - intros [= <- <-]. now split.
Qed.

Lemma updateConfigs_frame (configs : list ConfigFile) :
  forall (w w' : world) (r : result (list string)),
    updateConfigs configs w = (r, w') ->
    cwd w' = cwd w /\
    forall q, q ∉ registered w configs -> files w' !! q = files w !! q.
Proof.
  induction configs as [|cf configs IH]; intros w w' r.
  - intros [= <- <-]. now split.
  - cbn [updateConfigs]. rewrite bind_run.
    destruct (validateSingleConfig cf w) as [rv w1] eqn:Ev.
    destruct (validateSingleConfig_frame _ _ _ _ Ev) as [Hf1 Hc1].
    assert (Hreg1 : forall w2, cwd w2 = cwd w ->
                      registered w2 configs = registered w configs).
    { intros w2 Hc2. apply map_ext. intros. now apply resolve_cwd. }
    assert (Hrest : forall r2 w2,
              updateConfigs configs w1 = (r2, w2) ->
              cwd w2 = cwd w /\
              forall q, q ∉ registered w (cf :: configs) ->
                        files w2 !! q = files w !! q).
    { intros r2 w2 Hrun. destruct (IH _ _ _ Hrun) as [Hc2 Hf2].
      split; [congruence|]. intros q Hq. cbn [registered map] in Hq.
      rewrite not_elem_of_cons in Hq. destruct Hq as [_ Hq].
      rewrite Hf2 by now rewrite (Hreg1 w1 Hc1). now rewrite Hf1. }
    assert (Hwrite : forall r2 w2,
              (writeFile (path cf) (content (template cf)) ;;;
               updated <- updateConfigs configs ;; ret (path cf :: updated)) w1
                = (r2, w2) ->
              cwd w2 = cwd w /\
              forall q, q ∉ registered w (cf :: configs) ->
                        files w2 !! q = files w !! q).
    { intros r2 w2. rewrite bind_run, writeFile_run.
      destruct (fails w1).
      - intros [= <- <-]. cbn [spend cwd files]. split; [exact Hc1|].
        intros q _. now rewrite Hf1.
      - rewrite bind_run.
        destruct (updateConfigs configs (wrote _ _ w1)) as [r3 w3] eqn:Erun.
        destruct (IH _ _ _ Erun) as [Hc3 Hf3]. cbn [wrote cwd files] in Hc3, Hf3.
        intros Hres.
        assert (w2 = w3) as -> by (destruct r3; now inversion Hres).
        split; [congruence|]. intros q Hq. cbn [registered map] in Hq.
        rewrite not_elem_of_cons in Hq. destruct Hq as [Hne Hq].
        rewrite Hf3 by (rewrite (Hreg1 (wrote _ _ w1)); [exact Hq | exact Hc1]).
        rewrite lookup_insert_ne, Hf1; [reflexivity|].
        rewrite (resolve_cwd w w1) by exact Hc1. congruence. }
    destruct rv as [[v|]|e].
    + destruct (isValid v); [apply Hrest | apply Hwrite].
    + apply Hwrite.
    + intros [= <- <-]. split; [exact Hc1|]. intros q _. now rewrite Hf1.
Qed.

(** X5.  Whether it succeeds or fails, and whatever the file system
    does, [updateConfigs] changes no file other than the registered
    ones. *)
Theorem updateConfigs_touches_registered_only (configs : list ConfigFile)
    (w w' : world) (r : result (list string)) (q : string)
    (Hrun : updateConfigs configs w = (r, w'))
    (Hother : q ∉ registered w configs) :
  files w' !! q = files w !! q.
Proof. destruct (updateConfigs_frame _ _ _ _ Hrun) as [_ H]. now apply H. Qed.

Lemma updateConfigs_touches_registered_only_witness :
  exists r w',
    updateConfigs sharedPathHandler (project bareConfig [true]) = (r, w') /\
    files w' !! configPath = Some bareConfig.
Proof.
  destruct (updateConfigs sharedPathHandler (project bareConfig [true]))
    as [r w'] eqn:Hrun.
  exists r, w'. split; [reflexivity|].
  rewrite (updateConfigs_touches_registered_only sharedPathHandler
             (project bareConfig [true]) w' r configPath Hrun).
  - vm_compute. reflexivity.
  - vm_compute. intros H. repeat (apply elem_of_cons in H as [H|H]; [discriminate|]).
    now apply elem_of_nil in H.
Defined.






(** A registered path at which a file exists. *)
Definition present (w : world) (cf : ConfigFile) : bool :=
  bool_decide (is_Some (files w !! resolve w (path cf))).

(** No registered path is the backup path of a registered path. *)
Definition apart (w : world) (configs : list ConfigFile) : Prop :=
  Forall (fun cf =>
            Forall (fun cf' => resolve w (path cf) <> resolve w (path cf') +:+ ".bak")
                   configs)
         configs.

Lemma resolve_bak (w : world) (p : string) :
  resolve w (p +:+ ".bak") = resolve w p +:+ ".bak".
Proof.
  unfold resolve, isAbsolute, join.
  destruct p as [|c t]; [cbn [startsWith]; now rewrite append_nil, !append_assoc|].
  rewrite append_cons. cbn [startsWith].
  destruct (Ascii.eqb "/" c); cbn [andb]; [now rewrite append_cons|].
  now rewrite !append_assoc, append_cons.
Qed.

Lemma bak_inj (p q : string) : p +:+ ".bak" = q +:+ ".bak" -> p = q.
Proof.
  revert q. induction p as [|c p IH]; intros [|d q] H.
  - reflexivity.
  - exfalso. revert H. rewrite append_nil, append_cons. intros H.
    apply (f_equal String.length) in H. revert H. cbn [String.length].
    rewrite length_append. cbn [String.length]. lia.
  - exfalso. revert H. rewrite append_nil, append_cons. intros H.
    apply (f_equal String.length) in H. revert H. cbn [String.length].
    rewrite length_append. cbn [String.length]. lia.
  - rewrite !append_cons in H. injection H as -> H. f_equal. now apply IH.
Qed.

Definition backups_of (w : world) (configs : list ConfigFile)
    : list (string * string) :=
  map (fun cf => (path cf, path cf +:+ ".bak")) (List.filter (present w) configs).

Lemma createBackups_run (configs : list ConfigFile) :
  forall w : world,
    faults w = [] -> Forall (regular w) configs ->
    NoDup (registered w configs) -> apart w configs ->
    exists configs' w',
      createBackups configs w = (Ok (configs', backups_of w configs), w') /\
      faults w' = [] /\ cwd w' = cwd w /\ dirs w' = dirs w /\
      map path configs' = map path configs /\
      map template configs' = map template configs /\
      (forall q, q ∉ map (fun p => p +:+ ".bak") (registered w configs) ->
                 files w' !! q = files w !! q) /\
      (forall cf, cf ∈ configs ->
         files w' !! (resolve w (path cf) +:+ ".bak")
           = match files w !! resolve w (path cf) with
             | Some text => Some text
             | None => files w !! (resolve w (path cf) +:+ ".bak")
             end).
Proof.
  induction configs as [|cf configs IH]; intros w Hq Hreg Hnd Hap.
  - exists [], w. repeat split; auto. intros cf Hcf. now apply elem_of_nil in Hcf.
  - inversion Hreg as [|? ? Hr Hregs]; subst.
    cbn [registered map] in Hnd. apply NoDup_cons in Hnd as [Hnotin Hnds].
    fold (registered w configs) in Hnotin, Hnds.
    unfold apart in Hap. apply Forall_cons in Hap as [Hhead Htail].
    apply Forall_cons in Hhead as [_ Hhead].
    assert (Hap' : apart w configs).
    { unfold apart. eapply Forall_impl; [exact Htail|]. intros cf' H.
      now apply Forall_cons in H as [_ H]. }
    assert (Htail' : Forall (fun cf' => resolve w (path cf')
                                        <> resolve w (path cf) +:+ ".bak") configs).
    { eapply Forall_impl; [exact Htail|]. intros cf' H.
      now apply Forall_cons in H as [H _]. }
    set (p := resolve w (path cf)) in *.
    assert (Hstep :
      forall w1, faults w1 = [] -> cwd w1 = cwd w -> dirs w1 = dirs w ->
        (forall q, q <> p +:+ ".bak" -> files w1 !! q = files w !! q) ->
        exists configs' w',
          createBackups configs w1 = (Ok (configs', backups_of w configs), w') /\
          faults w' = [] /\ cwd w' = cwd w /\ dirs w' = dirs w /\
          map path configs' = map path configs /\
          map template configs' = map template configs /\
          (forall q, q ∉ map (fun p => p +:+ ".bak") (registered w (cf :: configs)) ->
                     files w' !! q = files w !! q) /\
          files w' !! (p +:+ ".bak") = files w1 !! (p +:+ ".bak") /\
          (forall cf', cf' ∈ configs ->
             files w' !! (resolve w (path cf') +:+ ".bak")
               = match files w !! resolve w (path cf') with
                 | Some text => Some text
                 | None => files w !! (resolve w (path cf') +:+ ".bak")
                 end)).
    { intros w1 Hq1 Hc1 Hd1 Hf1.
      assert (Hmap : registered w1 configs = registered w configs).
      { apply map_ext. intros. now apply resolve_cwd. }
      assert (Haway : forall cf', cf' ∈ configs ->
                        resolve w (path cf') <> p +:+ ".bak"
                        /\ resolve w (path cf') +:+ ".bak" <> p +:+ ".bak").
      { intros cf' Hin. split.
        - rewrite Forall_forall in Htail'. now apply Htail'.
        - intros Heq. apply bak_inj in Heq. apply Hnotin. rewrite <- Heq.
          unfold registered. apply list_elem_of_fmap. now exists cf'. }
      assert (Hsame : backups_of w1 configs = backups_of w configs).
      { unfold backups_of. f_equal. apply filter_ext_in. intros cf' Hin.
        unfold present. rewrite (resolve_cwd w w1) by exact Hc1.
        rewrite Hf1; [reflexivity|]. now apply Haway, list_elem_of_In. }
      destruct (IH w1) as (configs' & w' & Hrun & Hq' & Hc' & Hd' & Hp' & Ht' & Hf' & Hb');
        auto.
      - eapply Forall_impl; [exact Hregs|]. intros cf' Hcf. unfold regular, is_dir in *.
        now rewrite (resolve_cwd w w1), Hd1.
      - now rewrite Hmap.
      - unfold apart in *. eapply Forall_impl; [exact Hap'|]. intros cf' H.
        eapply Forall_impl; [exact H|]. intros cf'' H'. cbv beta in *.
        now rewrite !(resolve_cwd w w1).
      - exists configs', w'. rewrite Hrun, Hsame. split; [reflexivity|].
        split; [exact Hq'|]. split; [congruence|]. split; [congruence|].
        split; [exact Hp'|]. split; [exact Ht'|]. split; [|split].
        + intros q Hout. cbn [registered map] in Hout.
          rewrite not_elem_of_cons in Hout. destruct Hout as [Hne Hnot].
          rewrite Hf' by now rewrite Hmap. now apply Hf1.
        + apply Hf'. rewrite Hmap. intros Hin.
          apply list_elem_of_fmap in Hin as (p' & Heq & Hin).
          apply bak_inj in Heq. subst p'. contradiction.
        + intros cf' Hin. specialize (Hb' cf' Hin). destruct (Haway cf' Hin) as [H1 H2].
          rewrite (resolve_cwd w w1) in Hb' by exact Hc1.
          rewrite Hb', !Hf1 by assumption. reflexivity. }
    cbn [createBackups]. rewrite bind_run, pathExists_run.
    unfold regular in Hr. fold p in Hr. fold p. rewrite Hr, orb_false_r.
    destruct (files w !! p) as [text|] eqn:Etext.
    + rewrite is_Some_true, bind_run.
      rewrite (copy_file_run _ _ text) by exact Etext.
      rewrite (fails_quiet _ Hq), resolve_bak. fold p.
      destruct (Hstep (copied p (p +:+ ".bak") text w))
        as (configs' & w' & Hrun & Hq' & Hc' & Hd' & Hp' & Ht' & Hf' & Hkeep & Hb');
        try (cbn [copied faults cwd dirs files]; now rewrite ?Hq).
      { intros q Hne. cbn [copied files]. now apply lookup_insert_ne. }
      rewrite bind_run, Hrun. cbn [fst snd].
      assert (Hbk : backups_of w (cf :: configs)
                    = (path cf, path cf +:+ ".bak") :: backups_of w configs).
      { unfold backups_of. cbn [List.filter]. unfold present at 1. fold p.
        now rewrite Etext, is_Some_true. }
      rewrite Hbk. do 2 eexists. split; [reflexivity|].
      split; [exact Hq'|]. split; [exact Hc'|]. split; [exact Hd'|].
      split; [cbn [map path]; now rewrite Hp'|].
      split; [cbn [map template]; now rewrite Ht'|].
      split; [exact Hf'|].
      intros cf' Hin. apply elem_of_cons in Hin as [-> | Hin]; [|now apply Hb'].
      fold p. rewrite Etext, Hkeep. cbn [copied files]. apply lookup_insert_eq.
    + rewrite bool_decide_eq_false_2 by (now intros [? ?]).
      destruct (Hstep w)
        as (configs' & w' & Hrun & Hq' & Hc' & Hd' & Hp' & Ht' & Hf' & Hkeep & Hb'); auto.
      rewrite bind_run, Hrun. cbn [fst snd].
      assert (Hbk : backups_of w (cf :: configs) = backups_of w configs).
      { unfold backups_of. cbn [List.filter]. unfold present at 1. fold p.
        now rewrite Etext, bool_decide_eq_false_2 by (now intros [? ?]). }
      rewrite Hbk. do 2 eexists. split; [reflexivity|].
      split; [exact Hq'|]. split; [exact Hc'|]. split; [exact Hd'|].
      split; [cbn [map path]; now rewrite Hp'|].
      split; [cbn [map template]; now rewrite Ht'|].
      split; [exact Hf'|].
      intros cf' Hin. apply elem_of_cons in Hin as [-> | Hin]; [|now apply Hb'].
      fold p. now rewrite Etext, Hkeep.
Qed.


Lemma apart_spec (w : world) (configs : list ConfigFile) (cf cf' : ConfigFile) :
  apart w configs -> cf ∈ configs -> cf' ∈ configs ->
  resolve w (path cf) <> resolve w (path cf') +:+ ".bak".
Proof.
  unfold apart. rewrite Forall_forall. intros H Hcf Hcf'.
  specialize (H cf Hcf). rewrite Forall_forall in H. now apply H.
Qed.

(** X7.  With no failing file operation, for registered paths that are
    pairwise distinct, are not directories and none of which is the
    backup path of another, [createBackups] copies every registered file
    that exists to its path plus [.bak], leaves the file itself as it
    was, and returns the pairs of path and backup path of the files that
    exist, in registration order. *)
Theorem createBackups_copies_present (configs : list ConfigFile) (w : world)
    (Hquiet : faults w = [])
    (Hregular : Forall (regular w) configs)
    (Hdistinct : NoDup (registered w configs))
    (Hapart : apart w configs) :
  exists configs' w',
    createBackups configs w
      = (Ok (configs',
             map (fun cf => (path cf, path cf +:+ ".bak"))
                 (List.filter (present w) configs)), w') /\
    map path configs' = map path configs /\
    forall cf text,
      cf ∈ configs -> files w !! resolve w (path cf) = Some text ->
      files w' !! resolve w (path cf +:+ ".bak") = Some text /\
      files w' !! resolve w (path cf) = Some text.
Proof.
  destruct (createBackups_run configs w Hquiet Hregular Hdistinct Hapart)
    as (configs' & w' & Hrun & _ & _ & _ & Hp & _ & Hf & Hb).
  exists configs', w'. split; [exact Hrun|]. split; [exact Hp|].
  intros cf text Hin Htext. split.
  - rewrite resolve_bak, (Hb cf Hin). now rewrite Htext.
  - rewrite Hf; [exact Htext|]. intros Hmem.
    apply list_elem_of_fmap in Hmem as (p' & Heq & Hmem).
    apply list_elem_of_fmap in Hmem as (cf' & -> & Hin').
    now apply (apart_spec w configs cf cf' Hapart Hin Hin').
Qed.

Lemma createBackups_copies_present_witness :
  let handler := addConfig (addConfig [] configPath postcss) "globals.css" css in
  exists configs' w',
    createBackups handler (project bareConfig [])
      = (Ok (configs', [(configPath, backupPath)]), w') /\
    files w' !! backupPath = Some bareConfig.
Proof.
  cbv zeta.
  destruct (createBackups_copies_present
              (addConfig (addConfig [] configPath postcss) "globals.css" css)
              (project bareConfig []))
    as (configs' & w' & Hrun & _ & Hcopy).
  - reflexivity.
  - repeat constructor; vm_compute; reflexivity.
  - apply (bool_decide_unpack _). vm_compute. exact I.
  - repeat constructor; vm_compute; discriminate.
  - exists configs', w'. split; [rewrite Hrun; vm_compute; reflexivity|].
    apply (Hcopy {| path := configPath; template := postcss; Config.backupPath := None |}
                 bareConfig).
    + vm_compute. apply list_elem_of_here.
    + vm_compute. reflexivity.
Defined.



(** ** What a command leaves alone *)

(** [w'] has the working directory of [w] and the files of [w], except
    perhaps at [D] and below it. *)
Definition same_outside (D : string) (w w' : world) : Prop :=
  cwd w' = cwd w /\
  forall q, q <> D -> under D q = false -> files w' !! q = files w !! q.

(** A command that, started in the working directory [c], changes no
    file other than [D] and what lies below it, whether it returns or
    throws. *)
Definition confined {A} (D c : string) (m : M A) : Prop :=
  forall w r w', cwd w = c -> m w = (r, w') -> same_outside D w w'.

Lemma same_outside_refl (D : string) (w : world) : same_outside D w w.
Proof. now split. Qed.

Lemma same_outside_trans (D : string) (w1 w2 w3 : world) :
  same_outside D w1 w2 -> same_outside D w2 w3 -> same_outside D w1 w3.
Proof.
  intros [Hc1 Hf1] [Hc2 Hf2]. split; [congruence|].
  intros q Hne Hu. now rewrite Hf2, Hf1.
Qed.

Lemma confined_ret {A} (D c : string) (a : A) : confined D c (ret a).
Proof. intros w r w' _ [= <- <-]. apply same_outside_refl. Qed.

Lemma confined_bind {A B} (D c : string) (m : M A) (f : A -> M B) :
  confined D c m -> (forall a, confined D c (f a)) -> confined D c (bind m f).
Proof.
  intros Hm Hf w r w' Hc. rewrite bind_run.
  destruct (m w) as [[a|e] w1] eqn:E.
  - intros Hrun. pose proof (Hm _ _ _ Hc E) as H1.
    eapply same_outside_trans; [exact H1|].
    eapply Hf; [|exact Hrun]. destruct H1 as [H1 _]. congruence.
  - intros [= <- <-]. now apply (Hm _ _ _ Hc E).
Qed.

Lemma confined_spend (D : string) (w : world) : same_outside D w (spend w).
Proof. now split. Qed.

Lemma confined_readFile (D c p : string) : confined D c (readFile p).
Proof.
  intros w r w' _. rewrite readFile_run.
  destruct (fails w); [|destruct (files w !! resolve w p)];
    intros [= <- <-]; apply confined_spend.
Qed.

Lemma confined_readdir (D c p : string) : confined D c (readdir p).
Proof.
  intros w r w' _. unfold readdir, bind, get_world. rewrite next_fault_run.
  destruct (fails w); [|destruct (is_dir w (resolve w p))];
    intros [= <- <-]; apply confined_spend.
Qed.


(** The file that a path denotes when the working directory is [c]. *)
Definition resolve_in (c p : string) : string :=
  if isAbsolute p then p else join c p.

Lemma resolve_in_cwd (w : world) (p : string) : resolve w p = resolve_in (cwd w) p.
Proof. reflexivity. Qed.

Lemma confined_writeFile (D c p content : string) :
  (resolve_in c p = D \/ under D (resolve_in c p) = true) ->
  confined D c (writeFile p content).
Proof.
  intros Hin w r w' Hc. rewrite writeFile_run, resolve_in_cwd, Hc.
  destruct (fails w); intros [= <- <-]; [now split|].
  split; [reflexivity|]. intros q Hne Hu. cbn [wrote files].
  apply lookup_insert_ne. destruct Hin as [-> | Hin]; congruence.
Qed.

Lemma confined_copyWith (D c s d : string) (keep : string -> bool) :
  resolve_in c d = D -> confined D c (copyWith keep s d).
Proof.
  intros Hd w r w' Hc. unfold copyWith, bind, get_world. rewrite next_fault_run.
  rewrite !resolve_in_cwd, Hc, Hd.
  destruct (fails w); [intros [= <- <-]; now split|].
  destruct (files w !! resolve_in c s) as [content|].
  - destruct (keep _); intros [= <- <-]; [|now split].
    split; [reflexivity|]. intros q Hne Hu. cbn [files spend].
    now apply lookup_insert_ne.
  - destruct (is_dir _ _); intros [= <- <-]; [|now split].
    split; [reflexivity|]. intros q Hne Hu. cbn [files spend].
    apply insert_all_other. intros e He Heq.
    unfold tree_copies in He. apply list_elem_of_omap in He as ([k v] & _ & Hk).
    cbn [fst snd] in Hk.
    destruct (under (resolve_in c s) k) eqn:Hus; cbn [andb] in Hk; [|discriminate].
    destruct (keep k); [|discriminate]. injection Hk as <-. cbn [fst] in Heq.
    apply under_slash in Hus as (rel & ->).
    rewrite drop_length_app in Heq. subst q.
    now rewrite under_app in Hu.
Qed.

Lemma confined_for_each {A} (D c : string) (xs : list A) (body : A -> M unit) :
  (forall x, confined D c (body x)) -> confined D c (for_each xs body).
Proof.
  intros Hbody. induction xs as [|x xs IH]; [apply confined_ret|].
  cbn [for_each]. apply confined_bind; [apply Hbody | intros _; exact IH].
Qed.

Lemma resolve_in_join (c t f : string) :
  t <> "" -> resolve_in c (join t f) = join (resolve_in c t) f.
Proof.
  intros Ht. unfold resolve_in, isAbsolute, join.
  destruct t as [|x t]; [congruence|]. rewrite append_cons. cbn [startsWith].
  destruct (Ascii.eqb "/" x); cbn [andb]; [reflexivity|].
  now rewrite !append_assoc.
Qed.

Lemma confined_rewrite (D c t : string) (g : string -> string) (names : list string) :
  t <> "" -> resolve_in c t = D ->
  confined D c
    (for_each names
       (fun file =>
          if is_source_file file
          then (content <- readFile (join t file) ;;
                writeFile (join t file) (g content))
          else ret tt)).
Proof.
  intros Ht Hd. apply confined_for_each. intros file.
  destruct (is_source_file file); [|apply confined_ret].
  apply confined_bind; [apply confined_readFile|]. intros content.
  apply confined_writeFile. right.
  rewrite (resolve_in_join c t file Ht), Hd. apply under_app.
Qed.



(** X10.  Generating from a local template changes no file outside the
    new collection's directory, whether it succeeds or fails part-way;
    the template it copies from is left as it was. *)
Theorem generateFromLocalTemplate_confined
    (collectionName templateKey templatePath collectionDir : string)
    (w w' : world) (r : result unit) (q : string)
    (Hdir : collectionDir <> "")
    (Hrun : generateFromLocalTemplate collectionName templateKey templatePath
              collectionDir w = (r, w'))
    (Hne : q <> resolve w collectionDir)
    (Hout : under (resolve w collectionDir) q = false) :
  files w' !! q = files w !! q.
Proof.
  assert (H : confined (resolve w collectionDir) (cwd w)
                (generateFromLocalTemplate collectionName templateKey templatePath
                   collectionDir)).
  { unfold generateFromLocalTemplate.
    apply confined_bind; [now apply confined_copyWith|]. intros _.
    apply confined_bind; [apply confined_readdir|]. intros names.
    apply (confined_rewrite _ _ collectionDir
             (fun content =>
                replace_all (slugRegex templateKey)
                  ("slug: " +:+ dq +:+ camelCase collectionName +:+ dq)
                  (replace_all (RegExp (toPascalCase templateKey)) collectionName
                     content)));
      [exact Hdir | reflexivity]. }
  destruct (H w r w' eq_refl Hrun) as [_ Hf]. now apply Hf.
Qed.

(** A project with a local copy of the [posts] template. *)
Definition templated : world :=
  World {[ "/app/.payload/templates/posts/index.ts" :=
             "const Posts = { slug: " +:+ dq +:+ "posts" +:+ dq +:+ " };";
           "/app/.payload/templates/posts/template.json" := "{}" ]}
        {[ "/app"; "/app/.payload"; "/app/.payload/templates";
           "/app/.payload/templates/posts"; "/app/src"; "/app/src/collections";
           "/app/src/collections/articles" ]}
        "/app" [] [].

Lemma generateFromLocalTemplate_confined_witness :
  exists w',
    generateFromLocalTemplate "Articles" "posts" ".payload/templates/posts"
      "src/collections/articles" templated = (Ok tt, w') /\
    files w' !! "/app/src/collections/articles/index.ts"
      = Some ("const Articles = { slug: " +:+ dq +:+ "articles" +:+ dq +:+ " };") /\
    files w' !! "/app/src/collections/articles/template.json" = None /\
    files w' !! "/app/.payload/templates/posts/index.ts"
      = files templated !! "/app/.payload/templates/posts/index.ts".
Proof.
  pose (run := generateFromLocalTemplate "Articles" "posts" ".payload/templates/posts"
                 "src/collections/articles" templated).
  assert (H1 : fst run = Ok tt) by (vm_compute; reflexivity).
  assert (H2 : files (snd run) !! "/app/src/collections/articles/index.ts"
               = Some ("const Articles = { slug: " +:+ dq +:+ "articles" +:+ dq +:+ " };"))
    by (vm_compute; reflexivity).
  assert (H3 : files (snd run) !! "/app/src/collections/articles/template.json" = None)
    by (vm_compute; reflexivity).
  unfold run in H1, H2, H3. clear run.
  destruct (generateFromLocalTemplate "Articles" "posts" ".payload/templates/posts"
              "src/collections/articles" templated) as [r w'] eqn:Hrun.
  cbn [fst snd] in H1, H2, H3. subst r.
  exists w'. split; [reflexivity|]. split; [exact H2|]. split; [exact H3|].
  apply (generateFromLocalTemplate_confined "Articles" "posts"
           ".payload/templates/posts" "src/collections/articles" templated w' (Ok tt)).
  - discriminate.
  - exact Hrun.
  - vm_compute. discriminate.
  - vm_compute. reflexivity.
Defined.

(** ** Loading the tool's configuration *)

Section Loading.
Variable loadModule : string -> M cli_config.

(** X11.  [loadConfig] never throws, whatever the module loader does:
    every failure ends in the default configuration.  When none of the
    four configuration files of the tool exists, it returns the default
    configuration without calling the loader and without any effect. *)
Theorem loadConfig_never_throws (w : world) :
  (exists config w', loadConfig loadModule w = (Ok config, w')) /\
  (exists_at w "payload-cli-config.cjs" = false ->
   exists_at w "payloadcli.config.cjs" = false ->
   exists_at w "payload-cli-config.js" = false ->
   exists_at w "payloadcli.config.js" = false ->
   loadConfig loadModule w = (Ok defaultConfig, w)).
Proof.
  split.
  - unfold loadConfig. rewrite try_catch_run.
    match goal with |- context [match ?b with _ => _ end] => destruct b as [[c|e] w1] end.
    + eauto.
    + rewrite bind_run, log_run. eauto.
  - intros H1 H2 H3 H4. unfold loadConfig.
    rewrite try_catch_run, bind_run, pathExists_run.
    fold (exists_at w "payload-cli-config.cjs"). rewrite H1.
    rewrite bind_run, pathExists_run.
    fold (exists_at w "payloadcli.config.cjs"). rewrite H2.
    cbn [orb]. rewrite bind_run. unfold ret at 1.
    rewrite bind_run, pathExists_run.
    fold (exists_at w "payload-cli-config.js"). rewrite H3.
    rewrite bind_run. unfold ret at 1.
    rewrite bind_run, pathExists_run.
    fold (exists_at w "payloadcli.config.js"). rewrite H4.
    rewrite bind_run, pathExists_run. reflexivity.
Qed.
End Loading.

Lemma loadConfig_never_throws_witness :
  loadConfig (fun _ => throw (Thrown "SyntaxError")) emptyProject
    = (Ok defaultConfig, emptyProject).
Proof.
  apply (loadConfig_never_throws (fun _ => throw (Thrown "SyntaxError")) emptyProject);
    vm_compute; reflexivity.
Defined.

(** ** Looking for the collections of a project *)

(** X12.  [findExistingCollections] never throws and changes no file and
    no directory; every collection it returns is a directory directly
    in the collections directory, given with its name and its path.
    When nothing exists at the collections directory it returns no
    collection, without a log line; and when the directory can be read,
    every directory directly in it is returned. *)
Theorem findExistingCollections_directories (collectionsDir : string) (w : world) :
  exists found w',
    findExistingCollections collectionsDir w = (Ok found, w') /\
    files w' = files w /\ dirs w' = dirs w /\
    (forall name p,
       (name, p) ∈ found ->
       p = join collectionsDir name /\ is_dir w (resolve w p) = true) /\
    (exists_at w collectionsDir = false -> found = [] /\ w' = w) /\
    (forall name,
       collectionsDir <> "" -> faults w = [] ->
       is_dir w (resolve w collectionsDir) = true ->
       first_segment name = name ->
       is_dir w (resolve w collectionsDir +:+ "/" +:+ name) = true ->
       (name, join collectionsDir name) ∈ found).
Proof.
  unfold findExistingCollections.
  rewrite try_catch_run, bind_run, pathExists_run. fold (exists_at w collectionsDir).
  destruct (exists_at w collectionsDir) eqn:Hex.
  - rewrite bind_run. unfold get_world at 1. rewrite bind_run.
    unfold readdir, bind, get_world. rewrite next_fault_run.
    set (pick := fun entry : string =>
                   if is_dir w (resolve w (join collectionsDir entry))
                   then Some (entry, join collectionsDir entry) else None).
    destruct (fails w) eqn:Hfails.
    + do 2 eexists. split; [reflexivity|]. cbn [logged spend files dirs].
      split; [reflexivity|]. split; [reflexivity|].
      split; [intros name p Hin; now apply elem_of_nil in Hin|].
      split; [discriminate|].
      intros name _ Hq. rewrite (fails_quiet _ Hq) in Hfails. discriminate.
    + destruct (is_dir w (resolve w collectionsDir)) eqn:Hdir.
      * do 2 eexists. split; [reflexivity|]. cbn [spend files dirs].
        split; [reflexivity|]. split; [reflexivity|]. split; [|split].
        -- intros name p Hin. apply list_elem_of_omap in Hin as (entry & _ & Hpick).
           unfold pick in Hpick.
           destruct (is_dir w (resolve w (join collectionsDir entry))) eqn:Hd;
             [|discriminate].
           injection Hpick as <- <-. now split.
        -- discriminate.
        -- intros name Hne Hq _ Hseg Hsub. apply list_elem_of_omap.
           exists name. split.
           ++ apply elem_of_entries.
              exists (resolve w collectionsDir +:+ "/" +:+ name). split.
              ** apply in_all_paths. right. unfold is_dir in Hsub.
                 now apply bool_decide_eq_true in Hsub.
              ** rewrite entry_name_app. now rewrite Hseg.
           ++ unfold pick. rewrite (resolve_join w _ _ Hne). unfold join.
              now rewrite Hsub.
      * do 2 eexists. split; [reflexivity|]. cbn [logged spend files dirs].
        split; [reflexivity|]. split; [reflexivity|].
        split; [intros name p Hin; now apply elem_of_nil in Hin|].
        split; discriminate.
  - do 2 eexists. split; [reflexivity|].
    split; [reflexivity|]. split; [reflexivity|].
    split; [intros name p Hin; now apply elem_of_nil in Hin|].
    split; [now split|].
    intros name _ _ Hdir. unfold exists_at in Hex. rewrite Hdir, orb_true_r in Hex.
      discriminate.
Qed.

Lemma findExistingCollections_directories_witness :
  exists w',
    findExistingCollections "src/collections" blog
      = (Ok [("posts", "src/collections/posts")], w').
Proof.
  destruct (findExistingCollections_directories "src/collections" blog)
    as (found & w' & Hrun & _ & _ & _ & _ & Hall).
  assert (Hin : ("posts", join "src/collections" "posts") ∈ found).
  { apply Hall; try reflexivity; try discriminate. }
  exists w'. rewrite Hrun.
  assert (E : fst (findExistingCollections "src/collections" blog)
              = Ok [("posts", "src/collections/posts")]) by (vm_compute; reflexivity).
  rewrite Hrun in E. cbn [fst] in E. now rewrite E.
Defined.

(** ** Case conversion: further properties *)

Lemma filter_chars_kept (keep : ascii -> bool) (s : string) :
  all_chars keep (filter_chars keep s) = true.
Proof.
  induction s as [|c t IH]; [reflexivity|]. cbn [filter_chars].
  destruct (keep c) eqn:Hk; [|exact IH]. cbn [all_chars]. now rewrite Hk, IH.
Qed.

Lemma filter_chars_id (keep : ascii -> bool) (s : string) :
  all_chars keep s = true -> filter_chars keep s = s.
Proof.
  induction s as [|c t IH]; intros Hs; [reflexivity|].
  cbn [all_chars filter_chars] in *. apply andb_prop in Hs as [Hc Ht].
  now rewrite Hc, IH.
Qed.

Lemma filter_chars_length (keep : ascii -> bool) (s : string) :
  String.length (filter_chars keep s) <= String.length s.
Proof.
  induction s as [|c t IH]; [reflexivity|]. cbn [filter_chars].
  destruct (keep c); cbn [String.length]; lia.
Qed.

Lemma mark_length (g : nat -> ascii -> string) (i : nat) (pv : option ascii)
    (s : string) :
  (forall j c, String.length (g j c) = 1) ->
  String.length (mark g i pv s) = String.length s.
Proof.
  intros Hg. revert i pv. induction s as [|c t IH]; intros i pv; [reflexivity|].
  cbn [mark]. rewrite length_append, IH.
  destruct (starts_word i pv c); [rewrite Hg|]; reflexivity.
Qed.

Lemma separators_deleted (s : string) :
  all_chars (fun c => negb (is_separator c))
    (filter_chars (outside is_dash) (filter_chars (outside is_space) s)) = true.
Proof.
  eapply all_chars_impl;
    [| apply (filter_all_chars (outside is_space) (outside is_dash)),
             filter_chars_kept].
  intros c Hc. apply andb_prop in Hc as [Hs Hd]. unfold outside, is_separator in *.
  apply negb_true_iff in Hs, Hd. now rewrite Hs, Hd.
Qed.

(** X13.  Whatever the input, the names [toPascalCase] and [camelCase]
    return hold no white space, no hyphen and no underscore, and are no
    longer than the input. *)
Theorem case_conversion_drops_separators (str : string) :
  all_chars (fun c => negb (is_separator c)) (toPascalCase str) = true /\
  all_chars (fun c => negb (is_separator c)) (camelCase str) = true /\
  String.length (toPascalCase str) <= String.length str /\
  String.length (camelCase str) <= String.length str.
Proof.
  rewrite toPascalCase_eq, camelCase_eq.
  split; [apply separators_deleted|]. split; [apply separators_deleted|].
  assert (Hlen : forall g, (forall j c, String.length (g j c) = 1) ->
            String.length (filter_chars (outside is_dash)
                             (filter_chars (outside is_space) (mark g 0 None str)))
            <= String.length str).
  { intros g Hg. etransitivity; [apply filter_chars_length|].
    etransitivity; [apply filter_chars_length|]. now rewrite mark_length. }
  split; apply Hlen.
  - reflexivity.
  - intros j c. unfold camelAt. now destruct (j =? 0).
Qed.

Lemma alnum_facts (c : ascii) :
  is_alnum c = true ->
  is_word c = true /\ is_space c = false /\ is_dash c = false /\
  is_dot c = true /\
  (is_upper c = true ->
   toUpperChar c = c /\ is_space (toLowerChar c) = false
   /\ is_dash (toLowerChar c) = false).
Proof.
  each_ascii c; vm_compute; intros H; try discriminate H; repeat split; congruence.
Qed.

Lemma mark_identifier (i : nat) (b : ascii) (t : string) :
  is_word b = true -> all_chars is_alnum t = true ->
  mark upperAt (S i) (Some b) t = t.
Proof.
  revert i b. induction t as [|c t IH]; intros i b Hb Ht; [reflexivity|].
  cbn [all_chars] in Ht. apply andb_prop in Ht as [Hc Ht].
  destruct (alnum_facts c Hc) as (Hw & _ & _ & _ & Hup).
  cbn [mark]. rewrite (IH (S i) c Hw Ht).
  unfold starts_word. rewrite Hb, Hw. cbn [Nat.eqb andb orb xorb].
  rewrite orb_false_r.
  destruct (is_upper c) eqn:Hu; [|reflexivity].
  unfold upperAt. destruct (Hup eq_refl) as [-> _]. reflexivity.
Qed.

Lemma identifier_fixed (c : ascii) (t : string) :
  is_upper c = true -> all_chars is_alnum t = true ->
  toPascalCase (String c t) = String c t /\
  camelCase (String c t) = String (toLowerChar c) t.
Proof.
  intros Hc Ht.
  assert (Hca : is_alnum c = true) by (unfold is_alnum; now rewrite Hc, orb_true_r).
  destruct (alnum_facts c Hca) as (Hw & Hs & Hd & _ & Hup).
  destruct (Hup Hc) as (Hfix & Hls & Hld).
  assert (Hstart : starts_word 0 None c = true).
  { unfold starts_word. now rewrite Hc, orb_true_r. }
  assert (Hclean : filter_chars (outside is_dash) (filter_chars (outside is_space) t) = t).
  { rewrite (filter_chars_id (outside is_space)), (filter_chars_id (outside is_dash));
      [reflexivity | |]; revert Ht; apply all_chars_impl; intros x Hx;
      destruct (alnum_facts x Hx) as (_ & Hxs & Hxd & _); unfold outside;
      now rewrite ?Hxs, ?Hxd. }
  rewrite toPascalCase_eq, camelCase_eq. cbn [mark]. rewrite Hstart.
  rewrite mark_after_first, (mark_identifier 0 c t Hw Ht).
  unfold upperAt, camelAt. cbn [Nat.eqb]. rewrite Hfix, !append_cons, !append_nil.
  rewrite !filter_keep by (unfold outside; now rewrite ?Hs, ?Hd, ?Hls, ?Hld).
  now rewrite Hclean.
Qed.

Lemma upper_facts (c : ascii) :
  is_upper c = true ->
  is_word (toLowerChar c) = true /\ toUpperChar (toLowerChar c) = c.
Proof. each_ascii c; vm_compute; intros H; try discriminate H; split; reflexivity. Qed.

(** X14.  A name that is already a Pascal-case identifier, a capital
    followed by letters and digits, is left as it is by [toPascalCase];
    [camelCase] lowers its first letter and changes nothing else; and
    [toPascalCase] gives the name back from its camel-case form. *)
Theorem toPascalCase_keeps_identifiers (c : ascii) (t : string)
    (Hfirst : is_upper c = true)
    (Hrest : all_chars is_alnum t = true) :
  toPascalCase (String c t) = String c t /\
  camelCase (String c t) = String (toLowerChar c) t /\
  toPascalCase (camelCase (String c t)) = String c t.
Proof.
  destruct (identifier_fixed c t Hfirst Hrest) as [Hpascal Hcamel].
  split; [exact Hpascal|]. split; [exact Hcamel|].
  rewrite Hcamel, toPascalCase_eq.
  destruct (upper_facts c Hfirst) as [Hword Hback].
  assert (Hca : is_alnum c = true) by (unfold is_alnum; now rewrite Hfirst, orb_true_r).
  destruct (alnum_facts c Hca) as (_ & Hs & Hd & _).
  assert (Hstart : starts_word 0 None (toLowerChar c) = true).
  { unfold starts_word. now rewrite Hword. }
  cbn [mark]. rewrite Hstart, (mark_identifier 0 _ t Hword Hrest).
  unfold upperAt. rewrite Hback, !append_cons, !append_nil.
  rewrite !filter_keep by (unfold outside; now rewrite ?Hs, ?Hd).
  rewrite (filter_chars_id (outside is_space)), (filter_chars_id (outside is_dash));
    [reflexivity | |]; revert Hrest; apply all_chars_impl; intros x Hx;
    destruct (alnum_facts x Hx) as (_ & Hxs & Hxd & _); unfold outside;
    now rewrite ?Hxs, ?Hxd.
Qed.

Lemma toPascalCase_keeps_identifiers_witness :
  toPascalCase "BlogPosts2" = "BlogPosts2" /\ camelCase "BlogPosts2" = "blogPosts2"
  /\ toPascalCase (camelCase "BlogPosts2") = "BlogPosts2".
Proof.
  apply (toPascalCase_keeps_identifiers "B" "logPosts2"); vm_compute; reflexivity.
Defined.

(** The shape of the names derived from a name made of letters, digits
    and separators that starts with a letter. *)
Lemma derived_names (c : ascii) (t : string) :
  is_letter c = true -> all_chars name_char t = true ->
  exists u,
    all_chars is_alnum u = true /\
    toPascalCase (String c t) = String (toUpperChar c) u /\
    camelCase (String c t) = String (toLowerChar c) u.
Proof.
  intros Hfirst Hrest.
  destruct (letter_facts c Hfirst) as (Hw & Hup & Hus & Hud & Hls & Hld & Hlow).
  assert (Hs : starts_word 0 None c = true).
  { unfold starts_word. now rewrite Hw. }
  set (marked := mark upperAt 1 (Some c) t).
  exists (filter_chars (outside is_dash) (filter_chars (outside is_space) marked)).
  split; [|split].
  - assert (Hm : all_chars name_char marked = true) by now apply mark_name_chars.
    apply (filter_all_chars _ (outside is_space)) in Hm.
    apply (filter_all_chars _ (outside is_dash)) in Hm.
    revert Hm. apply all_chars_impl. intros x Hx.
    apply andb_prop in Hx as [Hx Hd]. apply andb_prop in Hx as [Hx Hsp].
    now apply name_char_kept.
  - rewrite toPascalCase_eq. cbn [mark]. rewrite Hs. fold marked.
    unfold upperAt. rewrite append_cons, append_nil.
    now rewrite !filter_keep by (unfold outside; now rewrite ?Hus, ?Hud).
  - rewrite camelCase_eq. cbn [mark]. rewrite Hs, mark_after_first. fold marked.
    unfold camelAt. cbn [Nat.eqb]. rewrite append_cons, append_nil.
    now rewrite !filter_keep by (unfold outside; now rewrite ?Hls, ?Hld).
Qed.

(** X15.  On a name that starts with a letter and is made of letters,
    digits, hyphens, underscores and white space, converting twice is
    converting once: [toPascalCase] is idempotent, and [camelCase] of
    the Pascal-case name is [camelCase] of the name. *)
Theorem toPascalCase_idempotent (c : ascii) (t : string)
    (Hfirst : is_letter c = true)
    (Hrest : all_chars name_char t = true) :
  toPascalCase (toPascalCase (String c t)) = toPascalCase (String c t) /\
  camelCase (toPascalCase (String c t)) = camelCase (String c t).
Proof.
  destruct (derived_names c t Hfirst Hrest) as (u & Hu & -> & ->).
  destruct (letter_facts c Hfirst) as (_ & Hup & _ & _ & _ & _ & Hlow).
  destruct (identifier_fixed (toUpperChar c) u Hup Hu) as [-> ->].
  now rewrite Hlow.
Qed.

Lemma toPascalCase_idempotent_witness :
  toPascalCase (toPascalCase "blog posts") = "BlogPosts" /\
  camelCase (toPascalCase "blog posts") = "blogPosts".
Proof.
  destruct (toPascalCase_idempotent "b" "log posts") as [H1 H2];
    try (vm_compute; reflexivity).
  rewrite H1, H2. split; vm_compute; reflexivity.
Defined.

(** ** The name prompt *)

Lemma trim_solid (s : string) :
  all_chars (outside is_space) s = true -> trim s = s.
Proof.
  intros Hs. unfold trim.
  assert (E : trimStart s = s).
  { destruct s as [|c t]; [reflexivity|]. cbn [all_chars] in Hs.
    apply andb_prop in Hs as [Hc _]. unfold outside in Hc.
    apply negb_true_iff in Hc. cbn [trimStart]. now rewrite Hc. }
  rewrite E. clear E. induction s as [|c t IH]; [reflexivity|].
  cbn [all_chars] in Hs. apply andb_prop in Hs as [Hc Ht].
  unfold outside in Hc. apply negb_true_iff in Hc.
  cbn [trimEnd]. now rewrite Hc, IH.
Qed.

Lemma separatorRun_quiet (s : string) :
  all_chars (fun c => negb (is_separator c)) s = true -> quiet separatorRun s.
Proof.
  intros Hs k i pv. apply (all_chars_drop _ _ k) in Hs.
  unfold match_here, separatorRun, Plus. cbn [mt rest].
  destruct (drop k s) as [|c t]; [reflexivity|].
  cbn [all_chars] in Hs. apply andb_prop in Hs as [Hc _].
  apply negb_true_iff in Hc. now rewrite Hc.
Qed.

Lemma firstChar_upper (c : ascii) (t : string) :
  is_dot c = true ->
  replace_first_with firstChar (fun m => toUpperCase (m_text m)) (String c t)
    = String (toUpperChar c) t.
Proof.
  intros Hc. unfold replace_first_with, exec.
  rewrite (search_hit _ _ _ _ _ (MState 1 (Some c) t [(1, String c "")])).
  - reflexivity.
  - unfold match_here, firstChar. cbn [mt pos rest prev caps Nat.eqb]. now rewrite Hc.
Qed.

(** X16.  The name prompt accepts every Pascal-case identifier, a
    capital followed by letters and digits, and the command's own
    conversion passes such a name on unchanged. *)
Theorem validateName_accepts_identifiers (c : ascii) (t : string)
    (Hfirst : is_upper c = true)
    (Hrest : all_chars is_alnum t = true) :
  validateName (String c t) = None /\ pascalCaseOf (String c t) = String c t.
Proof.
  assert (Hca : is_alnum c = true) by (unfold is_alnum; now rewrite Hfirst, orb_true_r).
  assert (Hall : all_chars is_alnum (String c t) = true)
    by (cbn [all_chars]; now rewrite Hca, Hrest).
  assert (Hsolid : all_chars (outside is_space) (String c t) = true).
  { revert Hall. apply all_chars_impl. intros x Hx.
    destruct (alnum_facts x Hx) as (_ & Hxs & _). unfold outside. now rewrite Hxs. }
  assert (Hnosep : all_chars (fun x => negb (is_separator x)) (String c t) = true).
  { revert Hall. apply all_chars_impl. intros x Hx.
    destruct (alnum_facts x Hx) as (_ & Hxs & Hxd & _). unfold is_separator.
    now rewrite Hxs, Hxd. }
  destruct (alnum_facts c Hca) as (_ & _ & _ & Hdot & Hup).
  destruct (Hup Hfirst) as (Hfix & _).
  assert (Hpascal : pascalCaseOf (String c t) = String c t).
  { unfold pascalCaseOf.
    rewrite (quiet_replace_all _ _ _ (separatorRun_quiet _ Hnosep)).
    now rewrite (firstChar_upper c t Hdot), Hfix. }
  split; [|exact Hpascal].
  unfold validateName. rewrite (trim_solid _ Hsolid). cbn [is_empty].
  now rewrite Hpascal, (identifier_accepted c t Hfirst Hrest).
Qed.

Lemma validateName_accepts_identifiers_witness :
  validateName "BlogPosts2" = None /\ pascalCaseOf "BlogPosts2" = "BlogPosts2".
Proof.
  apply (validateName_accepts_identifiers "B" "logPosts2"); vm_compute; reflexivity.
Defined.

Lemma trimEnd_cons_solid (c : ascii) (t : string) :
  is_space c = false -> trimEnd (String c t) = String c (trimEnd t).
Proof. intros Hc. cbn [trimEnd]. now rewrite Hc. Qed.

Lemma search_after_start (r : regex) (s : string) (i : nat) (pv : option ascii)
    (bef : string) :
  search (Seq Bol r) (S i) pv bef s = None.
Proof.
  revert i pv bef. induction s as [|c t IH]; intros i pv bef; cbn [search];
    unfold match_here; cbn [mt pos Nat.eqb]; [reflexivity | apply IH].
Qed.

Lemma digit_facts (c : ascii) :
  is_digit c = true ->
  is_space c = false /\ is_separator c = false /\ is_dot c = true /\
  toUpperChar c = c /\ is_upper c = false.
Proof. each_ascii c; vm_compute; intros H; try discriminate H; repeat split. Qed.

(** X17.  The name prompt refuses an input that is empty or white space
    only with [Collection name is required], and refuses every name
    that starts with a digit as not a valid Pascal-case identifier. *)
Theorem validateName_refuses (blank : string) (c : ascii) (t : string)
    (Hblank : all_chars is_space blank = true)
    (Hdigit : is_digit c = true) :
  validateName blank = Some "Collection name is required" /\
  validateName (String c t)
    = Some "Collection name must be a valid PascalCase identifier".
Proof.
  split.
  - unfold validateName, trim. now rewrite (trimStart_blank _ Hblank).
  - destruct (digit_facts c Hdigit) as (Hs & Hsep & Hdot & Hfix & Hup).
    unfold validateName, trim. cbn [trimStart]. rewrite Hs.
    rewrite (trimEnd_cons_solid c t Hs). cbn [is_empty].
    unfold pascalCaseOf, replace_all_with.
    rewrite replace_all_go_miss
      by (unfold match_here, separatorRun, Plus; cbn [mt rest]; now rewrite Hsep).
    rewrite (firstChar_upper c _ Hdot), Hfix.
    unfold test, exec, identifierRegex. cbn [seqs search].
    unfold match_here at 1. cbn [mt pos rest prev caps Nat.eqb]. rewrite Hup.
    now rewrite search_after_start.
Qed.

Lemma validateName_refuses_witness :
  validateName "   " = Some "Collection name is required" /\
  validateName "123abc" = Some "Collection name must be a valid PascalCase identifier".
Proof.
  apply (validateName_refuses "   " "1" "23abc"); reflexivity.
Defined.

(** ** Wrapping a message *)

Import Logger.











(** ** Finding a plugin by name *)

Section RegistryLookup.
Import Registry.











End RegistryLookup.

(** ** Recording a plugin twice *)

Import AddCommand.

Lemma includes_later (p a s : string) :
  includes p s = true -> includes p (a +:+ s) = true.
Proof.
  intros Hs. induction a as [|c a IH]; [now rewrite append_nil|].
  rewrite append_cons. cbn [includes]. rewrite IH. apply orb_true_r.
Qed.

Lemma includes_here (p s : string) : includes p (p +:+ s) = true.
Proof.
  destruct p as [|c p]; [now destruct s|].
  rewrite append_cons. cbn [includes]. rewrite <- append_cons.
  now rewrite startsWith_app.
Qed.

Lemma includes_middle (p a b : string) : includes p (a +:+ p +:+ b) = true.
Proof. apply includes_later, includes_here. Qed.

Lemma withPlugin_holds_name (packageName configContent : string) :
  withPlugin packageName configContent = configContent \/
  includes packageName (withPlugin packageName configContent) = true.
Proof.
  unfold withPlugin. destruct (includes packageName configContent) eqn:Hin;
    cbn [negb]; [now left|].
  unfold replace_first_with.
  destruct (exec pluginsRegex configContent) as [m|]; [right | now left].
  apply includes_later.
  destruct (is_empty (trim (cap_text 1 m))).
  - rewrite !append_assoc. apply includes_middle.
  - rewrite !append_assoc. do 4 apply includes_later. apply includes_here.
Qed.

(** X21.  Recording a plugin in the directory configuration is
    idempotent, for every text and every package name: a text that
    holds the name already is left as it is, so the name never joins the
    plugins list twice. *)
Theorem withPlugin_idempotent (packageName configContent : string) :
  withPlugin packageName (withPlugin packageName configContent)
    = withPlugin packageName configContent.
Proof.
  destruct (withPlugin_holds_name packageName configContent) as [E | Hin].
  - now rewrite !E.
  - unfold withPlugin at 1. now rewrite Hin.
Qed.

Lemma withPlugin_list (packageName P body post : string) :
  all_chars (is_not "[") P = true ->
  all_chars (is_not "]") body = true ->
  includes packageName (P +:+ "plugins: [" +:+ body +:+ "]" +:+ post) = false ->
  withPlugin packageName (P +:+ "plugins: [" +:+ body +:+ "]" +:+ post)
    = P +:+ (if is_empty (trim body)
             then "plugins: ['" +:+ packageName +:+ "']"
             else "plugins: [" +:+ body +:+ ", '" +:+ packageName +:+ "']")
        +:+ post.
Proof.
  intros Hbefore Hbody Hnew.
  unfold withPlugin, replace_first_with. rewrite Hnew. cbn [negb].
  rewrite (exec_pluginsRegex P body post Hbefore Hbody).
  cbn [m_before m_after]. unfold cap_text, capture. cbn [m_caps List.find fst snd Nat.eqb].
  cbn [fmap option_fmap option_map snd].
  destruct (is_empty (trim body)); [reflexivity|].
  now rewrite ?append_assoc.
Qed.

(** X22.  In a text whose first opening bracket is that of the plugins
    list, and that does not hold the package name yet, [withPlugin]
    changes the plugins list and nothing else: an empty or blank list
    becomes the list of the quoted name, and to a list with entries the
    quoted name is added after a comma.  The text then holds the name. *)
Theorem withPlugin_extends_list (packageName P body post : string)
    (Hbefore : all_chars (is_not "[") P = true)
    (Hbody : all_chars (is_not "]") body = true)
    (Hnew : includes packageName (P +:+ "plugins: [" +:+ body +:+ "]" +:+ post)
            = false) :
  withPlugin packageName (P +:+ "plugins: [" +:+ body +:+ "]" +:+ post)
    = P +:+ (if is_empty (trim body)
             then "plugins: ['" +:+ packageName +:+ "']"
             else "plugins: [" +:+ body +:+ ", '" +:+ packageName +:+ "']")
        +:+ post /\
  includes packageName
    (withPlugin packageName (P +:+ "plugins: [" +:+ body +:+ "]" +:+ post)) = true.
Proof.
  rewrite (withPlugin_list packageName P body post Hbefore Hbody Hnew).
  split; [reflexivity|].
  apply includes_later. destruct (is_empty (trim body)).
  - rewrite !append_assoc. apply includes_middle.
  - rewrite !append_assoc. do 2 apply includes_later. apply includes_middle.
Qed.

Lemma withPlugin_extends_list_witness :
  withPlugin "@payloadcmsdirectory/shadcn-ui"
      "module.exports = { plugins: ['seo'], };"
    = "module.exports = { plugins: ['seo', '@payloadcmsdirectory/shadcn-ui'], };"
  /\ includes "@payloadcmsdirectory/shadcn-ui"
       (withPlugin "@payloadcmsdirectory/shadcn-ui"
          "module.exports = { plugins: ['seo'], };") = true.
Proof.
  apply (withPlugin_extends_list "@payloadcmsdirectory/shadcn-ui"
           "module.exports = { " "'seo'" ", };"); vm_compute; reflexivity.
Defined.

Lemma newDirectoryConfig_holds_name (packageName : string) :
  includes packageName (newDirectoryConfig packageName) = true.
Proof.
  unfold newDirectoryConfig. do 10 apply includes_later. apply includes_here.
Qed.

(** X23.  With no failing file operation, recording a plugin in the
    directory configuration file a second time changes no file: the
    file created or updated by the first run is found to hold the name,
    or is written again with the same text. *)
Theorem recordPlugin_twice (packageName : string) (w : world)
    (Hcwd : isAbsolute (cwd w) = true)
    (Hquiet : faults w = [])
    (Hfile : is_dir w (join (cwd w) "payloadcmsdirectory.config.js") = false) :
  exists w1 w2,
    recordPlugin packageName w = (Ok tt, w1) /\
    recordPlugin packageName w1 = (Ok tt, w2) /\
    files w2 = files w1.
Proof.
  set (p := join (cwd w) "payloadcmsdirectory.config.js") in *.
  assert (Hp : isAbsolute p = true) by now apply join_absolute.
  assert (Hres : forall w', cwd w' = cwd w -> resolve w' p = p).
  { intros w' _. now apply resolve_absolute. }
  (* a run on a quiet world whose file holds a text that has the name,
     or that the update leaves as it is *)
  assert (Hagain : forall w1 text,
            cwd w1 = cwd w -> faults w1 = [] -> dirs w1 = dirs w ->
            files w1 !! p = Some text ->
            (includes packageName text = true
             \/ withPlugin packageName text = text) ->
            exists w2, recordPlugin packageName w1 = (Ok tt, w2)
                       /\ files w2 = files w1).
  { intros w1 text Hc1 Hq1 Hd1 Htext Hstable.
    unfold recordPlugin. rewrite bind_run. unfold get_world at 1.
    rewrite Hc1. fold p. rewrite bind_run, pathExists_run, (Hres w1 Hc1), Htext.
    rewrite is_Some_true. cbn [orb].
    rewrite bind_run, readFile_run, (fails_quiet _ Hq1), (Hres w1 Hc1), Htext.
    rewrite (spend_quiet _ Hq1).
    destruct (includes packageName text) eqn:Hin; cbn [negb].
    - eexists. split; [reflexivity|]. reflexivity.
    - destruct Hstable as [|Hsame]; [discriminate|].
      rewrite writeFile_run, (fails_quiet _ Hq1), (Hres w1 Hc1).
      eexists. split; [reflexivity|]. cbn [wrote files].
      rewrite Hsame. apply insert_id. exact Htext. }
  unfold recordPlugin at 1. rewrite bind_run. unfold get_world at 1. fold p.
  rewrite bind_run, pathExists_run, (Hres w eq_refl), Hfile, orb_false_r.
  destruct (files w !! p) as [text|] eqn:Etext.
  - rewrite is_Some_true, bind_run, readFile_run, (fails_quiet _ Hquiet).
    rewrite (Hres w eq_refl), Etext, (spend_quiet _ Hquiet).
    destruct (includes packageName text) eqn:Hin; cbn [negb].
    + destruct (Hagain w text eq_refl Hquiet eq_refl Etext (or_introl Hin))
        as (w2 & Hrun & Hsame).
      exists w, w2. now split.
    + rewrite writeFile_run, (fails_quiet _ Hquiet), (Hres w eq_refl).
      destruct (Hagain (wrote p (withPlugin packageName text) w)
                  (withPlugin packageName text)) as (w2 & Hrun & Hsame).
      * reflexivity.
      * cbn [wrote faults]. now rewrite Hquiet.
      * reflexivity.
      * cbn [wrote files]. apply lookup_insert_eq.
      * destruct (withPlugin_holds_name packageName text) as [E | H];
          [right; now rewrite !E | now left].
      * eexists _, w2. split; [reflexivity|]. now split.
  - rewrite bool_decide_eq_false_2 by (now intros [? ?]).
    rewrite writeFile_run, (fails_quiet _ Hquiet), (Hres w eq_refl).
    destruct (Hagain (wrote p (newDirectoryConfig packageName) w)
                (newDirectoryConfig packageName)) as (w2 & Hrun & Hsame).
    + reflexivity.
    + cbn [wrote faults]. now rewrite Hquiet.
    + reflexivity.
    + cbn [wrote files]. apply lookup_insert_eq.
    + left. apply newDirectoryConfig_holds_name.
    + eexists _, w2. split; [reflexivity|]. now split.
Qed.

Lemma recordPlugin_twice_witness :
  exists w1 w2,
    recordPlugin "@payloadcmsdirectory/shadcn-ui" emptyProject = (Ok tt, w1) /\
    recordPlugin "@payloadcmsdirectory/shadcn-ui" w1 = (Ok tt, w2) /\
    files w2 = files w1.
Proof.
  apply (recordPlugin_twice "@payloadcmsdirectory/shadcn-ui" emptyProject);
    vm_compute; reflexivity.
Defined.

(** ** Patching a second time *)

Lemma search_reaches (r : regex) (s : string) :
  (forall i pv, match_here r i pv s <> None) ->
  forall A i pv bef, search r i pv bef (A +:+ s) <> None.
Proof.
  intros Hs A. induction A as [|c A IH]; intros i pv bef.
  - rewrite append_nil. specialize (Hs i pv).
    destruct s; cbn [search]; destruct (match_here r i pv _); congruence.
  - rewrite append_cons. cbn [search].
    destruct (match_here r i pv (String c (A +:+ s))); [discriminate | apply IH].
Qed.

Lemma test_reaches (r : regex) (A s : string) :
  (forall i pv, match_here r i pv s <> None) -> test r (A +:+ s) = true.
Proof.
  intros Hs. unfold test, exec.
  pose proof (search_reaches r s Hs A 0 None "") as H.
  now destruct (search r 0 None "" (A +:+ s)).
Qed.

(** The entry the installer adds is recognised as the plugin, whatever
    stands before it in the list. *)
Lemma hasPlugin_added (A : string) :
  hasPlugin shadcn (A +:+ getPluginConfig shadcn) = true.
Proof.
  set (lead := nl +:+ "    ").
  set (core := drop 5 (getPluginConfig shadcn)).
  assert (E : getPluginConfig shadcn = lead +:+ core) by (vm_compute; reflexivity).
  rewrite E, <- append_assoc. unfold hasPlugin. apply test_reaches.
  intros i pv. vm_compute. discriminate.
Qed.

(** The import line the installer adds is recognised as the import,
    whatever follows it. *)
Lemma import_added (X : string) :
  test (importRegex (getPluginImportName shadcn) (getPackageName shadcn))
       (importLine shadcn +:+ X) = true.
Proof.
  unfold test, exec. cbn [search].
  assert (H : match_here (importRegex (getPluginImportName shadcn) (getPackageName shadcn))
                0 None (importLine shadcn +:+ X) <> None)
    by (vm_compute; discriminate).
  destruct (importLine shadcn +:+ X); cbn [search];
    destruct (match_here _ 0 None _); congruence.
Qed.

Lemma patched_again (P body post : string) :
  all_chars plain P = true ->
  all_chars (is_not "]") body = true ->
  hasPlugin shadcn body = true ->
  test (importRegex (getPluginImportName shadcn) (getPackageName shadcn))
       (P +:+ "plugins: [" +:+ body +:+ "]" +:+ post) = true ->
  quiet (pair_regex "," ",") (P +:+ "plugins: [" +:+ body +:+ "]" +:+ post) ->
  quiet (pair_regex "[" ",") (P +:+ "plugins: [" +:+ body +:+ "]" +:+ post) ->
  quiet (pair_regex "," "]") (P +:+ "plugins: [" +:+ body +:+ "]" +:+ post) ->
  updatePayloadConfig shadcn (P +:+ "plugins: [" +:+ body +:+ "]" +:+ post)
    = P +:+ "plugins: [" +:+ body +:+ "]" +:+ post.
Proof.
  intros HP Hb Hhas Himport Q1 Q2 Q3.
  assert (HPo : all_chars (is_not "[") P = true)
    by (revert HP; apply all_chars_impl, plain_open).
  unfold updatePayloadConfig, addImport. rewrite Himport. cbn [negb].
  unfold addPlugin. rewrite exec_pluginsRegex by assumption.
  change (cap_text 1 (RMatch (String.length P) P ("plugins: [" +:+ body +:+ "]") post
                        [(1, body)])) with body.
  rewrite Hhas. cbn [negb]. now apply cleanup_quiet.
Qed.

Lemma patched_blank (pre post ws : string) :
  all_chars plain pre = true -> all_chars plain post = true ->
  all_chars is_space ws = true ->
  test (importRegex (getPluginImportName shadcn) (getPackageName shadcn))
       (pre +:+ "plugins: [" +:+ ws +:+ "]" +:+ post) = false ->
  let once := (importLine shadcn +:+ pre) +:+ "plugins: [" +:+ getPluginConfig shadcn
                +:+ "]" +:+ post in
  updatePayloadConfig shadcn (pre +:+ "plugins: [" +:+ ws +:+ "]" +:+ post) = once /\
  updatePayloadConfig shadcn once = once.
Proof.
  intros Hpre Hpost Hws Habsent once.
  assert (HP : all_chars plain (importLine shadcn +:+ pre) = true)
    by (now rewrite all_chars_app, Hpre, importLine_plain).
  assert (Q : forall x y,
            (x, y) = ("," , ",")%char \/ (x, y) = ("[", ",")%char
            \/ (x, y) = (",", "]")%char ->
            quiet (pair_regex x y) once).
  { intros x y Hxy.
    generalize (blank_result_quiet x y _ _ Hxy HP Hpost).
    cbn [fold_right]. unfold once. now rewrite append_empty_r, !append_assoc. }
  split.
  - unfold updatePayloadConfig, addImport. rewrite Habsent. cbn [negb].
    rewrite <- (append_assoc (importLine shadcn) pre).
    rewrite addPlugin_list; try assumption.
    + unfold newPluginsSection. rewrite (cleanPlugins_blank ws Hws).
      cbn [is_empty]. rewrite !append_nil.
      rewrite cleanup_quiet; [unfold once; now rewrite !append_assoc | | |];
        (eapply eq_ind; [apply Q|]); try (unfold once; now rewrite !append_assoc);
        auto.
    + revert Hws. apply all_chars_impl. intros x Hx.
      each_ascii x; vm_compute in Hx |- *; congruence.
    + now apply hasPlugin_blank.
    + now rewrite (cleanPlugins_blank ws Hws).
  - unfold once. apply patched_again; try assumption; try (apply Q; auto).
    + vm_compute. reflexivity.
    + rewrite <- (append_nil (getPluginConfig shadcn)) at 1.
      apply hasPlugin_added.
    + rewrite append_assoc. apply import_added.
Qed.

Lemma patched_entries (pre post a b : string) :
  all_chars plain pre = true -> all_chars plain post = true ->
  is_entry a = true -> is_entry b = true ->
  hasPlugin shadcn (a +:+ ", " +:+ b) = false ->
  test (importRegex (getPluginImportName shadcn) (getPackageName shadcn))
       (pre +:+ "plugins: [" +:+ a +:+ ", " +:+ b +:+ "]" +:+ post) = false ->
  let once := (importLine shadcn +:+ pre) +:+ "plugins: ["
                +:+ ((a +:+ ", " +:+ b +:+ ",") +:+ getPluginConfig shadcn)
                +:+ "]" +:+ post in
  updatePayloadConfig shadcn
    (pre +:+ "plugins: [" +:+ a +:+ ", " +:+ b +:+ "]" +:+ post) = once /\
  updatePayloadConfig shadcn once = once.
Proof.
  intros Hpre Hpost Ha Hb Hnew Habsent once.
  assert (HP : all_chars plain (importLine shadcn +:+ pre) = true)
    by (now rewrite all_chars_app, Hpre, importLine_plain).
  destruct (is_entry_facts a Ha) as (Hac & Han & _).
  destruct (is_entry_facts b Hb) as (Hbc & Hbn & _).
  assert (Q : forall x y,
            (x, y) = ("," , ",")%char \/ (x, y) = ("[", ",")%char
            \/ (x, y) = (",", "]")%char ->
            quiet (pair_regex x y) once).
  { intros x y Hxy.
    generalize (entries_result_quiet x y _ a b _ Hxy HP Hpost Ha Hb).
    cbn [fold_right]. unfold once. now rewrite append_empty_r, !append_assoc. }
  split.
  - unfold updatePayloadConfig, addImport. rewrite Habsent. cbn [negb].
    rewrite <- (append_assoc (importLine shadcn) pre).
    rewrite <- (append_assoc a ", " (b +:+ "]" +:+ post)).
    rewrite <- (append_assoc (a +:+ ", ") b ("]" +:+ post)).
    rewrite (append_assoc a ", " b).
    rewrite addPlugin_list; try assumption.
    + unfold newPluginsSection. rewrite (cleanPlugins_entries a b Ha Hb).
      rewrite is_empty_app by (rewrite append_cons; discriminate).
      assert (E : (importLine shadcn +:+ pre)
                    +:+ ("plugins: [" +:+ (a +:+ ", " +:+ b) +:+ ","
                         +:+ getPluginConfig shadcn +:+ "]") +:+ post = once)
        by (unfold once; now rewrite !append_assoc).
      rewrite E. apply cleanup_quiet; apply Q; auto.
    + rewrite !all_chars_app.
      rewrite (entry_chars "]" a entry_no_close Hac), (entry_chars "]" b entry_no_close Hbc).
      reflexivity.
    + rewrite (cleanPlugins_entries a b Ha Hb), !all_chars_app.
      rewrite (entry_chars "$" a entry_no_dollar Hac), (entry_chars "$" b entry_no_dollar Hbc).
      reflexivity.
  - unfold once. apply patched_again; try assumption; try (apply Q; auto).
    + rewrite !all_chars_app.
      rewrite (entry_chars "]" a entry_no_close Hac), (entry_chars "]" b entry_no_close Hbc).
      vm_compute. reflexivity.
    + apply hasPlugin_added.
    + rewrite append_assoc. apply import_added.
Qed.

(** X24.  On the configurations for which the list is extended as
    intended (no comma and no bracket around the list; in it, white
    space only or two plain entries) and that do not import the plugin
    yet, the installer's patch is idempotent: applied to its own result
    it finds the import and the entry in place and changes nothing. *)
Theorem updatePayloadConfig_second_run (pre post : string)
    (Hpre : all_chars plain pre = true)
    (Hpost : all_chars plain post = true) :
  (forall ws,
     all_chars is_space ws = true ->
     let c := pre +:+ "plugins: [" +:+ ws +:+ "]" +:+ post in
     test (importRegex (getPluginImportName shadcn) (getPackageName shadcn)) c
       = false ->
     updatePayloadConfig shadcn (updatePayloadConfig shadcn c)
       = updatePayloadConfig shadcn c) /\
  (forall a b,
     is_entry a = true -> is_entry b = true ->
     hasPlugin shadcn (a +:+ ", " +:+ b) = false ->
     let c := pre +:+ "plugins: [" +:+ a +:+ ", " +:+ b +:+ "]" +:+ post in
     test (importRegex (getPluginImportName shadcn) (getPackageName shadcn)) c
       = false ->
     updatePayloadConfig shadcn (updatePayloadConfig shadcn c)
       = updatePayloadConfig shadcn c).
Proof.
  split.
  - intros ws Hws c Habsent.
    destruct (patched_blank pre post ws Hpre Hpost Hws Habsent) as [E1 E2].
    unfold c. now rewrite E1, E2.
  - intros a b Ha Hb Hnew c Habsent.
    destruct (patched_entries pre post a b Hpre Hpost Ha Hb Hnew Habsent) as [E1 E2].
    unfold c. now rewrite E1, E2.
Qed.

Lemma updatePayloadConfig_second_run_witness :
  let c := "export default buildConfig({ plugins: [seoPlugin(), formBuilder] })" in
  updatePayloadConfig shadcn (updatePayloadConfig shadcn c)
    = updatePayloadConfig shadcn c.
Proof.
  cbv zeta.
  destruct (updatePayloadConfig_second_run "export default buildConfig({ " " })")
    as [_ Hentries]; [vm_compute; reflexivity | vm_compute; reflexivity |].
  apply (Hentries "seoPlugin()" "formBuilder"); vm_compute; reflexivity.
Defined.

(** ** Converting a configuration without losing it *)

Import InitConfig.



(** ** The package manager of a project *)

Import PackageManagers.

Section Detection.
Variable packageManagerField : string -> option (option string).

(** X26.  [detectPackageManager] never throws and changes no file.  A
    lock file decides before [package.json] is looked at, in the order
    pnpm, yarn, npm; and without a lock file, a [package.json] that is
    missing or cannot be read or used gives npm. *)
Theorem detectPackageManager_precedence (w : world)
    (Hcwd : isAbsolute (cwd w) = true) :
  let present := fun file => exists_at w (join (cwd w) file) in
  exists detected w',
    detectPackageManager packageManagerField w = (Ok detected, w') /\
    files w' = files w /\
    (present "pnpm-lock.yaml" = true -> detected = pnpm) /\
    (present "pnpm-lock.yaml" = false -> present "yarn.lock" = true ->
     detected = yarn) /\
    (present "pnpm-lock.yaml" = false -> present "yarn.lock" = false ->
     present "package-lock.json" = true -> detected = npm) /\
    (present "pnpm-lock.yaml" = false -> present "yarn.lock" = false ->
     present "package-lock.json" = false ->
     (present "package.json" = false \/ fails w = true
      \/ (forall text, packageManagerField text = None)) ->
     detected = npm).
Proof.
  intros present.
  assert (Hex : forall file w1, cwd w1 = cwd w -> files w1 = files w -> dirs w1 = dirs w ->
            pathExists (join (cwd w) file) w1 = (Ok (present file), w1)).
  { intros file w1 Hc Hf Hd. rewrite pathExists_run. unfold present, exists_at, is_dir.
    rewrite !resolve_absolute by now apply join_absolute. now rewrite Hf, Hd. }
  unfold detectPackageManager. rewrite bind_run. unfold get_world at 1.
  rewrite bind_run, (Hex _ w) by reflexivity.
  destruct (present "pnpm-lock.yaml") eqn:H1.
  { rewrite bind_run, log_run. do 2 eexists. split; [reflexivity|].
    split; [reflexivity|]. repeat split; congruence. }
  rewrite bind_run, (Hex _ w) by reflexivity.
  destruct (present "yarn.lock") eqn:H2.
  { rewrite bind_run, log_run. do 2 eexists. split; [reflexivity|].
    split; [reflexivity|]. repeat split; congruence. }
  rewrite bind_run, (Hex _ w) by reflexivity.
  destruct (present "package-lock.json") eqn:H3.
  { rewrite bind_run, log_run. do 2 eexists. split; [reflexivity|].
    split; [reflexivity|]. repeat split; congruence. }
  rewrite bind_run, try_catch_run, bind_run, (Hex _ w) by reflexivity.
  destruct (present "package.json") eqn:H4.
  2:{ run_fs. do 2 eexists. split; [reflexivity|].
      split; [reflexivity|]. repeat split; congruence. }
  unfold readPackageManager. rewrite !bind_run, readFile_run.
  destruct (fails w) eqn:Hf.
  { run_fs. do 2 eexists. split; [reflexivity|].
    split; [reflexivity|]. repeat split; congruence. }
  destruct (files w !! resolve w (join (cwd w) "package.json")) as [text|].
  2:{ run_fs. do 2 eexists. split; [reflexivity|].
      split; [reflexivity|]. repeat split; congruence. }
  destruct (packageManagerField text) as [[field|]|] eqn:Hfield.
  - run_fs. destruct (startsWith "pnpm" field);
      [|destruct (startsWith "yarn" field); [|destruct (startsWith "npm" field)]];
      run_fs; do 2 eexists; (split; [reflexivity|]);
      (split; [reflexivity|]); repeat split; try congruence;
      intros _ _ _ [|[|Hno]]; try congruence; rewrite Hno in Hfield; discriminate.
  - run_fs. do 2 eexists. split; [reflexivity|].
    split; [reflexivity|]. repeat split; congruence.
  - run_fs. do 2 eexists. split; [reflexivity|].
    split; [reflexivity|]. repeat split; congruence.
Qed.
End Detection.

Lemma detectPackageManager_precedence_witness :
  let w := World {[ "/app/yarn.lock" := ""; "/app/package.json" := "{}" ]}
                 {[ "/app" ]} "/app" [] [] in
  exists w',
    getInstallCommand (fun _ => Some (Some "pnpm@9.1.0")) w = (Ok "yarn add", w').
Proof.
  cbv zeta.
  pose (w := World {[ "/app/yarn.lock" := ""; "/app/package.json" := "{}" ]}
                   {[ "/app" ]} "/app" [] []).
  destruct (detectPackageManager_precedence (fun _ => Some (Some "pnpm@9.1.0")) w)
    as (detected & w' & Hrun & _ & _ & Hyarn & _); [reflexivity|].
  rewrite (Hyarn ltac:(vm_compute; reflexivity) ltac:(vm_compute; reflexivity)) in Hrun.
  exists w'. unfold getInstallCommand. fold w. rewrite bind_run, Hrun. reflexivity.
Defined.

(** ** Two searches for a configuration file *)

(** X27.  The two implementations of [findConfigFile] pick the same
    candidate: the one of the plugin utilities returns, as a full path,
    the candidate that the one of the plugins index returns as it was
    given. *)
Theorem findConfigFile_implementations_agree (possiblePaths : list string) (w : world)
    (Hcwd : isAbsolute (cwd w) = true) :
  exists picked,
    PluginsIndex.findConfigFile possiblePaths w = (Ok picked, w) /\
    Plugins.findConfigFile possiblePaths w = (Ok (resolve w <$> picked), w).
Proof.
  exists (List.find (exists_at w) possiblePaths).
  split; [|now apply findConfigFile_run].
  induction possiblePaths as [|x l IH]; [reflexivity|].
  cbn [PluginsIndex.findConfigFile List.find].
  rewrite bind_run, pathExists_run. fold (exists_at w x).
  destruct (exists_at w x); [reflexivity | exact IH].
Qed.

Lemma findConfigFile_implementations_agree_witness :
  PluginsIndex.findConfigFile payloadConfigPaths (project bareConfig [])
    = (Ok (Some "src/payload.config.ts"), project bareConfig []) /\
  Plugins.findConfigFile payloadConfigPaths (project bareConfig [])
    = (Ok (Some "/app/src/payload.config.ts"), project bareConfig []).
Proof.
  destruct (findConfigFile_implementations_agree payloadConfigPaths
              (project bareConfig [])) as (picked & H1 & H2); [reflexivity|].
  assert (E : fst (PluginsIndex.findConfigFile payloadConfigPaths (project bareConfig []))
              = Ok (Some "src/payload.config.ts")) by (vm_compute; reflexivity).
  rewrite H1 in E. cbn [fst] in E. injection E as ->.
  split; [exact H1 | exact H2].
Defined.

(** ** Adding a plugin and removing it again *)

Import RemoveCommand.

Lemma replace_all_go_prefix (r : regex) (f : rmatch -> string) (P Q : string) :
  forall (i : nat) (pv : option ascii) (bef : string),
    (forall k i' pv', k < String.length P ->
       match_here r i' pv' (drop k P +:+ Q) = None) ->
    replace_all_go r f 0 i pv bef (P +:+ Q)
      = P +:+ replace_all_go r f 0 (i + String.length P) (prev_after pv P)
                (String.rev_app P bef) Q.
Proof.
  induction P as [|c t IH]; intros i pv bef Hmiss.
  - rewrite !append_nil. cbn [String.length prev_after String.rev_app].
    now rewrite Nat.add_0_r.
  - rewrite !append_cons.
    assert (H0 : match_here r i pv (String c (t +:+ Q)) = None).
    { rewrite <- append_cons. apply (Hmiss 0). cbn [String.length]. lia. }
    rewrite replace_all_go_miss by exact H0.
    rewrite IH.
    + cbn [String.length prev_after String.rev_app]. do 3 f_equal. lia.
    + intros k i' pv' Hk. apply (Hmiss (S k)). cbn [String.length]. lia.
Qed.

Lemma replace_all_go_over (r : regex) (f : rmatch -> string) (X Y : string) :
  forall (i : nat) (pv : option ascii) (bef : string),
    replace_all_go r f (String.length X) i pv bef (X +:+ Y)
      = replace_all_go r f 0 (i + String.length X) (prev_after pv X)
          (String.rev_app X bef) Y.
Proof.
  induction X as [|c t IH]; intros i pv bef.
  - rewrite append_nil. cbn [String.length prev_after String.rev_app].
    now rewrite Nat.add_0_r.
  - rewrite append_cons. cbn [String.length]. rewrite replace_all_go_skip, IH.
    cbn [prev_after String.rev_app]. f_equal. lia.
Qed.

Lemma replace_all_go_quiet (r : regex) (f : rmatch -> string) (s : string) :
  quiet r s ->
  forall (i : nat) (pv : option ascii) (bef : string),
    replace_all_go r f 0 i pv bef s = s.
Proof.
  induction s as [|c t IH]; intros Hq i pv bef.
  - apply replace_all_go_end. apply (Hq 0).
  - rewrite replace_all_go_miss by apply (Hq 0 i pv).
    rewrite IH; [reflexivity|]. intros k i' pv'. apply (Hq (S k)).
Qed.

Lemma mt_Cls (p : ascii -> bool) (st : mstate) (k : cont) :
  mt (Cls p) st k =
    match rest st with
    | String c t =>
        if p c then k (MState (S (pos st)) (Some c) t (caps st)) else None
    | EmptyString => None
    end.
Proof. reflexivity. Qed.

Lemma mt_Opt (a : regex) (st : mstate) (k : cont) :
  mt (Opt a) st k = match mt a st k with Some x => Some x | None => k st end.
Proof. reflexivity. Qed.

(** Where the quoted name can match: at a quote that the name follows. *)
Lemma quotedName_miss (n s : string) (i : nat) (pv : option ascii) :
  match s with
  | String c t => is_quote c && startsWith n t
  | EmptyString => false
  end = false ->
  match_here (quotedName n) i pv s = None.
Proof.
  intros H. unfold match_here, quotedName, RegExp.RegExp. cbn [seqs].
  rewrite mt_Seq, mt_Cls. cbn [rest]. destruct s as [|c t]; [reflexivity|].
  destruct (is_quote c); [|reflexivity]. cbn [andb] in H.
  rewrite mt_Seq, mt_Lit. cbn [rest]. now rewrite H.
Qed.

Lemma quotedName_hit (n R : string) (q q' d : ascii) (i : nat) (pv : option ascii) :
  is_quote q = true -> is_quote q' = true ->
  Ascii.eqb "," d = false -> is_space d = false ->
  match_here (quotedName n) i pv (String q (n +:+ String q' (String d R)))
    = Some (MState (S (S i + String.length n)) (Some q') (String d R) []).
Proof.
  intros Hq Hq' Hd Hs. unfold match_here, quotedName, RegExp.RegExp. cbn [seqs].
  rewrite mt_Seq, mt_Cls. cbn [rest pos prev caps]. rewrite Hq.
  rewrite mt_Seq, mt_Lit. cbn [rest pos prev caps].
  rewrite startsWith_app, drop_length_app.
  rewrite mt_Seq, mt_Cls. cbn [rest pos prev caps]. rewrite Hq'.
  rewrite mt_Seq, mt_Opt, mt_Lit. cbn [rest startsWith].
  rewrite Hd. cbn [andb mt star_greedy rest pos prev caps]. rewrite Hs.
  first [reflexivity | repeat f_equal; lia].
Qed.

Lemma startsWith_cut (n t v : string) (d : ascii) :
  all_chars (fun c => negb (Ascii.eqb c d)) n = true ->
  startsWith n (t +:+ String d v) = true -> startsWith n t = true.
Proof.
  revert t. induction n as [|a n IH]; intros t Hn H; [reflexivity|].
  cbn [all_chars] in Hn. apply andb_prop in Hn as [Ha Hn].
  destruct t as [|b t].
  - rewrite append_nil in H. cbn [startsWith] in H.
    apply andb_prop in H as [H _]. apply negb_true_iff in Ha. congruence.
  - rewrite append_cons in H. cbn [startsWith] in *.
    apply andb_prop in H as [Hab H]. rewrite Hab. now apply IH.
Qed.

Lemma includes_drop (n s : string) (k : nat) :
  startsWith n (drop k s) = true -> includes n s = true.
Proof.
  revert k. induction s as [|c t IH]; intros k H.
  - destruct k; cbn [drop] in H; destruct n; cbn in *; congruence.
  - destruct k as [|k]; cbn [drop] in H; cbn [includes].
    + now rewrite H.
    + rewrite (IH k H). apply orb_true_r.
Qed.

Lemma startsWith_longer (n s v : string) :
  startsWith n s = true -> startsWith n (s +:+ v) = true.
Proof.
  revert s. induction n as [|a n IH]; intros s E; [reflexivity|].
  destruct s as [|b s]; [discriminate|]. rewrite append_cons.
  cbn [startsWith] in *. apply andb_prop in E as [-> E]. now apply IH.
Qed.

Lemma includes_longer (n u v : string) :
  includes n u = true -> includes n (u +:+ v) = true.
Proof.
  induction u as [|c u IH]; intros E.
  - destruct n; [now destruct v | discriminate].
  - rewrite append_cons. cbn [includes] in *.
    apply orb_prop in E as [E|E].
    + rewrite <- append_cons. now rewrite (startsWith_longer _ _ v E).
    + rewrite (IH E). apply orb_true_r.
Qed.

Lemma includes_prefix (n u v : string) :
  includes n (u +:+ v) = false -> includes n u = false.
Proof.
  intros H. destruct (includes n u) eqn:E; [|reflexivity].
  now rewrite (includes_longer n u v E) in H.
Qed.

Lemma includes_suffix (n u v : string) :
  includes n (u +:+ v) = false -> includes n v = false.
Proof.
  intros H. destruct (includes n v) eqn:E; [|reflexivity].
  now rewrite (includes_later n u v E) in H.
Qed.

Lemma quotedName_quiet (n s : string) :
  includes n s = false -> quiet (quotedName n) s.
Proof.
  intros H k i pv. apply quotedName_miss.
  destruct (drop k s) as [|c t] eqn:E; [reflexivity|].
  destruct (startsWith n t) eqn:Ht; [|apply andb_false_r].
  assert (Hd : drop (S k) s = t).
  { clear H Ht. revert k E. induction s as [|x s IH]; intros k E.
    - destruct k; discriminate.
    - destruct k as [|k]; cbn [drop] in *; [now injection E | now apply IH]. }
  rewrite <- Hd in Ht. apply includes_drop in Ht. congruence.
Qed.

Lemma quotedName_before (n prefix v : string) (d : ascii) :
  all_chars (fun c => negb (Ascii.eqb c d)) n = true ->
  includes n prefix = false ->
  forall k i pv, k < String.length prefix ->
    match_here (quotedName n) i pv (drop k prefix +:+ String d v) = None.
Proof.
  intros Hn Hno k i pv Hk. apply quotedName_miss.
  destruct (drop k prefix) as [|c t] eqn:E.
  - exfalso. clear Hno. revert k Hk E. induction prefix as [|x p IH]; intros k Hk E;
      cbn [String.length] in Hk; [lia|].
    destruct k as [|k]; cbn [drop] in E; [discriminate|]. apply (IH k); [lia | exact E].
  - rewrite append_cons.
    destruct (startsWith n (t +:+ String d v)) eqn:Ht; [|apply andb_false_r].
    apply startsWith_cut in Ht; [|exact Hn].
    assert (Hd : drop (S k) prefix = t).
    { clear Hno Ht Hk. revert k E. induction prefix as [|x p IH]; intros k E.
      - destruct k; discriminate.
      - destruct k as [|k]; cbn [drop] in *; [now injection E | now apply IH]. }
    rewrite <- Hd in Ht. apply includes_drop in Ht. congruence.
Qed.

Lemma solid_not_cut (y : ascii) (t v : string) :
  is_space y = false ->
  solid_not y (t +:+ String y v) = true -> solid_not y t = true.
Proof.
  intros Hy. unfold solid_not. induction t as [|c t IH].
  - rewrite append_nil. cbn [trimStart]. rewrite Hy, Ascii.eqb_refl. discriminate.
  - rewrite append_cons. cbn [trimStart]. destruct (is_space c); [exact IH | trivial].
Qed.

Lemma pair_free_cut (x y : ascii) (u v : string) :
  is_space y = false ->
  pair_free x y (u +:+ String y v) = true -> pair_free x y u = true.
Proof.
  intros Hy. induction u as [|c t IH]; intros H; [reflexivity|].
  rewrite append_cons in H. cbn [pair_free] in *.
  apply andb_prop in H as [Hc Ht]. rewrite (IH Ht), andb_true_r.
  destruct (negb (Ascii.eqb c x)); [reflexivity|]. cbn [orb] in *.
  now apply (solid_not_cut y t v).
Qed.

(** The quoted name before a closing bracket is deleted, and nothing of
    a rest that does not hold the name. *)
Lemma quotedName_deleted (n post : string) (i : nat) (pv : option ascii)
    (bef : string) :
  includes n ("]" +:+ post) = false ->
  replace_all_go (quotedName n) (fun m => expand (ngroups (quotedName n)) m "")
      0 i pv bef (String "'" (n +:+ String "'" (String "]" post)))
    = String "]" post.
Proof.
  intros Hpost.
  rewrite (replace_all_go_hit _ _ _ _ _ _ _ _ (S (String.length n))
             (quotedName_hit n post "'" "'" "]" i pv
                eq_refl eq_refl eq_refl eq_refl))
    by (cbn [pos]; lia).
  cbn [expand append].
  replace (S (String.length n)) with (String.length (n +:+ "'"))
    by (rewrite length_append; cbn [String.length]; lia).
  replace (n +:+ String "'" (String "]" post))
    with ((n +:+ "'") +:+ String "]" post)
    by (now rewrite append_assoc).
  rewrite replace_all_go_over.
  apply replace_all_go_quiet, quotedName_quiet. exact Hpost.
Qed.

(** X28.  Removing a plugin undoes adding it.  For a directory
    configuration whose first opening bracket is that of the plugins
    list, with a list that is empty or has entries, with no comma before
    a closing bracket and without the name, and for a name free of
    quotes, commas and pattern syntax: the text of the add command, given
    to the remove command under the same name, is the text before the
    add. *)
Theorem add_then_remove (n P body post : string)
    (Hplain : plain_pattern n = true)
    (Hname : all_chars (fun c => negb (is_quote c || Ascii.eqb c ",")) n = true)
    (Hbefore : all_chars (is_not "[") P = true)
    (Hbody : all_chars (is_not "]") body = true)
    (Hentries : body = "" \/ is_empty (trim body) = false)
    (Hnew : includes n (P +:+ "plugins: [" +:+ body +:+ "]" +:+ post) = false)
    (Hcommas : pair_free "," "]" (P +:+ "plugins: [" +:+ body +:+ "]" +:+ post)
               = true) :
  withoutPlugin n (withPlugin n (P +:+ "plugins: [" +:+ body +:+ "]" +:+ post))
    = P +:+ "plugins: [" +:+ body +:+ "]" +:+ post.
Proof.
  rewrite (withPlugin_list n P body post Hbefore Hbody Hnew).
  assert (Hq : all_chars (fun c => negb (Ascii.eqb c "'")) n = true).
  { revert Hname. apply all_chars_impl. intros c. unfold is_quote.
    destruct (Ascii.eqb c "'"); [discriminate | reflexivity]. }
  assert (Hc : all_chars (fun c => negb (Ascii.eqb c ",")) n = true).
  { revert Hname. apply all_chars_impl. intros c.
    destruct (Ascii.eqb c ","); [now rewrite orb_true_r | reflexivity]. }
  assert (Hpost : includes n ("]" +:+ post) = false).
  { apply (includes_suffix n (P +:+ "plugins: [" +:+ body)).
    now rewrite !append_assoc. }
  assert (HV : includes n (P +:+ "plugins: [" +:+ body) = false).
  { apply (includes_prefix n _ ("]" +:+ post)). now rewrite !append_assoc. }
  assert (HfV : pair_free "," "]" (P +:+ "plugins: [" +:+ body) = true).
  { apply (pair_free_cut "," "]" _ post); [reflexivity|].
    now rewrite !append_assoc. }
  unfold withoutPlugin.
  destruct Hentries as [-> | Hsome].
  - (* an empty list *)
    cbn [trim trimStart trimEnd is_empty String.rev String.rev_app].
    rewrite append_nil in *.
    replace (P +:+ ("plugins: ['" +:+ n +:+ "']") +:+ post)
      with ((P +:+ "plugins: [") +:+ String "'" (n +:+ String "'" (String "]" post))).
    2:{ rewrite !append_assoc. cbn [append]. now rewrite ?append_assoc. }
    unfold replace_all, replace_all_with.
    rewrite replace_all_go_prefix by (now apply quotedName_before).
    rewrite quotedName_deleted by exact Hpost.
    replace ((P +:+ "plugins: [") +:+ String "]" post)
      with (P +:+ "plugins: [" +:+ "]" +:+ post)
      by (now rewrite !append_assoc).
    apply replace_first_quiet.
    change commaBeforeClose with (pair_regex "," "]").
    now apply pair_free_quiet.
  - (* a list with entries *)
    rewrite Hsome.
    replace (P +:+ ("plugins: [" +:+ body +:+ ", '" +:+ n +:+ "']") +:+ post)
      with ((P +:+ "plugins: [" +:+ body)
              +:+ String "," (String " "
                   (String "'" (n +:+ String "'" (String "]" post))))).
    2:{ rewrite !append_assoc. cbn [append]. now rewrite ?append_assoc. }
    unfold replace_all, replace_all_with.
    rewrite replace_all_go_prefix by (now apply quotedName_before).
    rewrite replace_all_go_miss by (now apply quotedName_miss).
    rewrite replace_all_go_miss by (now apply quotedName_miss).
    rewrite quotedName_deleted by exact Hpost.
    unfold replace_first, replace_first_with, exec.
    change commaBeforeClose with (pair_regex "," "]").
    rewrite search_skip
      by (intros k i' pv' Hk; now apply pair_free_here).
    erewrite search_hit by (vm_compute; reflexivity).
    cbn [m_before m_after pos rest Nat.add]. rewrite rev_rev_app.
    cbn [expand]. now rewrite !append_assoc.
Qed.

Lemma add_then_remove_witness :
  withoutPlugin "@payloadcmsdirectory/shadcn-ui"
      (withPlugin "@payloadcmsdirectory/shadcn-ui"
         "module.exports = { plugins: ['seo'], };")
    = "module.exports = { plugins: ['seo'], };".
Proof.
  apply (add_then_remove "@payloadcmsdirectory/shadcn-ui"
           "module.exports = { " "'seo'" ", };");
    [vm_compute; reflexivity | vm_compute; reflexivity | vm_compute; reflexivity
    | vm_compute; reflexivity | right; vm_compute; reflexivity
    | vm_compute; reflexivity | vm_compute; reflexivity].
Defined.
